(** * Rolling replication controller of p2 (pkg/replication)

    A shallow embedding of [replication.go], [health_aggregator.go] and the
    rollout orderer, with the properties of the controller proved over it.

    Conventions.
    - Go strings are [string]; [types.NodeName], [types.PodID] and
      [health.HealthState] are string types in the source.
    - A Go [error] value is an element of [error]; [nil] is [None] in
      [option error].
    - [int32] counters are [Z] with the wrap-around written out.
    - A Go map that may be [nil] is an [option (gmap _ _)]. *)

From Stdlib Require Import ZArith List Bool Lia Sorted.
From stdpp Require Import base option list gmap strings.
From Stdlib Require Strings.Byte.

Local Open Scope Z_scope.

(** ** Basic types *)

Definition NodeName := string.
Definition PodID := string.
Definition HealthState := string.

(** [manifest.Manifest]: only the observations the controller makes are kept:
    the pod id and the result of [SHA()], a string and an error. *)
Record Manifest := mkManifest {
  man_ID : PodID;
  man_SHA : string;
  man_SHA_err : bool
}.

(** Errors leaving the per-node updater.  [errTimeout], [errCancelled] and
    [errQuit] are the package's sentinel values; every other error value is
    an [errOther] carrying its message. *)
Inductive error :=
| errTimeout
| errCancelled
| errQuit
| NoCurrentManifest
| errOther (msg : string).

#[global] Instance error_eq_dec : EqDecision error.
Proof. solve_decision. Defined.

#[global] Instance Manifest_eq_dec : EqDecision Manifest.
Proof. solve_decision. Defined.

(** [time.Duration]. *)
Definition Duration := Z.

(** Modelled from the spec: [NoTimeout], whose declaration is not in
    [replication.go], is the sentinel [time.Duration] that disables the
    per-node deadline; only its being one fixed value is used. *)
Definition NoTimeout : Duration := -1.

(** ** int32 arithmetic *)

Definition wrap32 (z : Z) : Z := (z + 2 ^ 31) mod 2 ^ 32 - 2 ^ 31.

Definition is_int32 (z : Z) : Prop := - 2 ^ 31 <= z < 2 ^ 31.

(** ** Channels used as signals *)

Inductive chan_state := ChOpen | ChClosed.

#[global] Instance chan_state_eq_dec : EqDecision chan_state.
Proof. solve_decision. Defined.

(** ** The replication record

    The fields of [replication] that the modelled methods read or write.
    [nodeQueue] is [None] when the replication was constructed with a nil
    queue.  [log] collects the lines written to the logger and [errCh] the
    values sent on the error channel, oldest first. *)

Inductive log_line :=
| LogSuccess (node : NodeName) (pod : PodID)
| LogTimedOut (node : NodeName) (pod : PodID)
| LogCancelled (node : NodeName) (pod : PodID)
| LogUnexpected (e : error).

Record replication := mkReplication {
  active : Z;
  nodes : list NodeName;
  completedCount : Z;
  manifest : Manifest;
  threshold : HealthState;
  podLabels : list (string * string);
  timeout : Duration;
  timedOutReplications : list NodeName;
  nodeQueue : option (list NodeName);
  replicationCancelledCh : chan_state;
  quitCh : chan_state;
  errCh : list error;
  log : list log_line
}.

Definition set_manifest (m : Manifest) (r : replication) : replication :=
  mkReplication (active r) (nodes r) (completedCount r) m (threshold r)
    (podLabels r) (timeout r) (timedOutReplications r) (nodeQueue r)
    (replicationCancelledCh r) (quitCh r) (errCh r) (log r).

Definition set_completedCount (c : Z) (r : replication) : replication :=
  mkReplication (active r) (nodes r) c (manifest r) (threshold r)
    (podLabels r) (timeout r) (timedOutReplications r) (nodeQueue r)
    (replicationCancelledCh r) (quitCh r) (errCh r) (log r).

Definition set_timedOut (l : list NodeName) (r : replication) : replication :=
  mkReplication (active r) (nodes r) (completedCount r) (manifest r)
    (threshold r) (podLabels r) (timeout r) l (nodeQueue r)
    (replicationCancelledCh r) (quitCh r) (errCh r) (log r).

Definition set_cancelled (c : chan_state) (r : replication) : replication :=
  mkReplication (active r) (nodes r) (completedCount r) (manifest r)
    (threshold r) (podLabels r) (timeout r) (timedOutReplications r)
    (nodeQueue r) c (quitCh r) (errCh r) (log r).

Definition add_log (l : log_line) (r : replication) : replication :=
  mkReplication (active r) (nodes r) (completedCount r) (manifest r)
    (threshold r) (podLabels r) (timeout r) (timedOutReplications r)
    (nodeQueue r) (replicationCancelledCh r) (quitCh r) (errCh r)
    (log r ++ [l]).

(** ** SetManifest, GetManifest, CompletedCount, Cancel *)

(** [SetManifest]: both SHA errors are dropped ([oldSHA, _ := ...]); the
    counter is stored as 0 when the two strings differ, then the manifest is
    replaced. *)
Definition SetManifest (man : Manifest) (r : replication) : replication :=
  let oldSHA := man_SHA (manifest r) in
  let newSHA := man_SHA man in
  let r1 := if decide (oldSHA = newSHA) then r else set_completedCount 0 r in
  set_manifest man r1.

Definition GetManifest (r : replication) : Manifest := manifest r.

Definition CompletedCount (r : replication) : Z := completedCount r.

(** [Cancel]: closes [replicationCancelledCh] only for a nil [nodeQueue].
    Closing a closed channel panics in Go: [None]. *)
Definition Cancel (r : replication) : option replication :=
  match nodeQueue r with
  | None =>
      match replicationCancelledCh r with
      | ChOpen => Some (set_cancelled ChClosed r)
      | ChClosed => None
      end
  | Some _ => Some r
  end.

(** ** Health states and results (package [health])

    [health.Result] as the controller and the tests use it.  The zero value
    has every field empty. *)
Record Result := mkResult {
  res_ID : string;
  res_Node : NodeName;
  res_Service : string;
  res_Status : HealthState
}.

Definition zeroResult : Result := mkResult "" "" "" "".

(** Modelled from the spec: the constants of package [health], which is not
    embedded here.  The spelling of [Passing] is the one the
    checker test compares against; the others follow it. *)
Definition Passing : HealthState := "passing".
Definition Warning : HealthState := "warning".
Definition Unknown : HealthState := "unknown".
Definition Critical : HealthState := "critical".

(** ** The health aggregator ([health_aggregator.go]) *)

Record podHealth := mkPodHealth {
  podId : PodID;
  quit : chan_state;
  curHealth : option (gmap NodeName Result)
}.

(** [h, ok := p.curHealth[host]]: reading a nil map yields the zero value. *)
Definition GetHealth (p : podHealth) (host : NodeName) : Result * bool :=
  match curHealth p with
  | None => (zeroResult, false)
  | Some m =>
      match m !! host with
      | Some h => (h, true)
      | None => (zeroResult, false)
      end
  end.

Fixpoint numOfHealth (p : podHealth) (status : HealthState)
    (hosts : list NodeName) : Z :=
  match hosts with
  | [] => 0
  | host :: rest =>
      let '(h, ok) := GetHealth p host in
      (if ok && bool_decide (res_Status h = status) then 1 else 0)
      + numOfHealth p status rest
  end.

Definition NumHealthyOf p hosts := numOfHealth p Passing hosts.
Definition NumUnhealthyOf p hosts := numOfHealth p Critical hosts.
Definition NumUnknownHealthOf p hosts := numOfHealth p Unknown hosts.
Definition NumWarningHealthOf p hosts := numOfHealth p Warning hosts.

(** [Stop] closes the quit channel; closing it twice panics. *)
Definition Stop (p : podHealth) : option podHealth :=
  match quit p with
  | ChOpen => Some (mkPodHealth (podId p) ChClosed (curHealth p))
  | ChClosed => None
  end.

(** ** Waiting loops of the per-node updater

    Each iteration of [ensureInReality] and [ensureHealthy] is one [select];
    the case that fires is an event.  A tick carries what the loop body
    observes: the answer of [queryReality], or the aggregator as it is at
    that moment. *)

Inductive wait_event (A : Type) :=
| EvQuit
| EvCtxDone
| EvCancelled
| EvTick (a : A).
Arguments EvQuit {A}.
Arguments EvCtxDone {A}.
Arguments EvCancelled {A}.
Arguments EvTick {A} a.

(** What a call has done so far: still blocked in a [select], panicked, or
    returned an error value ([None] is nil). *)
Inductive outcome :=
| Blocked
| Panic
| Ret (e : option error).

#[global] Instance outcome_eq_dec : EqDecision outcome.
Proof. solve_decision. Defined.

(** The pair [queryReality] returns. *)
Definition reality_result : Type := option Manifest * option error.

Fixpoint ensureInReality (targetSHA : string)
    (evs : list (wait_event reality_result)) : outcome :=
  match evs with
  | [] => Blocked
  | EvQuit :: _ => Ret (Some errQuit)
  | EvCtxDone :: _ => Ret (Some errTimeout)
  | EvCancelled :: _ => Ret (Some errCancelled)
  | EvTick (man, err) :: rest =>
      match err with
      | Some _ => ensureInReality targetSHA rest
      | None =>
          match man with
          | None => Panic
          | Some m =>
              if decide (man_SHA m = targetSHA) then Ret None
              else ensureInReality targetSHA rest
          end
      end
  end.

Section HealthCompare.

(** [health.Compare] belongs to package [health], which is not embedded
    here: the updater is modelled over any comparison function. *)
Variable Compare : HealthState -> HealthState -> Z.

(** The threshold the loop compares against. *)
Definition effectiveThreshold (t : HealthState) : HealthState :=
  if decide (t = "") then Passing else t.

(** The body of the timer case of [ensureHealthy]: [true] when the node is
    declared healthy. *)
Definition healthyNow (t : HealthState) (node : NodeName)
    (aggregateHealth : podHealth) : bool :=
  let '(res, ok) := GetHealth aggregateHealth node in
  let status := res_Status res in
  let threshold := effectiveThreshold t in
  negb (Compare status threshold <? 0).

Fixpoint ensureHealthy (t : HealthState) (node : NodeName)
    (evs : list (wait_event podHealth)) : outcome :=
  match evs with
  | [] => Blocked
  | EvQuit :: _ => Ret (Some errQuit)
  | EvCtxDone :: _ => Ret (Some errTimeout)
  | EvCancelled :: _ => Ret (Some errCancelled)
  | EvTick agg :: rest =>
      if healthyNow t node agg then Ret None
      else ensureHealthy t node rest
  end.

End HealthCompare.

(** ** The per-node updater ([updateOne]) *)

(** [shouldScheduleForNode], given what [queryReality] returned. *)
Definition shouldScheduleForNode (r : replication) (q : reality_result)
    : bool :=
  match q with
  | (_, Some _) => true
  | (None, None) => true
  | (Some nodeReality, None) =>
      if man_SHA_err nodeReality then true
      else if man_SHA_err (GetManifest r) then true
      else if decide (man_SHA nodeReality = man_SHA (GetManifest r))
           then false
           else true
  end.

(** The result of [transaction.CommitWithRetries]. *)
Inductive commit_result :=
| CommitOk
| CommitConflict (errors : string)
| CommitErr (e : error).

(** What the collaborators answer while one node is updated: the first
    reality query, the two transaction builders, the commit, and the events
    of the two waiting loops. *)
Record node_env := mkNodeEnv {
  env_reality : reality_result;
  env_setPod : option error;
  env_setLabels : option error;
  env_commit : commit_result;
  env_inReality : list (wait_event reality_result);
  env_healthy : list (wait_event podHealth)
}.

(** An intent write: the node and the manifest of a [SetPodTxn] on the
    intent tree whose transaction was committed.  [SetPodTxn] and
    [SetLabelsTxn] only add operations to the transaction carried by [ctx];
    the store is written when [CommitWithRetries] reports success. *)
Definition intent_write : Type := NodeName * Manifest.

Definition conflictError (node : NodeName) (errors : string) : error :=
  errOther ("got transaction conflict writing intent store for "
            +:+ node +:+ ": " +:+ errors).

Section Updater.

Variable Compare : HealthState -> HealthState -> Z.

(** The statements of [updateOne] after the deferred increment has been
    registered: the outcome, and the intent writes the commit carried out.
    A builder that fails, a commit that returns an error and a commit that
    reports a conflict leave the intent tree as it was. *)
Definition updateOne_body (r : replication) (node : NodeName)
    (manifest : Manifest) (env : node_env) : outcome * list intent_write :=
  let targetSHA := man_SHA manifest in
  match env_setPod env with
  | Some err => (Ret (Some err), [])
  | None =>
      match (if 0 <? Z.of_nat (length (podLabels r))
             then env_setLabels env else None) with
      | Some err => (Ret (Some err), [])
      | None =>
          match env_commit env with
          | CommitErr _ => (Ret (Some errTimeout), [])
          | CommitConflict errors =>
              (Ret (Some (conflictError node errors)), [])
          | CommitOk =>
              (match ensureInReality targetSHA (env_inReality env) with
               | Ret None =>
                   ensureHealthy Compare (threshold r) node (env_healthy env)
               | o => o
               end,
               [(node, manifest)])
          end
      end
  end.

(** [updateOne]: the outcome, the replication afterwards and the intent
    writes carried out.  The deferred [atomic.AddInt32] is registered after
    the skip test and runs when the function leaves, by return or by panic,
    and not while it is blocked. *)
Definition updateOne (r : replication) (node : NodeName) (env : node_env)
    : outcome * replication * list intent_write :=
  let manifest := GetManifest r in
  if negb (shouldScheduleForNode r (env_reality env)) then
    (Ret None, r, [])
  else
    let '(o, ws) := updateOne_body r node manifest env in
    let r' :=
      match o with
      | Blocked => r
      | _ => set_completedCount (wrap32 (completedCount r + 1)) r
      end in
    (o, r', ws).

(** Whether the transaction of [updateOne] is built and committed under
    [env]: both builders and [CommitWithRetries] succeed. *)
Definition intentCommitted (r : replication) (env : node_env) : bool :=
  match env_setPod env,
        (if 0 <? Z.of_nat (length (podLabels r))
         then env_setLabels env else None),
        env_commit env with
  | None, None, CommitOk => true
  | _, _, _ => false
  end.

(** The goroutine a worker of [Enact] starts for a node, once [updateOne]
    has returned [err]. *)
Definition handleResult (node : NodeName) (err : option error)
    (r : replication) : replication :=
  match err with
  | None => add_log (LogSuccess node (man_ID (GetManifest r))) r
  | Some errTimeout =>
      add_log (LogTimedOut node (man_ID (GetManifest r)))
        (set_timedOut (timedOutReplications r ++ [node]) r)
  | Some errCancelled =>
      add_log (LogCancelled node (man_ID (GetManifest r))) r
  | Some e => add_log (LogUnexpected e) r
  end.

(** One worker going through its nodes in turn, each update and its
    handler ending before the next node is taken, as they do when no
    deadline passes while an update runs.  The third component tells
    whether every update returned. *)
Fixpoint runNodes (envs : NodeName -> node_env) (ns : list NodeName)
    (r : replication) : replication * list intent_write * bool :=
  match ns with
  | [] => (r, [], true)
  | node :: rest =>
      let '(o, r1, ws) := updateOne r node (envs node) in
      match o with
      | Ret err =>
          let '(r2, ws', fin) := runNodes envs rest (handleResult node err r1) in
          (r2, ws ++ ws', fin)
      | _ => (r1, ws, false)
      end
  end.

End Updater.

(** ** Reality queries behind the semaphore ([queryReality])

    Time is counted in milliseconds from the call.  A [select] blocks until
    the first of its cases is ready; when several become ready together Go
    picks one of them, here through the oracle [tie].  [slotAt] is the moment
    from which the send on [concurrentRealityRequests] can proceed ([None]:
    never); the two timers are created afresh by every [select]. *)

Inductive select_case := CaseSlot | CaseFiveSeconds | CaseOneMinute.

#[global] Instance select_case_eq_dec : EqDecision select_case.
Proof. solve_decision. Defined.

Definition fiveSeconds : Z := 5 * 1000.
Definition oneMinute : Z := 60 * 1000.

Definition rateLimitError : error :=
  errOther "Timed out while waiting for reality query rate limit".

(** The cases of the [select] entered at [now], each with the time at which
    it becomes ready. *)
Definition select_cases (now : Z) (slotAt : option Z)
    : list (Z * select_case) :=
  match slotAt with
  | Some t => [(Z.max now t, CaseSlot)]
  | None => []
  end ++ [(now + fiveSeconds, CaseFiveSeconds); (now + oneMinute, CaseOneMinute)].

Definition earliest (cs : list (Z * select_case)) : Z :=
  match map fst cs with
  | [] => 0
  | t :: ts => fold_right Z.min t ts
  end.

(** The cases that are ready the moment the first one is. *)
Definition firstReady (cs : list (Z * select_case)) : list select_case :=
  map snd (filter (fun c => fst c = earliest cs) cs).

Definition chosen (tie : nat) (cs : list (Z * select_case)) : select_case :=
  let ready := firstReady cs in
  nth (tie mod length ready)%nat ready CaseFiveSeconds.

(** [queryReality] run for at most [fuel] iterations of its loop: what it
    returns, if it has returned, and the number of progress lines logged.
    [pod] is the answer of [store.Pod] for the node. *)
Fixpoint queryReality (tie : nat -> nat) (fuel : nat) (now : Z)
    (slotAt : option Z) (pod : reality_result)
    : option reality_result * nat :=
  match fuel with
  | O => (None, O)
  | S fuel' =>
      match chosen (tie fuel') (select_cases now slotAt) with
      | CaseSlot => (Some pod, O)
      | CaseFiveSeconds =>
          let '(res, lines) :=
            queryReality tie fuel' (now + fiveSeconds) slotAt pod in
          (res, S lines)
      | CaseOneMinute => (Some (None, Some rateLimitError), O)
      end
  end.

(** ** Locking ([lock], [lockHosts])

    The store and the session are scripted: the [n]-th call of a method
    gets the [n]-th answer.  The calls made are recorded in order. *)

Inductive lock_answer :=
| LockGranted
| AlreadyLockedError
| LockFailed (e : error).

Inductive call :=
| CallNewSession (name : string)
| CallLock (path : string)
| CallLockHolder (path : string)
| CallDestroyLockHolder (id : string)
| CallSessionDestroy.

#[global] Instance call_eq_dec : EqDecision call.
Proof. solve_decision. Defined.

Record lock_env := mkLockEnv {
  ans_NewSession : option error;
  ans_Lock : nat -> lock_answer;
  ans_LockHolder : nat -> string * string * option error;
  ans_DestroyLockHolder : nat -> option error
}.

(** The errors [lock] builds with [util.Errorf], and errors passed on. *)
Inductive lock_error :=
| ErrHolderUnknown (path : string) (cause : error)
| ErrLockDelay (path : string)
| ErrDestroyFailed (holder path : string) (cause : error)
| ErrAlreadyHeld (path holder : string)
| ErrPassed (e : error).

#[global] Instance lock_error_eq_dec : EqDecision lock_error.
Proof. solve_decision. Defined.

Definition is_CallLock (c : call) : bool :=
  match c with CallLock _ => true | _ => false end.
Definition is_CallLockHolder (c : call) : bool :=
  match c with CallLockHolder _ => true | _ => false end.
Definition is_CallDestroyLockHolder (c : call) : bool :=
  match c with CallDestroyLockHolder _ => true | _ => false end.

Definition count_calls (f : call -> bool) (tr : list call) : nat :=
  length (filter (fun c => f c = true) tr).

(** [lock]: [None] is the nil error, in which case the unlocker is held.
    The only recursive call passes [overrideLock = false]; [fuel] bounds the
    depth, and two levels are all the function can use. *)
Fixpoint lock_rec (fuel : nat) (env : lock_env) (lockPath : string)
    (overrideLock : bool) (tr : list call)
    : option (option lock_error * list call) :=
  match fuel with
  | O => None
  | S fuel' =>
      let answer := ans_Lock env (count_calls is_CallLock tr) in
      let tr := tr ++ [CallLock lockPath] in
      match answer with
      | AlreadyLockedError =>
          let '(holder, id, err) :=
            ans_LockHolder env (count_calls is_CallLockHolder tr) in
          let tr := tr ++ [CallLockHolder lockPath] in
          match err with
          | Some e => Some (Some (ErrHolderUnknown lockPath e), tr)
          | None =>
              if decide (holder = "") then
                Some (Some (ErrLockDelay lockPath), tr)
              else if overrideLock then
                let derr :=
                  ans_DestroyLockHolder env
                    (count_calls is_CallDestroyLockHolder tr) in
                let tr := tr ++ [CallDestroyLockHolder id] in
                match derr with
                | Some e => Some (Some (ErrDestroyFailed holder lockPath e), tr)
                | None => lock_rec fuel' env lockPath false tr
                end
              else
                Some (Some (ErrAlreadyHeld lockPath holder), tr)
          end
      | LockGranted => Some (None, tr)
      | LockFailed e => Some (Some (ErrPassed e), tr)
      end
  end.

Definition lock (env : lock_env) (lockPath : string) (overrideLock : bool)
    (tr : list call) : option (option lock_error * list call) :=
  lock_rec 2 env lockPath overrideLock tr.

(** [consul.ReplicationLockPath] belongs to the store client; only the
    fact that it is a function of the pod id is used. *)
Definition lockHosts (ReplicationLockPath : PodID -> string)
    (env : lock_env) (r : replication) (overrideLock : bool)
    (lockMessage : string) (tr : list call)
    : option (option lock_error * list call) :=
  let tr := tr ++ [CallNewSession lockMessage] in
  match ans_NewSession env with
  | Some e => Some (Some (ErrPassed e), tr)
  | None =>
      let lockPath := ReplicationLockPath (man_ID (GetManifest r)) in
      match lock env lockPath overrideLock tr with
      | None => None
      | Some (Some e, tr') => Some (Some e, tr' ++ [CallSessionDestroy])
      | Some (None, tr') => Some (None, tr')
      end
  end.

(** ** The worker pool of [Enact]

    The goroutines of [Enact] as a labelled transition system.  A worker is
    idle (receiving from the node queue), waiting in its [select] for the
    context of the update it started, or gone.  An update whose worker has
    stopped waiting for it while [updateOne] has not returned is detached. *)

Record job := mkJob {
  job_node : NodeName;
  job_deadline : bool;   (* the context was built by [context.WithTimeout] *)
  job_running : bool;    (* [updateOne] has not returned *)
  job_ctxDone : bool     (* [ctx.Done()] is closed *)
}.

Inductive worker :=
| WIdle
| WWaiting (j : job)
| WExited.

Record pool := mkPool {
  p_queue : list NodeName;
  p_closed : bool;
  p_workers : list worker;
  p_detached : list NodeName;
  p_quit : bool;
  p_timeout : Duration
}.

Inductive label :=
| LTake (i : nat)            (* worker [i] receives a node and starts its update *)
| LQueueClosed (i : nat)     (* worker [i] finds the queue closed and drained *)
| LClose                     (* the queue is closed *)
| LCancelFeed                (* the feeder stops early and closes the queue *)
| LReturn (i : nat)          (* the update worker [i] waits for returns *)
| LDeadline (i : nat)        (* the deadline of that update's context passes *)
| LNext (i : nat)            (* worker [i] sees [ctx.Done()] *)
| LQuit                      (* [quitCh] is closed *)
| LWorkerQuit (i : nat)      (* worker [i] sees [quitCh] and returns *)
| LDetachedReturn (k : nat)  (* a detached update returns *)
| LSetTimeout (d : Duration).

Definition set_workers (ws : list worker) (s : pool) : pool :=
  mkPool (p_queue s) (p_closed s) ws (p_detached s) (p_quit s) (p_timeout s).

Definition detach (j : job) (s : pool) : pool :=
  if job_running j
  then mkPool (p_queue s) (p_closed s) (p_workers s)
         (p_detached s ++ [job_node j]) (p_quit s) (p_timeout s)
  else s.

Definition pool_step (l : label) (s : pool) : option pool :=
  match l with
  | LTake i =>
      match p_workers s !! i, p_queue s with
      | Some WIdle, node :: rest =>
          let j := mkJob node (negb (bool_decide (p_timeout s = NoTimeout)))
                     true false in
          Some (mkPool rest (p_closed s) (<[i := WWaiting j]> (p_workers s))
                  (p_detached s) (p_quit s) (p_timeout s))
      | _, _ => None
      end
  | LQueueClosed i =>
      match p_workers s !! i, p_queue s, p_closed s with
      | Some WIdle, [], true => Some (set_workers (<[i := WExited]> (p_workers s)) s)
      | _, _, _ => None
      end
  | LClose =>
      Some (mkPool (p_queue s) true (p_workers s) (p_detached s) (p_quit s)
              (p_timeout s))
  | LCancelFeed =>
      Some (mkPool [] true (p_workers s) (p_detached s) (p_quit s)
              (p_timeout s))
  | LReturn i =>
      match p_workers s !! i with
      | Some (WWaiting j) =>
          if job_running j then
            Some (set_workers
                    (<[i := WWaiting (mkJob (job_node j) (job_deadline j)
                                        false true)]> (p_workers s)) s)
          else None
      | _ => None
      end
  | LDeadline i =>
      match p_workers s !! i with
      | Some (WWaiting j) =>
          if job_deadline j && negb (job_ctxDone j) then
            Some (set_workers
                    (<[i := WWaiting (mkJob (job_node j) (job_deadline j)
                                        (job_running j) true)]> (p_workers s)) s)
          else None
      | _ => None
      end
  | LNext i =>
      match p_workers s !! i with
      | Some (WWaiting j) =>
          if job_ctxDone j then
            Some (detach j (set_workers (<[i := WIdle]> (p_workers s)) s))
          else None
      | _ => None
      end
  | LQuit =>
      Some (mkPool (p_queue s) (p_closed s) (p_workers s) (p_detached s) true
              (p_timeout s))
  | LWorkerQuit i =>
      match p_workers s !! i with
      | Some (WWaiting j) =>
          if p_quit s then
            Some (detach j (set_workers (<[i := WExited]> (p_workers s)) s))
          else None
      | _ => None
      end
  | LDetachedReturn k =>
      match p_detached s !! k with
      | Some _ =>
          Some (mkPool (p_queue s) (p_closed s) (p_workers s)
                  (take k (p_detached s) ++ drop (S k) (p_detached s))
                  (p_quit s) (p_timeout s))
      | None => None
      end
  | LSetTimeout d =>
      Some (mkPool (p_queue s) (p_closed s) (p_workers s) (p_detached s)
              (p_quit s) d)
  end.

Fixpoint pool_run (ls : list label) (s : pool) : option pool :=
  match ls with
  | [] => Some s
  | l :: rest =>
      match pool_step l s with
      | Some s' => pool_run rest s'
      | None => None
      end
  end.

(** The nodes the workers of [Enact] range over ([nodeQueue := r.nodeQueue;
    if nodeQueue == nil { ... }]): what the caller's queue carries when the
    replication was built with one, and otherwise [r.nodes], in the order
    the sort at the top of [Enact] left them, which the feeder goroutine
    sends one by one. *)
Definition queuedNodes (r : replication) : list NodeName :=
  match nodeQueue r with
  | Some q => q
  | None => nodes r
  end.

(** The pool as [Enact] creates it: [active] idle workers ([for i := 0;
    i < r.active; i++]) and the nodes still to be handed out. *)
Definition pool_init (r : replication) : pool :=
  mkPool (queuedNodes r) false (replicate (Z.to_nat (active r)) WIdle) []
    false (timeout r).

Definition worker_running (w : worker) : nat :=
  match w with
  | WWaiting j => if job_running j then 1 else 0
  | _ => 0
  end.

Definition sum_workers (f : worker -> nat) (ws : list worker) : nat :=
  foldr (fun w n => f w + n)%nat 0%nat ws.

(** Invocations of [updateOne] started and not yet returned. *)
Definition in_flight (s : pool) : nat :=
  (sum_workers worker_running (p_workers s) + length (p_detached s))%nat.

Definition sets_deadline (l : label) : bool :=
  match l with
  | LSetTimeout d => negb (bool_decide (d = NoTimeout))
  | _ => false
  end.

(** ** The rollout orderer ([rolloutOrder], [getRolloutOrder]) *)

Module Rollout.

(** [allocation.Node] and [health.ServiceNodeStatus], with the fields the
    orderer and its test use. *)
Record Node := mkNode {
  Name : string;
  IsMaster : bool
}.

Record ServiceNodeStatus := mkStatus {
  status_Node : string;
  Version : string;
  Healthy : bool
}.

(** The error of [ForNode]: the sentinel [health.NoStatusGiven] or another
    error value. *)
Inductive status_error :=
| NoStatusGiven
| OtherStatusError (msg : string).

#[global] Instance Node_eq_dec : EqDecision Node.
Proof. solve_decision. Defined.

#[global] Instance status_error_eq_dec : EqDecision status_error.
Proof. solve_decision. Defined.

(** [compare]: an [int] with three named values. *)
Definition compare := Z.
Definition lessThan : compare := -1.
Definition equal : compare := 0.
Definition greaterThan : compare := 1.

Definition compare_equal (c : compare) : bool := bool_decide (c = equal).
Definition compare_less (c : compare) : bool := bool_decide (c = lessThan).

Definition compareFromBool (b : bool) : compare :=
  if b then lessThan else greaterThan.

Definition compareErrors (iErr jErr : option status_error) : compare :=
  match iErr, jErr with
  | None, Some _ => greaterThan
  | Some _, None => lessThan
  | None, None => equal
  | Some i, Some j =>
      if bool_decide (i = j) && bool_decide (j = NoStatusGiven) then equal
      else if bool_decide (i = NoStatusGiven)
              && negb (bool_decide (j = NoStatusGiven)) then greaterThan
      else if negb (bool_decide (i = NoStatusGiven))
              && bool_decide (j = NoStatusGiven) then lessThan
      else equal
  end.

(** Go compares strings byte by byte. *)
Definition string_lt (a b : string) : bool := String.ltb a b.

(** [compareHealth] dereferences both status pointers: a nil pointer
    panics ([None]). *)
Definition compareHealth (iNode jNode : Node)
    (iHealth jHealth : option ServiceNodeStatus) : option compare :=
  match iHealth, jHealth with
  | Some ih, Some jh =>
      Some
        (if Healthy ih && negb (Healthy jh) then greaterThan
         else if Healthy ih && Healthy jh
              then compareFromBool (string_lt (Name iNode) (Name jNode))
         else if negb (Healthy ih) && Healthy jh then lessThan
         else if negb (Healthy ih) && negb (Healthy jh)
              then compareFromBool (string_lt (Name iNode) (Name jNode))
         else equal)
  | _, _ => None
  end.

Section Order.

(** [referenceStatus.ForNode], a method of package [health]: it maps a node
    name to a status pointer and an error. *)
Variable ForNode : string -> option ServiceNodeStatus * option status_error.

(** [Less] on the two nodes found at the indices. *)
Definition Less (iNode jNode : Node) : option bool :=
  let '(iHealth, iErr) := ForNode (Name iNode) in
  let '(jHealth, jErr) := ForNode (Name jNode) in
  let comp := compareErrors iErr jErr in
  if negb (compare_equal comp) then Some (compare_less comp)
  else
    match compareHealth iNode jNode iHealth jHealth with
    | None => None
    | Some comp =>
        if negb (compare_equal comp) then Some (compare_less comp)
        else Some false
    end.

(** [sort.Sort] on a slice of fewer than seven elements is the library's
    [insertionSort]: element [i] moves left while it is [Less] than its
    left neighbour.  [sorted] is the prefix already in order, last
    element first. *)
Fixpoint insertLeft (x : Node) (sorted : list Node) : option (list Node) :=
  match sorted with
  | [] => Some [x]
  | y :: ys =>
      match Less x y with
      | None => None
      | Some true =>
          match insertLeft x ys with
          | Some zs => Some (y :: zs)
          | None => None
          end
      | Some false => Some (x :: y :: ys)
      end
  end.

Fixpoint insertionSort (sorted todo : list Node) : option (list Node) :=
  match todo with
  | [] => Some (rev sorted)
  | x :: rest =>
      match insertLeft x sorted with
      | Some sorted' => insertionSort sorted' rest
      | None => None
      end
  end.

(** [getRolloutOrder]: the nodes in the order they are put on the
    channel. *)
Definition getRolloutOrder (allocNodes : list Node) : option (list Node) :=
  insertionSort [] allocNodes.

End Order.

End Rollout.

(** ** The aggregator's watcher and constructor

    [AggregateHealth] and [beginWatch] as a transition system over the
    aggregator: the watcher goroutine receives snapshots until the result
    channel is closed or it sees [quit]; the constructor waits on the
    condition until the stored map is not nil. *)

Inductive watcher_state := Watching | WatcherExited.
Inductive ctor_state := CtorWaiting | CtorReturned.

Record aggregator := mkAggregator {
  ag_health : podHealth;
  ag_watcher : watcher_state;
  ag_ctor : ctor_state
}.

Inductive agg_event :=
| AEmit (res : option (gmap NodeName Result))  (* a receive from [resultCh] *)
| AResultClosed                                (* [resultCh] is closed *)
| AQuitSeen                                    (* the watcher's [<-p.quit] fires *)
| AStop                                        (* a call of [Stop] *)
| ACtorWake.                                   (* the constructor tests its loop condition *)

Definition set_curHealth (m : option (gmap NodeName Result)) (p : podHealth)
    : podHealth :=
  mkPodHealth (podId p) (quit p) m.

(** The deferred function of [beginWatch]. *)
Definition unblockAggregateHealth (p : podHealth) : podHealth :=
  match curHealth p with
  | None => set_curHealth (Some ∅) p
  | Some _ => p
  end.

Definition agg_step (e : agg_event) (a : aggregator) : option aggregator :=
  match e with
  | AEmit res =>
      match ag_watcher a with
      | Watching =>
          Some (mkAggregator (set_curHealth res (ag_health a)) Watching (ag_ctor a))
      | WatcherExited => None
      end
  | AResultClosed =>
      match ag_watcher a with
      | Watching =>
          Some (mkAggregator (unblockAggregateHealth (ag_health a))
                  WatcherExited (ag_ctor a))
      | WatcherExited => None
      end
  | AQuitSeen =>
      match ag_watcher a, quit (ag_health a) with
      | Watching, ChClosed =>
          Some (mkAggregator (unblockAggregateHealth (ag_health a))
                  WatcherExited (ag_ctor a))
      | _, _ => None
      end
  | AStop =>
      match Stop (ag_health a) with
      | Some p => Some (mkAggregator p (ag_watcher a) (ag_ctor a))
      | None => None
      end
  | ACtorWake =>
      match ag_ctor a, curHealth (ag_health a) with
      | CtorWaiting, Some _ =>
          Some (mkAggregator (ag_health a) (ag_watcher a) CtorReturned)
      | CtorWaiting, None => Some a
      | CtorReturned, _ => None
      end
  end.

Fixpoint agg_run (es : list agg_event) (a : aggregator) : option aggregator :=
  match es with
  | [] => Some a
  | e :: rest =>
      match agg_step e a with
      | Some a' => agg_run rest a'
      | None => None
      end
  end.

(** The aggregator when [AggregateHealth] starts to wait. *)
Definition AggregateHealth_init (id : PodID) : aggregator :=
  mkAggregator (mkPodHealth id ChOpen None) Watching CtorWaiting.

Definition emits_nil (e : agg_event) : bool :=
  match e with
  | AEmit None => true
  | _ => false
  end.

Definition is_emit (e : agg_event) : bool :=
  match e with
  | AEmit _ => true
  | _ => false
  end.

(** ** Predicates of the statements and sample values *)

(** The reality of a node already matches the target of [r]: the query
    succeeded, both hashes could be computed, and they are equal. *)
Definition realityMatches (r : replication) (q : reality_result) : Prop :=
  exists m, q = (Some m, None) /\ man_SHA_err m = false /\
            man_SHA_err (manifest r) = false /\
            man_SHA m = man_SHA (manifest r).

(** The status [ensureHealthy] compares for a node. *)
Definition polledStatus (agg : podHealth) (node : NodeName) : HealthState :=
  res_Status (fst (GetHealth agg node)).

(** A node has no entry in the aggregator's map. *)
Definition missingFrom (agg : podHealth) (node : NodeName) : Prop :=
  snd (GetHealth agg node) = false.

(** Modelled from the spec: [health.Compare], of package [health], as the
    difference of ranks in the order [Unknown < Critical <
    Warning < Passing], the zero state ranked with [Critical] as the spec
    words it for missing entries.  It only serves as an instance of the
    comparison the updater is modelled over. *)
Definition healthRank (s : HealthState) : Z :=
  if decide (s = Passing) then 3
  else if decide (s = Warning) then 2
  else if decide (s = Unknown) then 0
  else 1.

Definition specCompare (a b : HealthState) : Z := healthRank a - healthRank b.

Definition manifestV1 : Manifest := mkManifest "web" "sha-v1" false.
Definition manifestV2 : Manifest := mkManifest "web" "sha-v2" false.

Definition replicationOf (active : Z) (nodes : list NodeName)
    (timeout : Duration) (queue : option (list NodeName)) : replication :=
  mkReplication active nodes 0 manifestV2 "" [] timeout [] queue
    ChOpen ChOpen [] [].

Definition healthOf (l : list (NodeName * HealthState)) : podHealth :=
  mkPodHealth "web" ChOpen
    (Some (list_to_map (map (fun '(n, s) => (n, mkResult "check" n "web" s)) l))).

(** A node whose reality already holds the target, and one still on the
    previous version that then picks the target up and turns healthy. *)
Definition envCurrent : node_env :=
  mkNodeEnv (Some manifestV2, None) None None CommitOk [] [].

Definition envStale (node : NodeName) : node_env :=
  mkNodeEnv (Some manifestV1, None) None None CommitOk
    [EvTick (Some manifestV1, None); EvTick (Some manifestV2, None)]
    [EvTick (healthOf [(node, Critical)]); EvTick (healthOf [(node, Passing)])].

(** A node on which the intent transaction cannot be built. *)
Definition envBuildFails : node_env :=
  mkNodeEnv (None, Some NoCurrentManifest) (Some (errOther "cannot build"))
    None CommitOk [] [].

(** The nodes of a run the updater sets out to schedule, and those among
    them whose transaction is built and committed. *)
Definition scheduledOn (envs : NodeName -> node_env) (r : replication)
    (n : NodeName) : Prop :=
  shouldScheduleForNode r (env_reality (envs n)) = true.

Definition committedOn (envs : NodeName -> node_env) (r : replication)
    (n : NodeName) : Prop :=
  shouldScheduleForNode r (env_reality (envs n)) = true /\
  intentCommitted r (envs n) = true.

#[global] Instance scheduledOn_dec envs r n : Decision (scheduledOn envs r n).
Proof. unfold scheduledOn. apply _. Defined.

#[global] Instance committedOn_dec envs r n : Decision (committedOn envs r n).
Proof. unfold committedOn. apply _. Defined.

(** A node with nothing installed whose reality shows [m'] on the first
    tick of [ensureInReality]; [quitCh] is closed before the second, and the
    context is done when the wait for health starts. *)
Definition envAwaits (m' : Manifest) : node_env :=
  mkNodeEnv (None, Some NoCurrentManifest) None None CommitOk
    [EvTick (Some m', None); EvQuit] [EvCtxDone].

(** A node on which the commit gives up. *)
Definition envCommitFails : node_env :=
  mkNodeEnv (None, Some NoCurrentManifest) None None
    (CommitErr (errOther "context deadline exceeded")) [] [].

Definition sampleEnvs (node : NodeName) : node_env :=
  if decide (node = "a") then envCurrent else envStale node.

(** Three nodes: "a" is current, "b" is updated, and on "c" the intent
    transaction cannot be built. *)
Definition countEnvs (node : NodeName) : node_env :=
  if decide (node = "a") then envCurrent
  else if decide (node = "b") then envStale node
  else envBuildFails.

(** The measure and the invariant of the pool argument. *)
Definition worker_occupied (w : worker) : nat :=
  match w with
  | WIdle => 0
  | WWaiting j => if job_ctxDone j then 0 else 1
  | WExited => 1
  end.

(** Without a deadline the context of an update is done only once the
    update has returned. *)
Definition worker_ok (w : worker) : Prop :=
  match w with
  | WWaiting j =>
      job_deadline j = false /\ (job_ctxDone j = true -> job_running j = false)
  | _ => True
  end.

Definition pool_inv (s : pool) : Prop :=
  p_timeout s = NoTimeout /\
  Forall worker_ok (p_workers s) /\
  (in_flight s <= sum_workers worker_occupied (p_workers s))%nat.

(** A store on which the lock is held by another session when first asked
    for, and free once that session is destroyed. *)
Definition lockHeldOnce : lock_env :=
  mkLockEnv None
    (fun n => match n with O => AlreadyLockedError | S _ => LockGranted end)
    (fun _ => ("session-7", "id-7", None))
    (fun _ => None).

(** Two nodes for the orderer: [nodeA] reported unhealthy, [nodeB] without
    a status. *)
Definition nodeA : Rollout.Node := Rollout.mkNode "a" false.
Definition nodeB : Rollout.Node := Rollout.mkNode "b" false.

Definition statusOnlyA (name : string)
    : option Rollout.ServiceNodeStatus * option Rollout.status_error :=
  if decide (name = "a")
  then (Some (Rollout.mkStatus "a" "abc123" false), None)
  else (None, Some Rollout.NoStatusGiven).

(** The test in the loop of [numOfHealth], on a stored map [m]: the host
    has an entry and its status is [status]. *)
Definition hostHasStatus (m : gmap NodeName Result) (status : HealthState)
    (host : NodeName) : bool :=
  match m !! host with
  | Some h => bool_decide (res_Status h = status)
  | None => false
  end.

(** The watcher has exited only with a map stored. *)
Definition exited_ok (a : aggregator) : Prop :=
  ag_watcher a = WatcherExited -> curHealth (ag_health a) <> None.

(** The aggregator as long as no snapshot has been received: nothing is
    stored while the watcher runs, and the empty map once it has exited. *)
Definition agg_unseen (a : aggregator) : Prop :=
  (ag_watcher a = Watching /\ curHealth (ag_health a) = None) \/
  (ag_watcher a = WatcherExited /\ curHealth (ag_health a) = Some ∅).

(** The constructor has returned only with a map stored. *)
Definition ctor_ok (a : aggregator) : Prop :=
  ag_ctor a = CtorReturned -> curHealth (ag_health a) <> None.

(** ** Further operations of the controller *)

(** [SetTimeout] and [InProgress]. *)
Definition SetTimeout (d : Duration) (r : replication) : replication :=
  mkReplication (active r) (nodes r) (completedCount r) (manifest r)
    (threshold r) (podLabels r) d (timedOutReplications r) (nodeQueue r)
    (replicationCancelledCh r) (quitCh r) (errCh r) (log r).

Definition InProgress (r : replication) : bool :=
  match quitCh r with
  | ChClosed => false
  | ChOpen => true
  end.

(** [replicationError] and the dynamic type of a value sent on [errCh]: a
    [replicationError] or any other error. *)
Record replicationError := mkReplicationError {
  re_err : option error;
  isFatal : bool
}.

Inductive sent_error :=
| PlainError (e : error)
| ReplicationError (re : replicationError).

#[global] Instance replicationError_eq_dec : EqDecision replicationError.
Proof. solve_decision. Defined.

#[global] Instance sent_error_eq_dec : EqDecision sent_error.
Proof. solve_decision. Defined.

Definition IsFatalError (err : sent_error) : bool :=
  match err with
  | ReplicationError replErr => isFatal replErr
  | PlainError _ => false
  end.

(** [checkForManaged].  [GetLabels] answers a pod key with a label set and
    an error; [pathJoin] is [path.Join] and [RCIDLabel] the label that marks
    a pod as managed by a controller. *)
Definition managedMessage (badNodes : list NodeName) : string :=
  "cannot replicate to nodes already manged by a controller: "
  +:+ String.concat ", " badNodes.

Section CheckForManaged.

Variable pathJoin : string -> string -> string.
Variable RCIDLabel : string.
Variable GetLabels : string -> gmap string string * option error.

Definition Has (labels : gmap string string) (key : string) : bool :=
  bool_decide (is_Some (labels !! key)).

(** The loop over [r.nodes]: the first lookup error ends it; otherwise the
    nodes that carry the label are collected in order. *)
Fixpoint managedNodes (id : PodID) (ns : list NodeName)
    (badNodes : list NodeName) : error + list NodeName :=
  match ns with
  | [] => inr badNodes
  | node :: rest =>
      let podID := pathJoin node id in
      let '(labels, err) := GetLabels podID in
      match err with
      | Some e => inl e
      | None =>
          managedNodes id rest
            (if Has labels RCIDLabel then badNodes ++ [node] else badNodes)
      end
  end.

Definition checkForManaged (r : replication) : option error :=
  match managedNodes (man_ID (GetManifest r)) (nodes r) [] with
  | inl e => Some e
  | inr badNodes =>
      if 0 <? Z.of_nat (length badNodes)
      then Some (errOther (managedMessage badNodes))
      else None
  end.

(** A node's pod is managed by a controller. *)
Definition isManaged (id : PodID) (node : NodeName) : bool :=
  Has (fst (GetLabels (pathJoin node id))) RCIDLabel.

Definition lookupFails (id : PodID) (node : NodeName) : Prop :=
  snd (GetLabels (pathJoin node id)) <> None.

End CheckForManaged.

(** [handleReplicationEnd]: what ended the replication, and the effects of
    the handler in the order they happen when none of them blocks for ever
    (the send on [errCh] waits for a receiver, the wait for [Enact] for its
    return).  The receive from the renewal channel yields an error value,
    nil if the channel was closed. *)
Inductive end_cause :=
| EndDone
| EndCancelled (enacted : bool)   (* [enactedCh != nil]: [Enact] was started *)
| EndRenewalErr (err : option error).

Inductive end_effect :=
| EffLog (msg : string)
| EffWaitEnacted
| EffSendErr (e : sent_error)
| EffCloseQuit
| EffCloseErrCh
| EffStopRateLimiter
| EffDestroySession.

#[global] Instance end_effect_eq_dec : EqDecision end_effect.
Proof. solve_decision. Defined.

Definition handleReplicationEnd (hasRateLimiter hasSession : bool)
    (cause : end_cause) : list end_effect :=
  let body :=
    match cause with
    | EndDone => [EffLog "Replication completed successfully"]
    | EndCancelled enacted =>
        EffLog "Replication was canceled"
        :: (if enacted then [EffWaitEnacted] else [])
    | EndRenewalErr err =>
        [EffLog "Replication session was lost";
         EffSendErr (ReplicationError (mkReplicationError err true))]
    end in
  let deferred :=
    [EffCloseQuit; EffCloseErrCh]
    ++ (if hasRateLimiter then [EffStopRateLimiter] else [])
    ++ (if hasSession then [EffDestroySession] else []) in
  body ++ deferred.

(** The failure path at the start of [Enact]: the error of
    [health.Service], wrapped, is offered on [errCh] unless [quitCh] fires
    first. *)
Definition Enact_healthFailure (err : error) (quitFirst : bool)
    : list end_effect :=
  if quitFirst then []
  else [EffSendErr (ReplicationError (mkReplicationError (Some err) true))].

(** The values sent on [errCh] by a list of effects. *)
Definition sentErrors (effs : list end_effect) : list sent_error :=
  omap (fun e => match e with EffSendErr v => Some v | _ => None end) effs.

(** The nodes handed to workers along a run of the pool, in the order they
    were handed out. *)
Fixpoint pool_taken (ls : list label) (s : pool) : list NodeName :=
  match ls with
  | [] => []
  | l :: rest =>
      match pool_step l s with
      | None => []
      | Some s' =>
          match l, p_queue s with
          | LTake _, node :: _ => node :: pool_taken rest s'
          | _, _ => pool_taken rest s'
          end
      end
  end.

Definition worker_waiting (w : worker) : nat :=
  match w with
  | WWaiting _ => 1
  | _ => 0
  end.

Definition is_cancelFeed (l : label) : bool :=
  match l with
  | LCancelFeed => true
  | _ => false
  end.

(** A tick of [ensureInReality] after which the loop goes on waiting: the
    query failed, or it reported another hash than the target. *)
Definition keepsWaiting (targetSHA : string) (q : reality_result) : bool :=
  match q with
  | (_, Some _) => true
  | (Some m, None) => negb (bool_decide (man_SHA m = targetSHA))
  | (None, None) => false
  end.

Definition isSentinel (e : error) : bool :=
  match e with
  | errQuit | errTimeout | errCancelled => true
  | _ => false
  end.

Definition is_CallNewSession (c : call) : bool :=
  match c with CallNewSession _ => true | _ => false end.
Definition is_CallSessionDestroy (c : call) : bool :=
  match c with CallSessionDestroy => true | _ => false end.

(** The calls [lock] itself makes. *)
Definition isLockCall (c : call) : bool :=
  is_CallLock c || is_CallLockHolder c || is_CallDestroyLockHolder c.

(** A store whose holder cannot be destroyed, and one on which the lock is
    free. *)
Definition lockHolderStays : lock_env :=
  mkLockEnv None (fun _ => AlreadyLockedError)
    (fun _ => ("session-7", "id-7", None))
    (fun _ => Some (errOther "permission denied")).

Definition lockFree : lock_env :=
  mkLockEnv None (fun _ => LockGranted) (fun _ => ("", "", None))
    (fun _ => None).

Definition is_deadline (l : label) : bool :=
  match l with
  | LDeadline _ => true
  | _ => false
  end.

(** The deadlines that passed along a run. *)
Definition deadlinesPassed (ls : list label) : nat :=
  length (filter (fun l => is_deadline l = true) ls).

(** A labeler for which the pods of ["b"] and ["d"] are managed by a
    controller, and one that also fails on the pod of ["c"]. *)
Definition samplePathJoin (a b : string) : string := a +:+ "/" +:+ b.

Definition labelsBD (podID : string) : gmap string string * option error :=
  if decide (podID = "b/web") then ({["replication_controller_id" := "rc-1"]}, None)
  else if decide (podID = "d/web") then ({["replication_controller_id" := "rc-2"]}, None)
  else (∅, None).

Definition labelsFailC (podID : string) : gmap string string * option error :=
  if decide (podID = "c/web") then (∅, Some (errOther "labels unavailable"))
  else labelsBD podID.

Definition is_send (e : end_effect) : bool :=
  match e with
  | EffSendErr _ => true
  | _ => false
  end.

(** ** Predicates on the rollout order *)

(** The status lookup succeeds for a node. *)
Definition hasStatus
    (ForNode : string -> option Rollout.ServiceNodeStatus * option Rollout.status_error)
    (n : Rollout.Node) : Prop :=
  exists st, ForNode (Rollout.Name n) = (Some st, None).

(** The health reported for a node, [false] when there is no status. *)
Definition healthyOf
    (ForNode : string -> option Rollout.ServiceNodeStatus * option Rollout.status_error)
    (n : Rollout.Node) : bool :=
  match fst (ForNode (Rollout.Name n)) with
  | Some st => Rollout.Healthy st
  | None => false
  end.

(** Unhealthy before healthy, and by name within the same health. *)
Definition keyLt
    (ForNode : string -> option Rollout.ServiceNodeStatus * option Rollout.status_error)
    (i j : Rollout.Node) : bool :=
  (negb (healthyOf ForNode i) && healthyOf ForNode j)
  || (eqb (healthyOf ForNode i) (healthyOf ForNode j)
      && Rollout.string_lt (Rollout.Name i) (Rollout.Name j)).

(** A later node never has to come before an earlier one. *)
Definition inRolloutOrder
    (ForNode : string -> option Rollout.ServiceNodeStatus * option Rollout.status_error)
    (l : list Rollout.Node) : Prop :=
  StronglySorted (fun x y => Rollout.Less ForNode y x = Some false) l.

(** A snapshot that reports [nodeA] and ["c"] unhealthy and every other
    node healthy, and one that has no status for any node. *)
Definition statusAll (name : string)
    : option Rollout.ServiceNodeStatus * option Rollout.status_error :=
  (Some (Rollout.mkStatus name "abc123"
           (negb (bool_decide (name = "a") || bool_decide (name = "c")))), None).

Definition statusAllHealthy (name : string)
    : option Rollout.ServiceNodeStatus * option Rollout.status_error :=
  (Some (Rollout.mkStatus name "abc123" true), None).

Definition statusNone (name : string)
    : option Rollout.ServiceNodeStatus * option Rollout.status_error :=
  (None, Some Rollout.NoStatusGiven).

(** The status lookup gives a nil pointer and [NoStatusGiven]. *)
Definition noStatus
    (ForNode : string -> option Rollout.ServiceNodeStatus * option Rollout.status_error)
    (n : Rollout.Node) : Prop :=
  ForNode (Rollout.Name n) = (None, Some Rollout.NoStatusGiven).

(** A snapshot with a status for every node but ["x"] and ["y"]. *)
Definition statusButXY (name : string)
    : option Rollout.ServiceNodeStatus * option Rollout.status_error :=
  if bool_decide (name = "x") || bool_decide (name = "y")
  then (None, Some Rollout.NoStatusGiven)
  else statusAll name.

(** ** The authorization policies ([auth_policy.go]) *)

Module Auth.

#[global] Instance byte_eq_dec : EqDecision Byte.byte := Byte.byte_eq_dec.

(** A pgp entity as the policies use it: the fingerprint of its primary key
    and its identities, name and e-mail address, in the order a [range]
    over the identity map visits them. *)
Record Entity := mkEntity {
  Fingerprint : list Byte.byte;
  Identities : list (string * string)
}.

(** What [openpgp.CheckDetachedSignature] answers: a signer, the error
    [ErrUnknownIssuer], or another error. *)
Inductive pgp_result :=
| PgpOk (signer : Entity)
| PgpUnknownIssuer
| PgpError (msg : string).

(** The packet [packet.Read] finds at the head of a signature. *)
Inductive packet :=
| PktSignature (IssuerKeyId : option Z)
| PktSignatureV3 (IssuerKeyId : Z)
| PktOther.

(** Why a signature could not be validated. *)
Inductive cause :=
| CausePgp (msg : string)
| CauseRead (msg : string)
| CauseNoIssuer          (* "signature doesn't have an issuer" *)
| CauseNonSignature.     (* "non signature packet found" *)

(** [auth.Error], by the message it was built with. *)
Inductive Error :=
| ErrUnsignedExpected                      (* "received unsigned manifest (expected signature)" *)
| ErrUnsigned                              (* "received unsigned manifest" *)
| ErrValidating (c : cause)                (* "error validating signature: %s" *)
| ErrUnknownSigner (keyId : Z)             (* "unknown signer: %X" *)
| ErrSignerNotAuthorized (pod : PodID) (signer_key : string)
| ErrUserNotAuthorized (lastIdName : string).

#[global] Instance cause_eq_dec : EqDecision cause.
Proof. solve_decision. Defined.

#[global] Instance Error_eq_dec : EqDecision Error.
Proof. solve_decision. Defined.

(** [auth.Manifest]: the accessors the policies read.  A nil signature is
    [None]. *)
Record Manifest := mkManifest {
  ID : PodID;
  RunAsUser : string;
  plaintext : list Byte.byte;
  signature : option (list Byte.byte)
}.

Definition SignatureData (m : Manifest) : list Byte.byte * option (list Byte.byte) :=
  (plaintext m, signature m).

(** [fmt.Sprintf("%X", fingerprint)]: two upper-case hexadecimal digits per
    byte. *)
Definition hexDigit (n : N) : Ascii.ascii :=
  default Ascii.zero (String.get (N.to_nat n) "0123456789ABCDEF").

Definition hexByte (b : Byte.byte) : string :=
  String (hexDigit (Byte.to_N b / 16))
    (String (hexDigit (Byte.to_N b mod 16)) "").

Definition formatX (bs : list Byte.byte) : string :=
  String.concat "" (map hexByte bs).

Section Policies.

Variable Keyring : Type.
Variable CheckDetachedSignature : Keyring -> list Byte.byte -> list Byte.byte -> pgp_result.
Variable packetRead : list Byte.byte -> packet + string.

Definition signerKeyId (sig : list Byte.byte) : Z * option cause :=
  match packetRead sig with
  | inr err => (0, Some (CauseRead err))
  | inl (PktSignature None) => (0, Some CauseNoIssuer)
  | inl (PktSignature (Some keyId)) => (keyId, None)
  | inl (PktSignatureV3 keyId) => (keyId, None)
  | inl PktOther => (0, Some CauseNonSignature)
  end.

Definition checkDetachedSignature (keyring : Keyring)
    (signed sig : list Byte.byte) : Entity + Error :=
  match CheckDetachedSignature keyring signed sig with
  | PgpUnknownIssuer =>
      let '(keyId, err) := signerKeyId sig in
      match err with
      | Some c => inr (ErrValidating c)
      | None => inr (ErrUnknownSigner keyId)
      end
  | PgpError msg => inr (ErrValidating (CausePgp msg))
  | PgpOk signer => inl signer
  end.

(** [FixedKeyringPolicy]. *)
Record FixedKeyringPolicy := mkFixedKeyringPolicy {
  fk_Keyring : Keyring;
  AuthorizedDeployers : gmap PodID (list string)
}.

(** [p.AuthorizedDeployers[id]]: the nil slice for a missing key. *)
Definition deployersOf (p : FixedKeyringPolicy) (id : PodID) : list string :=
  default [] (AuthorizedDeployers p !! id).

Definition FixedKeyring_AuthorizeApp (p : FixedKeyringPolicy)
    (manifest : Manifest) : option Error :=
  let '(plaintext, signature) := SignatureData manifest in
  match signature with
  | None => Some ErrUnsignedExpected
  | Some sig =>
      match checkDetachedSignature (fk_Keyring p) plaintext sig with
      | inr err => Some err
      | inl signer =>
          let signerId := formatX (Fingerprint signer) in
          if 0 <? Z.of_nat (length (deployersOf p (ID manifest))) then
            if existsb (fun deployerId => bool_decide (deployerId = signerId))
                 (deployersOf p (ID manifest))
            then None
            else Some (ErrSignerNotAuthorized (ID manifest) signerId)
          else None
      end
  end.

Definition FixedKeyring_AuthorizeHook (p : FixedKeyringPolicy)
    (manifest : Manifest) : option Error :=
  FixedKeyring_AuthorizeApp p manifest.

(** [CheckDigest] on the signature data of a digest. *)
Definition FixedKeyring_CheckDigest (p : FixedKeyringPolicy)
    (plaintext : list Byte.byte) (signature : option (list Byte.byte)) : option Error :=
  match signature with
  | None => None
  | Some sig =>
      match checkDetachedSignature (fk_Keyring p) plaintext sig with
      | inr err => Some err
      | inl _ => None
      end
  end.

(** [DeployPol] and [RawDeployPol]. *)
Record DeployPol := mkDeployPol {
  Groups : gmap string (gmap string bool);
  Apps : gmap string (list string)
}.

Record RawDeployPol := mkRawDeployPol {
  raw_Groups : gmap string (list string);
  raw_Apps : gmap string (list string)
}.

(** The part of [LoadDeployPol] after the file is parsed: each list of
    users becomes a set. *)
Definition userSetOf (userList : list string) : gmap string bool :=
  foldl (fun userSet user => <[user := true]> userSet) ∅ userList.

Definition deployPolOfRaw (rawDp : RawDeployPol) : DeployPol :=
  mkDeployPol (userSetOf <$> raw_Groups rawDp) (raw_Apps rawDp).

(** [dp.Groups[group][email]]: [false] for a missing group or address. *)
Definition inGroup (dp : DeployPol) (group email : string) : bool :=
  match Groups dp !! group with
  | Some userSet => default false (userSet !! email)
  | None => false
  end.

Definition Authorized (dp : DeployPol) (appUser email : string) : bool :=
  existsb (fun group => inGroup dp group email)
    (default [] (Apps dp !! appUser)).

(** [UserPolicy], with the keyring and the deploy policy its watchers
    deliver. *)
Record UserPolicy := mkUserPolicy {
  up_keyring : Keyring;
  up_dpol : DeployPol;
  preparerApp : PodID;
  preparerUser : string
}.

(** The loop of [AuthorizePod] over the signer's identities: nil as soon as
    one is authorized, else the name seen last. *)
Fixpoint authorizeIdentities (dpol : DeployPol) (podUser : string)
    (ids : list (string * string)) (lastIdName : string) : option Error :=
  match ids with
  | [] => Some (ErrUserNotAuthorized lastIdName)
  | (name, email) :: rest =>
      if Authorized dpol podUser email then None
      else authorizeIdentities dpol podUser rest name
  end.

Definition AuthorizePod (p : UserPolicy) (podUser : string)
    (plaintext : list Byte.byte) (signature : option (list Byte.byte)) : option Error :=
  match signature with
  | None => Some ErrUnsigned
  | Some sig =>
      match checkDetachedSignature (up_keyring p) plaintext sig with
      | inr err => Some err
      | inl signer =>
          authorizeIdentities (up_dpol p) podUser (Identities signer)
            "(unknown)"
      end
  end.

Definition User_AuthorizeApp (p : UserPolicy) (manifest : Manifest)
    : option Error :=
  let user :=
    if decide (ID manifest = preparerApp p) then preparerUser p
    else RunAsUser manifest in
  AuthorizePod p user (plaintext manifest) (signature manifest).

Definition User_AuthorizeHook (p : UserPolicy) (manifest : Manifest)
    : option Error :=
  AuthorizePod p (preparerUser p) (plaintext manifest) (signature manifest).

Definition User_CheckDigest (p : UserPolicy)
    (plaintext : list Byte.byte) (signature : option (list Byte.byte)) : option Error :=
  FixedKeyring_CheckDigest (mkFixedKeyringPolicy (up_keyring p) ∅)
    plaintext signature.

End Policies.

(** The policy file of the source's example: teams and the app users they
    may deploy as. *)
Definition examplePolicy : RawDeployPol :=
  mkRawDeployPol
    (list_to_map [("teamA", ["alice@my.org"; "bob@my.org"]);
                  ("admins", ["carol@my.org"])])
    (list_to_map [("web", ["teamA"; "admins"]); ("db", ["admins"])]).

(** A keyring that knows one signer, whose signatures are the bytes "A". *)
Definition alice : Entity :=
  mkEntity [Byte.xde; Byte.xad; Byte.xbe; Byte.xef] [("Alice", "alice@my.org")].

Definition knowsAlice (_ : unit) (signed sig : list Byte.byte) : pgp_result :=
  if decide (sig = [Byte.x41]) then PgpOk alice else PgpUnknownIssuer.

Definition readNothing (_ : list Byte.byte) : packet + string :=
  inl (PktSignatureV3 7).

End Auth.

(** Worker [i] stops waiting for its update. *)
Definition releases (i : nat) (l : label) : bool :=
  match l with
  | LNext k | LWorkerQuit k => bool_decide (k = i)
  | _ => false
  end.

(** Worker [i] waits for an update whose context has no deadline. *)
Definition waitsWithoutDeadline (i : nat) (s : pool) : Prop :=
  exists j, p_workers s !! i = Some (WWaiting j) /\ job_deadline j = false.

(* ================================================================= *)
(** * Properties *)

(** ** int32 arithmetic *)

Lemma wrap32_id z : is_int32 z -> wrap32 z = z.
Proof.
  unfold is_int32, wrap32. intros H.
  rewrite Z.mod_small; lia.
Qed.

Lemma wrap32_range z : is_int32 (wrap32 z).
Proof.
  unfold is_int32, wrap32.
  pose proof (Z.mod_pos_bound (z + 2 ^ 31) (2 ^ 32) ltac:(lia)). lia.
Qed.

Lemma wrap32_add_l a b : wrap32 (wrap32 a + b) = wrap32 (a + b).
Proof.
  unfold wrap32. f_equal.
  replace ((a + 2 ^ 31) mod 2 ^ 32 - 2 ^ 31 + b + 2 ^ 31)
    with ((a + 2 ^ 31) mod 2 ^ 32 + b) by lia.
  rewrite Zplus_mod_idemp_l. f_equal. lia.
Qed.

(** ** SetManifest and Cancel *)

(** C1. [SetManifest m] stores [m]; the counter is reset to zero when the
    hash of [m] differs from the hash of the manifest stored before and is
    kept otherwise.  [GetManifest] then returns [m], and an update started
    afterwards works with [m]: the intent writes it carries out are writes
    of [m], and once the transaction is committed it is the hash of [m] the
    wait for reality compares against.  In particular, on a node whose
    reality shows [m'] on the first tick and on which [quitCh] is closed
    before the second, the update gets past the wait for reality exactly
    when [m'] has the hash of [m]. *)
Theorem SetManifest_swaps_and_resets (Compare : HealthState -> HealthState -> Z)
    (m : Manifest) (r : replication) (node : NodeName) (env : node_env) :
  GetManifest (SetManifest m r) = m /\
  CompletedCount (SetManifest m r) =
    (if decide (man_SHA (GetManifest r) = man_SHA m)
     then CompletedCount r else 0) /\
  Forall (fun w => w = (node, m))
    (snd (updateOne Compare (SetManifest m r) node env)) /\
  (shouldScheduleForNode (SetManifest m r) (env_reality env) = true ->
   intentCommitted (SetManifest m r) env = true ->
   snd (updateOne Compare (SetManifest m r) node env) = [(node, m)] /\
   fst (fst (updateOne Compare (SetManifest m r) node env)) =
     match ensureInReality (man_SHA m) (env_inReality env) with
     | Ret None =>
         ensureHealthy Compare (threshold r) node (env_healthy env)
     | o => o
     end) /\
  (forall m',
     shouldScheduleForNode (SetManifest m r) (env_reality env) = true ->
     intentCommitted (SetManifest m r) env = true ->
     env_inReality env = [EvTick (Some m', None); EvQuit] ->
     env_healthy env = [EvCtxDone] ->
     fst (fst (updateOne Compare (SetManifest m r) node env)) =
       (if decide (man_SHA m' = man_SHA m)
        then Ret (Some errTimeout) else Ret (Some errQuit))).
Proof.
  assert (Hrun :
    shouldScheduleForNode (SetManifest m r) (env_reality env) = true ->
    intentCommitted (SetManifest m r) env = true ->
    updateOne_body Compare (SetManifest m r) node m env =
      (match ensureInReality (man_SHA m) (env_inReality env) with
       | Ret None =>
           ensureHealthy Compare (threshold r) node (env_healthy env)
       | o => o
       end, [(node, m)])).
  { intros _ Hc. unfold intentCommitted in Hc. unfold updateOne_body.
    destruct (env_setPod env); [discriminate|].
    destruct (if 0 <? Z.of_nat (length (podLabels (SetManifest m r)))
              then env_setLabels env else None); [discriminate|].
    destruct (env_commit env); try discriminate.
    replace (threshold (SetManifest m r)) with (threshold r);
      [reflexivity|].
    unfold SetManifest.
    destruct (decide (man_SHA (manifest r) = man_SHA m)); reflexivity. }
  split; [reflexivity|]. split.
  { unfold SetManifest, CompletedCount, GetManifest.
    destruct (decide (man_SHA (manifest r) = man_SHA m)); reflexivity. }
  split.
  { unfold updateOne.
    destruct (negb _); [constructor|].
    change (GetManifest (SetManifest m r)) with m.
    unfold updateOne_body.
    destruct (env_setPod env); [constructor|].
    destruct (if 0 <? Z.of_nat (length (podLabels (SetManifest m r)))
              then env_setLabels env else None); [constructor|].
    destruct (env_commit env); repeat constructor. }
  assert (Hupd :
    shouldScheduleForNode (SetManifest m r) (env_reality env) = true ->
    intentCommitted (SetManifest m r) env = true ->
    snd (updateOne Compare (SetManifest m r) node env) = [(node, m)] /\
    fst (fst (updateOne Compare (SetManifest m r) node env)) =
      match ensureInReality (man_SHA m) (env_inReality env) with
      | Ret None =>
          ensureHealthy Compare (threshold r) node (env_healthy env)
      | o => o
      end).
  { intros Hs Hc. unfold updateOne. rewrite Hs.
    change (GetManifest (SetManifest m r)) with m.
    cbn [negb]. rewrite (Hrun Hs Hc). split; reflexivity. }
  split; [exact Hupd|].
  intros m' Hs Hc Hi Hh.
  rewrite (proj2 (Hupd Hs Hc)), Hi, Hh. simpl.
  destruct (decide (man_SHA m' = man_SHA m)); reflexivity.
Qed.

Lemma SetManifest_swaps_and_resets_witness :
  fst (fst (updateOne specCompare
              (SetManifest manifestV1
                 (replicationOf 1 ["a"] NoTimeout None))
              "a" (envAwaits manifestV1)))
  = Ret (Some errTimeout) /\
  fst (fst (updateOne specCompare
              (SetManifest manifestV1
                 (replicationOf 1 ["a"] NoTimeout None))
              "a" (envAwaits manifestV2)))
  = Ret (Some errQuit).
Proof.
  split.
  - exact (proj2 (proj2 (proj2 (proj2
             (SetManifest_swaps_and_resets specCompare manifestV1
                (replicationOf 1 ["a"] NoTimeout None) "a"
                (envAwaits manifestV1)))))
             manifestV1 eq_refl eq_refl eq_refl eq_refl).
  - exact (proj2 (proj2 (proj2 (proj2
             (SetManifest_swaps_and_resets specCompare manifestV1
                (replicationOf 1 ["a"] NoTimeout None) "a"
                (envAwaits manifestV2)))))
             manifestV2 eq_refl eq_refl eq_refl eq_refl).
Defined.

(** C10. On a replication built with a node queue [Cancel] changes nothing;
    a [Cancel] that closes [replicationCancelledCh] was called on a
    replication built without one. *)
Theorem Cancel_with_nodeQueue_is_noop (r : replication) :
  (is_Some (nodeQueue r) -> Cancel r = Some r) /\
  (forall r', Cancel r = Some r' ->
     replicationCancelledCh r' <> replicationCancelledCh r ->
     nodeQueue r = None /\ replicationCancelledCh r' = ChClosed).
Proof.
  unfold Cancel. split.
  - intros [q Hq]. rewrite Hq. reflexivity.
  - intros r' H Hne. destruct (nodeQueue r).
    + inversion H; subst. contradiction.
    + destruct (replicationCancelledCh r) eqn:E; inversion H; subst.
      split; reflexivity.
Qed.

Lemma Cancel_with_nodeQueue_is_noop_witness :
  is_Some (nodeQueue (replicationOf 2 [] NoTimeout (Some ["a"; "b"]))) /\
  Cancel (replicationOf 2 [] NoTimeout (Some ["a"; "b"]))
  = Some (replicationOf 2 [] NoTimeout (Some ["a"; "b"])).
Proof.
  split.
  - eexists; reflexivity.
  - apply (proj1 (Cancel_with_nodeQueue_is_noop
                    (replicationOf 2 [] NoTimeout (Some ["a"; "b"])))).
    eexists; reflexivity.
Defined.

(** ** The per-node updater *)

Section UpdaterFacts.

Variable Compare : HealthState -> HealthState -> Z.

Lemma shouldSchedule_false_iff r q :
  shouldScheduleForNode r q = false <-> realityMatches r q.
Proof.
  unfold shouldScheduleForNode, realityMatches, GetManifest. split.
  - destruct q as [[m|] [e|]]; try discriminate.
    destruct (man_SHA_err m) eqn:E1; [discriminate|].
    destruct (man_SHA_err (manifest r)) eqn:E2; [discriminate|].
    destruct (decide _); [|discriminate].
    intros _. exists m. auto.
  - intros (m & -> & E1 & E2 & E3). rewrite E1, E2.
    destruct (decide _); [reflexivity | contradiction].
Qed.

(** What [updateOne] leaves behind, by cases on the skip test. *)
Lemma updateOne_cases r node env :
  (shouldScheduleForNode r (env_reality env) = false /\
   updateOne Compare r node env = (Ret None, r, [])) \/
  (shouldScheduleForNode r (env_reality env) = true /\
   exists o r',
     updateOne Compare r node env
     = (o, r', if intentCommitted r env then [(node, manifest r)] else []) /\
     manifest r' = manifest r /\ errCh r' = errCh r /\
     timedOutReplications r' = timedOutReplications r /\
     log r' = log r /\ podLabels r' = podLabels r /\
     (o <> Blocked ->
      completedCount r' = wrap32 (completedCount r + 1))).
Proof.
  unfold updateOne.
  destruct (shouldScheduleForNode r (env_reality env)); simpl.
  - right. split; [reflexivity|].
    assert (Hw : snd (updateOne_body Compare r node (GetManifest r) env)
                 = if intentCommitted r env then [(node, manifest r)] else []).
    { unfold updateOne_body, intentCommitted, GetManifest.
      destruct (env_setPod env); [reflexivity|].
      destruct (if 0 <? Z.of_nat (length (podLabels r))
                then env_setLabels env else None); [reflexivity|].
      destruct (env_commit env); reflexivity. }
    destruct (updateOne_body Compare r node (GetManifest r) env) as [o ws].
    simpl in Hw. subst ws.
    eexists _, _. split; [reflexivity|].
    destruct o; simpl; repeat split; congruence.
  - left. split; reflexivity.
Qed.

Lemma handleResult_frame node err r :
  manifest (handleResult node err r) = manifest r /\
  completedCount (handleResult node err r) = completedCount r /\
  errCh (handleResult node err r) = errCh r /\
  podLabels (handleResult node err r) = podLabels r.
Proof.
  destruct err as [[]|]; simpl; repeat split; reflexivity.
Qed.

Lemma shouldSchedule_manifest r r' q :
  manifest r' = manifest r ->
  shouldScheduleForNode r' q = shouldScheduleForNode r q.
Proof.
  intros H. unfold shouldScheduleForNode, GetManifest. rewrite H. reflexivity.
Qed.

Lemma intentCommitted_podLabels r r' env :
  podLabels r' = podLabels r ->
  intentCommitted r' env = intentCommitted r env.
Proof.
  intros H. unfold intentCommitted. rewrite H. reflexivity.
Qed.

(** A worker that went through its nodes: the counter has grown by the
    number of nodes that were not skipped, and the writes carried out are
    those of the nodes whose transaction was committed. *)
Lemma runNodes_counts envs ns :
  forall r r' ws,
    is_int32 (completedCount r) ->
    runNodes Compare envs ns r = (r', ws, true) ->
    manifest r' = manifest r /\
    completedCount r' =
      wrap32 (completedCount r
              + Z.of_nat (length (filter (scheduledOn envs r) ns))) /\
    ws = map (fun n => (n, manifest r))
           (filter (committedOn envs r) ns).
Proof.
  assert (Hext : forall (r0 r1 : replication) (l : list NodeName),
            manifest r1 = manifest r0 -> podLabels r1 = podLabels r0 ->
            filter (scheduledOn envs r1) l = filter (scheduledOn envs r0) l /\
            filter (committedOn envs r1) l = filter (committedOn envs r0) l).
  { intros r0 r1 l Hm Hp. split; apply list_filter_iff; intros n;
      unfold scheduledOn, committedOn;
      rewrite (shouldSchedule_manifest r0 r1) by assumption;
      rewrite ?(intentCommitted_podLabels r0 r1) by assumption; tauto. }
  induction ns as [|node rest IH]; intros r r' ws Hc H; simpl in H.
  - inversion H; subst. simpl. rewrite Z.add_0_r, wrap32_id by assumption.
    auto.
  - destruct (updateOne_cases r node (envs node))
      as [[Hs Hu] | [Hs (o & r1 & Hu & Hm & _ & _ & _ & Hp & Hcount)]];
      rewrite Hu in H.
    + destruct (runNodes Compare envs rest (handleResult node None r))
        as [[r2 ws'] fin] eqn:Hr.
      inversion H; subst.
      destruct (handleResult_frame node None r) as (Hm' & Hc' & _ & Hp').
      apply IH in Hr; [|rewrite Hc'; assumption].
      destruct Hr as (Hm2 & Hc2 & Hw).
      destruct (Hext r (handleResult node None r) rest Hm' Hp') as [Hf1 Hf2].
      split; [congruence|]. split.
      * rewrite Hc2, Hc', Hf1. rewrite (filter_cons (scheduledOn envs r)).
        rewrite decide_False
          by (unfold scheduledOn; rewrite Hs; discriminate).
        reflexivity.
      * rewrite Hw, Hm', Hf2. rewrite (filter_cons (committedOn envs r)).
        rewrite decide_False
          by (unfold committedOn; rewrite Hs; intros [? _]; discriminate).
        reflexivity.
    + destruct o as [| |err]; try discriminate.
      destruct (runNodes Compare envs rest (handleResult node err r1))
        as [[r2 ws'] fin] eqn:Hr.
      inversion H; subst.
      destruct (handleResult_frame node err r1) as (Hm' & Hc' & _ & Hp').
      specialize (Hcount ltac:(discriminate)).
      apply IH in Hr; [|rewrite Hc', Hcount; apply wrap32_range].
      destruct Hr as (Hm2 & Hc2 & Hw).
      assert (Hmr : manifest (handleResult node err r1) = manifest r)
        by congruence.
      assert (Hpr : podLabels (handleResult node err r1) = podLabels r)
        by congruence.
      destruct (Hext r (handleResult node err r1) rest Hmr Hpr) as [Hf1 Hf2].
      split; [congruence|]. split.
      * rewrite Hc2, Hc', Hcount, wrap32_add_l, Hf1.
        rewrite (filter_cons (scheduledOn envs r)).
        rewrite decide_True by (unfold scheduledOn; assumption).
        f_equal. cbn [length]. lia.
      * rewrite Hw, Hmr, Hf2.
        rewrite (filter_cons (committedOn envs r)).
        destruct (intentCommitted r (envs node)) eqn:Hi.
        -- rewrite decide_True by (unfold committedOn; auto).
           reflexivity.
        -- rewrite decide_False
             by (unfold committedOn; rewrite Hi; intros [_ ?]; discriminate).
           reflexivity.
Qed.

Lemma runNodes_all_current envs ns :
  forall r,
    (forall n, n ∈ ns -> realityMatches r (env_reality (envs n))) ->
    exists r', runNodes Compare envs ns r = (r', [], true) /\
               completedCount r' = completedCount r /\
               manifest r' = manifest r.
Proof.
  induction ns as [|node rest IH]; intros r Hall; simpl.
  - eauto.
  - destruct (updateOne_cases r node (envs node))
      as [[Hs Hu] | [Hs _]].
    + rewrite Hu.
      destruct (handleResult_frame node None r) as (Hm' & Hc' & _).
      destruct (IH (handleResult node None r)) as (r' & Hr & Hc & Hm).
      { intros n Hn. specialize (Hall n ltac:(right; exact Hn)).
        apply shouldSchedule_false_iff.
        rewrite (shouldSchedule_manifest r _ _ Hm').
        apply shouldSchedule_false_iff. exact Hall. }
      rewrite Hr. exists r'. repeat split; congruence.
    + specialize (Hall node ltac:(left)).
      apply shouldSchedule_false_iff in Hall. congruence.
Qed.

End UpdaterFacts.

(** C2, as the counter is kept.  The deferred increment is registered right
    after the skip test, before the transaction is built: for an update that
    has left [updateOne] the counter has grown by one exactly when the node
    was not skipped, and the node is skipped exactly when its reality
    already holds the target hash.  The intent write is carried out only
    when, besides, both builders and the commit succeed.  For a worker that
    went through all its nodes, the counter has grown by the number of nodes
    that were not skipped, and the writes carried out are those of the nodes
    whose transaction was committed.  When every node's reality holds the
    target, the worker does go through all of them, writes nothing and
    leaves the counter as it was. *)
Theorem completedCount_counts_scheduled_nodes
    (Compare : HealthState -> HealthState -> Z)
    (envs : NodeName -> node_env) (ns : list NodeName) (r : replication) :
  is_int32 (completedCount r) ->
  (forall node env o r' ws,
     updateOne Compare r node env = (o, r', ws) -> o <> Blocked ->
     completedCount r' =
       wrap32 (completedCount r
               + (if shouldScheduleForNode r (env_reality env)
                  then 1 else 0)) /\
     (shouldScheduleForNode r (env_reality env) = false <->
      realityMatches r (env_reality env)) /\
     ws = (if shouldScheduleForNode r (env_reality env)
              && intentCommitted r env
           then [(node, GetManifest r)] else [])) /\
  (forall r' ws,
     runNodes Compare envs ns r = (r', ws, true) ->
     completedCount r' =
       wrap32 (completedCount r
               + Z.of_nat (length (filter (scheduledOn envs r) ns))) /\
     ws = map (fun n => (n, GetManifest r))
            (filter (committedOn envs r) ns)) /\
  ((forall n, n ∈ ns -> realityMatches r (env_reality (envs n))) ->
   exists r', runNodes Compare envs ns r = (r', [], true) /\
              completedCount r' = completedCount r).
Proof.
  intros Hc. split; [|split].
  - intros node env o r' ws Hu Ho.
    destruct (updateOne_cases Compare r node env)
      as [[Hs Hu'] | [Hs (o' & r1 & Hu' & _ & _ & _ & _ & _ & Hcount)]];
      rewrite Hu' in Hu; inversion Hu; subst; rewrite Hs.
    + rewrite Z.add_0_r, wrap32_id by assumption.
      split; [reflexivity|]. split; [|reflexivity].
      split; [intros _; apply shouldSchedule_false_iff; assumption
             | reflexivity].
    + split; [apply Hcount; assumption|]. split; [|reflexivity].
      split; [discriminate|].
      intros Hm. apply shouldSchedule_false_iff in Hm. congruence.
  - intros r' ws H.
    destruct (runNodes_counts Compare envs ns r r' ws Hc H) as (_ & H1 & H2).
    split; assumption.
  - intros Hall.
    destruct (runNodes_all_current Compare envs ns r Hall) as (r' & H1 & H2 & _).
    exists r'. split; assumption.
Qed.

Lemma completedCount_counts_scheduled_nodes_witness :
  is_int32 (completedCount (replicationOf 1 ["a"; "b"; "c"] NoTimeout None)) /\
  exists r' ws,
    runNodes specCompare countEnvs ["a"; "b"; "c"]
      (replicationOf 1 ["a"; "b"; "c"] NoTimeout None) = (r', ws, true) /\
    ws = [("b", manifestV2)] /\
    completedCount r' = 2.
Proof.
  assert (Hc : is_int32 (completedCount
                           (replicationOf 1 ["a"; "b"; "c"] NoTimeout None)))
    by (unfold is_int32; simpl; lia).
  split; [exact Hc|].
  destruct (runNodes specCompare countEnvs ["a"; "b"; "c"]
              (replicationOf 1 ["a"; "b"; "c"] NoTimeout None))
    as [[r' ws] fin] eqn:Hr.
  assert (Hfin : fin = true /\ ws = [("b", manifestV2)]).
  { vm_compute in Hr. inversion Hr; subst. split; reflexivity. }
  destruct Hfin as [-> Hws].
  exists r', ws. split; [reflexivity|]. split; [exact Hws|].
  rewrite (proj1 (proj1 (proj2 (completedCount_counts_scheduled_nodes
                  specCompare countEnvs ["a"; "b"; "c"]
                  (replicationOf 1 ["a"; "b"; "c"] NoTimeout None) Hc))
                  r' ws Hr)).
  reflexivity.
Defined.

(** The claim as worded fails: on a node whose intent transaction cannot be
    built no write is carried out, and the counter has grown by one all the
    same. *)
Lemma completedCount_grows_without_write_counterexample :
  updateOne specCompare (replicationOf 1 ["a"] NoTimeout None) "a"
    envBuildFails
  = (Ret (Some (errOther "cannot build")),
     set_completedCount 1 (replicationOf 1 ["a"] NoTimeout None), []) /\
  ~ (forall (Compare : HealthState -> HealthState -> Z) r node env o r' ws,
       is_int32 (completedCount r) ->
       updateOne Compare r node env = (o, r', ws) -> o <> Blocked ->
       completedCount r' =
         wrap32 (completedCount r + Z.of_nat (length ws))).
Proof.
  split; [reflexivity|].
  intros H.
  specialize (H specCompare (replicationOf 1 ["a"] NoTimeout None) "a"
                envBuildFails _ _ _
                ltac:(unfold is_int32; simpl; lia) eq_refl
                ltac:(discriminate)).
  vm_compute in H. discriminate.
Qed.

(** C5, as the handler is written.  Whatever [updateOne] returned, the
    goroutine that called it sends nothing on [errCh]: [errTimeout] appends
    the node to [timedOutReplications] and logs a line, [errCancelled] logs
    a line, and every other error, an error of one of the two builders, a
    transaction conflict or [errQuit], is logged as unexpected.  An error of
    the commit reaches the handler as [errTimeout].  Once the update has
    returned the worker's wait on its context ends: it is idle again and
    takes the next queued node; it can return instead only when [quitCh] is
    closed. *)
Theorem per_node_errors_are_only_logged
    (Compare : HealthState -> HealthState -> Z)
    (r : replication) (node : NodeName) (env : node_env)
    (err : option error) (r1 : replication) (ws : list intent_write) :
  updateOne Compare r node env = (Ret err, r1, ws) ->
  errCh (handleResult node err r1) = errCh r /\
  timedOutReplications (handleResult node err r1) =
    (if decide (err = Some errTimeout)
     then timedOutReplications r ++ [node]
     else timedOutReplications r) /\
  log (handleResult node err r1) =
    log r ++ [match err with
              | None => LogSuccess node (man_ID (GetManifest r))
              | Some errTimeout => LogTimedOut node (man_ID (GetManifest r))
              | Some errCancelled => LogCancelled node (man_ID (GetManifest r))
              | Some e => LogUnexpected e
              end] /\
  (forall ce,
     shouldScheduleForNode r (env_reality env) = true ->
     env_setPod env = None ->
     (if 0 <? Z.of_nat (length (podLabels r))
      then env_setLabels env else None) = None ->
     env_commit env = CommitErr ce ->
     err = Some errTimeout) /\
  (forall (s : pool) (i : nat) (j : job) (next : NodeName)
          (rest : list NodeName),
     p_workers s !! i = Some (WWaiting j) ->
     job_running j = true ->
     p_queue s = next :: rest ->
     exists s1 s2 s3,
       pool_step (LReturn i) s = Some s1 /\
       pool_step (LNext i) s1 = Some s2 /\
       p_workers s2 !! i = Some WIdle /\
       pool_step (LTake i) s2 = Some s3 /\
       (exists j', p_workers s3 !! i = Some (WWaiting j') /\
                   job_node j' = next /\ job_running j' = true) /\
       p_queue s3 = rest /\
       (pool_step (LWorkerQuit i) s1 = None <-> p_quit s = false)).
Proof.
  intros Hu.
  assert (Hhandler :
    errCh (handleResult node err r1) = errCh r /\
    timedOutReplications (handleResult node err r1) =
      (if decide (err = Some errTimeout)
       then timedOutReplications r ++ [node]
       else timedOutReplications r) /\
    log (handleResult node err r1) =
      log r ++ [match err with
                | None => LogSuccess node (man_ID (GetManifest r))
                | Some errTimeout => LogTimedOut node (man_ID (GetManifest r))
                | Some errCancelled =>
                    LogCancelled node (man_ID (GetManifest r))
                | Some e => LogUnexpected e
                end]).
  { destruct (updateOne_cases Compare r node env)
      as [[Hs Hu'] | [Hs (o' & r' & Hu' & Hm & He & Ht & Hl & _)]];
      rewrite Hu' in Hu; inversion Hu; subst.
    - cbn. auto.
    - unfold GetManifest. rewrite <- Hm, <- He, <- Ht, <- Hl.
      destruct err as [[]|]; cbn; auto. }
  destruct Hhandler as (H1 & H2 & H3).
  split; [exact H1|]. split; [exact H2|]. split; [exact H3|]. split.
  - intros ce Hs Hp Hl Hc. unfold updateOne in Hu. rewrite Hs in Hu.
    cbn [negb] in Hu. unfold updateOne_body in Hu.
    rewrite Hp, Hl, Hc in Hu. inversion Hu. reflexivity.
  - intros s i j next rest Hi Hrun Hq.
    assert (Hlt : (i < length (p_workers s))%nat)
      by (eapply lookup_lt_Some; exact Hi).
    eexists _, _, _.
    split.
    { cbn [pool_step]. rewrite Hi, Hrun. reflexivity. }
    split.
    { cbn [pool_step set_workers p_workers].
      rewrite list_lookup_insert_eq by exact Hlt. cbn. reflexivity. }
    split.
    { cbn. rewrite list_lookup_insert_eq; [reflexivity|].
      rewrite length_insert. exact Hlt. }
    split.
    { cbn. rewrite list_lookup_insert_eq
        by (rewrite length_insert; exact Hlt).
      rewrite Hq. reflexivity. }
    split.
    { exists (mkJob next (negb (bool_decide (p_timeout s = NoTimeout)))
                true false).
      cbn. split; [|split; reflexivity].
      rewrite list_lookup_insert_eq by (rewrite !length_insert; exact Hlt).
      reflexivity. }
    split; [reflexivity|].
    cbn. rewrite list_lookup_insert_eq by exact Hlt.
    destruct (p_quit s); cbn; split; congruence.
Qed.

Lemma per_node_errors_are_only_logged_witness :
  let r := replicationOf 1 ["a"] NoTimeout None in
  let r1 := set_completedCount 1 r in
  (updateOne specCompare r "a" envBuildFails
   = (Ret (Some (errOther "cannot build")), r1, []) /\
   errCh (handleResult "a" (Some (errOther "cannot build")) r1) = [] /\
   timedOutReplications (handleResult "a" (Some (errOther "cannot build")) r1)
   = [] /\
   log (handleResult "a" (Some (errOther "cannot build")) r1)
   = [LogUnexpected (errOther "cannot build")]) /\
  (updateOne specCompare r "a" envCommitFails
   = (Ret (Some errTimeout), r1, []) /\
   errCh (handleResult "a" (Some errTimeout) r1) = [] /\
   timedOutReplications (handleResult "a" (Some errTimeout) r1) = ["a"] /\
   log (handleResult "a" (Some errTimeout) r1) = [LogTimedOut "a" "web"]).
Proof.
  assert (Hb : updateOne specCompare (replicationOf 1 ["a"] NoTimeout None) "a"
                 envBuildFails
               = (Ret (Some (errOther "cannot build")),
                  set_completedCount 1 (replicationOf 1 ["a"] NoTimeout None),
                  [])) by reflexivity.
  assert (Hc : updateOne specCompare (replicationOf 1 ["a"] NoTimeout None) "a"
                 envCommitFails
               = (Ret (Some errTimeout),
                  set_completedCount 1 (replicationOf 1 ["a"] NoTimeout None),
                  [])) by reflexivity.
  split.
  - split; [exact Hb|].
    destruct (per_node_errors_are_only_logged specCompare _ _ _ _ _ _ Hb)
      as (H1 & H2 & H3 & _).
    split; [exact H1|]. split; [exact H2 | exact H3].
  - split; [exact Hc|].
    destruct (per_node_errors_are_only_logged specCompare _ _ _ _ _ _ Hc)
      as (H1 & H2 & H3 & _).
    split; [exact H1|]. split; [exact H2 | exact H3].
Defined.

(** The claim as worded fails twice.  A build error that leaves [updateOne]
    is not sent on [errCh].  And a worker does not always go on to the next
    node: [errQuit] is returned when [quitCh] is closed, and then the
    worker's own [select] has the quit case ready; here it returns while
    the update of "a" is under way, that update ends afterwards, and "b" is
    left in the queue with no worker to take it. *)
Lemma build_errors_sent_on_errCh_counterexample :
  ~ (forall (Compare : HealthState -> HealthState -> Z) r node env e r1 ws,
       updateOne Compare r node env = (Ret (Some e), r1, ws) ->
       e <> errTimeout -> e <> errCancelled -> e <> errQuit ->
       e ∈ errCh (handleResult node (Some e) r1)) /\
  (exists s,
     pool_run [LTake 0; LQuit; LWorkerQuit 0; LDetachedReturn 0]
       (pool_init (replicationOf 1 ["a"; "b"] NoTimeout None)) = Some s /\
     p_queue s = ["b"] /\ p_workers s = [WExited] /\ in_flight s = 0%nat /\
     forall i, pool_step (LTake i) s = None).
Proof.
  split.
  - intros H.
    specialize (H specCompare (replicationOf 1 ["a"] NoTimeout None) "a"
                  envBuildFails (errOther "cannot build")
                  (set_completedCount 1 (replicationOf 1 ["a"] NoTimeout None))
                  [] eq_refl
                  ltac:(discriminate) ltac:(discriminate) ltac:(discriminate)).
    simpl in H. inversion H.
  - eexists. split; [reflexivity|].
    split; [reflexivity|]. split; [reflexivity|]. split; [reflexivity|].
    intros [|[|i]]; reflexivity.
Qed.

(** ** The wait for health *)

Section EnsureHealthyFacts.

Variable Compare : HealthState -> HealthState -> Z.

Lemma healthyNow_iff t node agg :
  healthyNow Compare t node agg = true <->
  Compare (polledStatus agg node) (effectiveThreshold t) >= 0.
Proof.
  unfold healthyNow, polledStatus.
  destruct (GetHealth agg node) as [res ok]. cbn [fst].
  rewrite negb_true_iff, Z.ltb_ge. lia.
Qed.

Lemma missing_polls_zero agg node :
  missingFrom agg node -> polledStatus agg node = "".
Proof.
  unfold missingFrom, polledStatus, GetHealth.
  destruct (curHealth agg) as [m|]; [|reflexivity].
  destruct (m !! node); [discriminate | reflexivity].
Qed.

(** The loop returns nil exactly on the first healthy tick, every event
    before it being a tick on which the node was not healthy. *)
Lemma ensureHealthy_nil_iff t node evs :
  ensureHealthy Compare t node evs = Ret None <->
  exists pre agg post,
    evs = map EvTick pre ++ EvTick agg :: post /\
    Forall (fun a => healthyNow Compare t node a = false) pre /\
    healthyNow Compare t node agg = true.
Proof.
  induction evs as [|e rest IH]; simpl.
  - split; [discriminate|].
    intros (pre & agg & post & H & _). destruct pre; discriminate.
  - destruct e as [| | |a].
    1-3: split; [discriminate|];
         intros (pre & agg & post & H & _); destruct pre; discriminate.
    destruct (healthyNow Compare t node a) eqn:Ha.
    + split; [|reflexivity]. intros _.
      exists [], a, rest. simpl. auto.
    + rewrite IH. split.
      * intros (pre & agg & post & -> & Hp & Hg).
        exists (a :: pre), agg, post. simpl. auto.
      * intros (pre & agg & post & H & Hp & Hg).
        destruct pre as [|a' pre]; simpl in H; inversion H; subst.
        -- congruence.
        -- inversion Hp; subst. exists pre, agg, post. auto.
Qed.

End EnsureHealthyFacts.

(** C6. On each tick [ensureHealthy] declares the node done exactly when
    [health.Compare] puts the polled status at or above the effective
    threshold, which is [Passing] for an empty threshold and the threshold
    itself otherwise; on a tick that does not it goes on polling, so that it
    returns nil exactly on the first tick that does.  A node missing from the
    aggregator's map is polled with the zero status; whenever the comparison
    ranks the zero status with [Critical], the node is handled as a
    [Critical] one. *)
Theorem ensureHealthy_done_iff_status_ge_threshold
    (Compare : HealthState -> HealthState -> Z)
    (t : HealthState) (node : NodeName) (agg : podHealth)
    (rest : list (wait_event podHealth)) :
  (ensureHealthy Compare t node (EvTick agg :: rest) = Ret None <->
   Compare (polledStatus agg node) (effectiveThreshold t) >= 0 \/
   (Compare (polledStatus agg node) (effectiveThreshold t) < 0 /\
    ensureHealthy Compare t node rest = Ret None)) /\
  (Compare (polledStatus agg node) (effectiveThreshold t) < 0 ->
   ensureHealthy Compare t node (EvTick agg :: rest)
   = ensureHealthy Compare t node rest) /\
  (forall evs,
     ensureHealthy Compare t node evs = Ret None <->
     exists pre a post,
       evs = map EvTick pre ++ EvTick a :: post /\
       Forall (fun a' => Compare (polledStatus a' node) (effectiveThreshold t) < 0) pre /\
       Compare (polledStatus a node) (effectiveThreshold t) >= 0) /\
  effectiveThreshold "" = Passing /\
  (t <> "" -> effectiveThreshold t = t) /\
  (missingFrom agg node -> polledStatus agg node = "") /\
  ((forall t', Compare "" t' = Compare Critical t') ->
   missingFrom agg node ->
   (healthyNow Compare t node agg = true <->
    Compare Critical (effectiveThreshold t) >= 0)).
Proof.
  assert (Hn : forall a, healthyNow Compare t node a = false <->
                         Compare (polledStatus a node) (effectiveThreshold t) < 0).
  { intros a. rewrite <- not_true_iff_false, healthyNow_iff. lia. }
  split; [split|].
  - cbn [ensureHealthy]. destruct (healthyNow Compare t node agg) eqn:Ha.
    + intros _. left. apply healthyNow_iff. assumption.
    + intros H. right. split; [apply Hn; assumption | assumption].
  - cbn [ensureHealthy]. intros [H | [H1 H2]].
    + apply healthyNow_iff in H. rewrite H. reflexivity.
    + apply Hn in H1. rewrite H1. assumption.
  - split.
    { intros H. cbn [ensureHealthy]. apply Hn in H. rewrite H. reflexivity. }
    split.
    { intros evs. rewrite ensureHealthy_nil_iff.
      split; intros (pre & a & post & He & Hp & Ha); exists pre, a, post;
        (split; [assumption|]); split.
      - eapply Forall_impl; [exact Hp|]. intros x Hx. apply Hn. assumption.
      - apply healthyNow_iff. assumption.
      - eapply Forall_impl; [exact Hp|]. intros x Hx. apply Hn. assumption.
      - apply healthyNow_iff. assumption. }
    split; [reflexivity|]. split.
    { unfold effectiveThreshold. destruct (decide (t = "")); congruence. }
    split; [apply missing_polls_zero|].
    intros Hz Hmiss. rewrite healthyNow_iff.
    rewrite (missing_polls_zero agg node Hmiss), Hz. reflexivity.
Qed.

Lemma ensureHealthy_done_iff_status_ge_threshold_witness :
  (specCompare (polledStatus (healthOf [("a", Passing)]) "b")
     (effectiveThreshold "") < 0) /\
  ensureHealthy specCompare "" "b"
    [EvTick (healthOf [("a", Passing)]); EvTick (healthOf [("b", Warning)]);
     EvTick (healthOf [("b", Passing)])] = Ret None /\
  (healthyNow specCompare Critical "b" (healthOf [("a", Passing)]) = true <->
   specCompare Critical (effectiveThreshold Critical) >= 0).
Proof.
  assert (Hlt : specCompare (polledStatus (healthOf [("a", Passing)]) "b")
                  (effectiveThreshold "") < 0) by (vm_compute; reflexivity).
  split; [exact Hlt|]. split.
  - rewrite (proj1 (proj2 (ensureHealthy_done_iff_status_ge_threshold
               specCompare "" "b" (healthOf [("a", Passing)])
               [EvTick (healthOf [("b", Warning)]);
                EvTick (healthOf [("b", Passing)])])) Hlt).
    vm_compute. reflexivity.
  - apply (ensureHealthy_done_iff_status_ge_threshold
             specCompare Critical "b" (healthOf [("a", Passing)]) []).
    + intros t'. reflexivity.
    + vm_compute. reflexivity.
Defined.

(** ** Locking *)

Lemma count_calls_snoc f tr c :
  count_calls f (tr ++ [c]) = (count_calls f tr + (if f c then 1 else 0))%nat.
Proof.
  unfold count_calls. rewrite filter_app, length_app. f_equal.
  rewrite filter_cons. destruct (f c); reflexivity.
Qed.

(** Without override [lock] does not call itself: one level of depth is
    as good as any. *)
Lemma lock_rec_no_override fuel env path tr :
  lock_rec (S fuel) env path false tr = lock_rec 1 env path false tr.
Proof.
  reflexivity.
Qed.

(** Two levels are enough for every call: more fuel changes nothing, and
    the fuel never runs out. *)
Lemma lock_rec_fuel fuel env path override tr :
  lock_rec (S (S fuel)) env path override tr = lock env path override tr.
Proof.
  unfold lock. destruct override; reflexivity.
Qed.

(** A call without override: one [Lock], no holder destroyed, and an error
    whenever the lock is already held. *)
Lemma lock_no_override env path tr :
  exists res tr',
    lock env path false tr = Some (res, tr') /\
    count_calls is_CallLock tr' = S (count_calls is_CallLock tr) /\
    count_calls is_CallDestroyLockHolder tr'
    = count_calls is_CallDestroyLockHolder tr /\
    (ans_Lock env (count_calls is_CallLock tr) = AlreadyLockedError ->
     res <> None) /\
    (ans_Lock env (count_calls is_CallLock tr) = LockGranted -> res = None).
Proof.
  unfold lock. cbn [lock_rec].
  destruct (ans_Lock env _) eqn:El.
  - eexists _, _. split; [reflexivity|].
    rewrite !count_calls_snoc. cbn. repeat split; try lia; congruence.
  - destruct (ans_LockHolder env _) as [[holder id] [e|]].
    + eexists _, _. split; [reflexivity|].
      rewrite !count_calls_snoc. cbn. repeat split; try lia; congruence.
    + destruct (decide (holder = "")).
      * eexists _, _. split; [reflexivity|].
        rewrite !count_calls_snoc. cbn. repeat split; try lia; congruence.
      * eexists _, _. split; [reflexivity|].
        rewrite !count_calls_snoc. cbn. repeat split; try lia; congruence.
  - eexists _, _. split; [reflexivity|].
    rewrite !count_calls_snoc. cbn. repeat split; try lia; congruence.
Qed.

(** C7. When [Lock] answers already-locked and the holder is read without
    error: an empty holder fails with the lock-delay error after that one
    [Lock]; a holder without override fails with the already-held error; a
    holder with override is destroyed and [lock] is run once more with
    override off, so that [Lock] is called exactly twice and no second
    holder is destroyed, the call succeeding if the second [Lock] is granted
    and failing if it is already locked again. *)
Theorem lock_already_locked (env : lock_env) (path : string)
    (override : bool) (tr : list call) (holder id : string) :
  ans_Lock env (count_calls is_CallLock tr) = AlreadyLockedError ->
  ans_LockHolder env (count_calls is_CallLockHolder tr) = (holder, id, None) ->
  (holder = "" ->
   lock env path override tr
   = Some (Some (ErrLockDelay path),
           tr ++ [CallLock path] ++ [CallLockHolder path])) /\
  (holder <> "" -> override = false ->
   lock env path override tr
   = Some (Some (ErrAlreadyHeld path holder),
           tr ++ [CallLock path] ++ [CallLockHolder path])) /\
  (holder <> "" -> override = true ->
   ans_DestroyLockHolder env (count_calls is_CallDestroyLockHolder tr) = None ->
   lock env path override tr
   = lock env path false
       (tr ++ [CallLock path] ++ [CallLockHolder path]
           ++ [CallDestroyLockHolder id]) /\
   exists res tr',
     lock env path override tr = Some (res, tr') /\
     count_calls is_CallLock tr' = S (S (count_calls is_CallLock tr)) /\
     count_calls is_CallDestroyLockHolder tr'
     = S (count_calls is_CallDestroyLockHolder tr) /\
     (ans_Lock env (S (count_calls is_CallLock tr)) = AlreadyLockedError ->
      res <> None) /\
     (ans_Lock env (S (count_calls is_CallLock tr)) = LockGranted ->
      res = None)).
Proof.
  intros Hl Hh.
  assert (Hh' : ans_LockHolder env
                  (count_calls is_CallLockHolder (tr ++ [CallLock path]))
                = (holder, id, None)).
  { rewrite count_calls_snoc. cbn. rewrite Nat.add_0_r. exact Hh. }
  split; [|split].
  - intros ->. unfold lock. cbn [lock_rec]. rewrite Hl, Hh'.
    rewrite decide_True by reflexivity. rewrite <- app_assoc. reflexivity.
  - intros Hne ->. unfold lock. cbn [lock_rec]. rewrite Hl, Hh'.
    rewrite decide_False by assumption. rewrite <- app_assoc. reflexivity.
  - intros Hne -> Hd.
    assert (Hd' : ans_DestroyLockHolder env
                    (count_calls is_CallDestroyLockHolder
                       ((tr ++ [CallLock path]) ++ [CallLockHolder path]))
                  = None).
    { rewrite !count_calls_snoc. cbn. rewrite !Nat.add_0_r. exact Hd. }
    assert (Heq : lock env path true tr
                  = lock env path false
                      (tr ++ [CallLock path] ++ [CallLockHolder path]
                          ++ [CallDestroyLockHolder id])).
    { unfold lock at 1. cbn [lock_rec]. rewrite Hl, Hh'.
      rewrite decide_False by assumption. rewrite Hd'.
      rewrite !app_assoc. symmetry.
      apply (lock_rec_no_override 1). }
    split; [exact Heq|].
    destruct (lock_no_override env path
                (tr ++ [CallLock path] ++ [CallLockHolder path]
                    ++ [CallDestroyLockHolder id]))
      as (res & tr' & Hr & Hc1 & Hc2 & Hf & Hg).
    exists res, tr'. rewrite Heq. split; [exact Hr|].
    rewrite !app_assoc, !count_calls_snoc in Hc1, Hc2, Hf, Hg.
    cbn in Hc1, Hc2, Hf, Hg.
    rewrite ?Nat.add_0_r, ?Nat.add_1_r in Hc1, Hc2, Hf, Hg.
    repeat split; assumption.
Qed.

Lemma lock_already_locked_witness :
  ans_Lock lockHeldOnce (count_calls is_CallLock []) = AlreadyLockedError /\
  lock lockHeldOnce "lock/web" true []
  = Some (None, [CallLock "lock/web"; CallLockHolder "lock/web";
                 CallDestroyLockHolder "id-7"; CallLock "lock/web"]).
Proof.
  split; [reflexivity|].
  destruct (lock_already_locked lockHeldOnce "lock/web" true []
              "session-7" "id-7" eq_refl eq_refl) as (_ & _ & H).
  destruct (H ltac:(discriminate) eq_refl eq_refl) as [Heq _].
  rewrite Heq. reflexivity.
Defined.

(** ** The worker pool *)

Lemma sum_workers_insert f ws i w w' :
  ws !! i = Some w ->
  (sum_workers f (<[i := w']> ws) + f w = sum_workers f ws + f w')%nat.
Proof.
  revert i. induction ws as [|x ws IH]; intros i H; [discriminate|].
  destruct i as [|i]; simpl in *.
  - inversion H; subst. lia.
  - specialize (IH i H). lia.
Qed.

Lemma sum_workers_occupied_le ws :
  (sum_workers worker_occupied ws <= length ws)%nat.
Proof.
  induction ws as [|w ws IH]; simpl; [lia|].
  destruct w as [|j|]; simpl; try destruct (job_ctxDone j); lia.
Qed.

Lemma sum_workers_replicate_idle f n :
  f WIdle = 0%nat -> sum_workers f (replicate n WIdle) = 0%nat.
Proof.
  intros H. induction n as [|n IH]; simpl; [reflexivity|]. rewrite H, IH. reflexivity.
Qed.

Lemma worker_ok_lookup ws i w :
  Forall worker_ok ws -> ws !! i = Some w -> worker_ok w.
Proof.
  intros H Hi. rewrite Forall_lookup in H. exact (H i w Hi).
Qed.

Lemma pool_inv_init r :
  timeout r = NoTimeout -> pool_inv (pool_init r).
Proof.
  intros H. unfold pool_inv, pool_init, in_flight. simpl.
  split; [assumption|]. split.
  - apply Forall_replicate. exact I.
  - rewrite !sum_workers_replicate_idle by reflexivity. lia.
Qed.

Lemma pool_step_inv l s s' :
  sets_deadline l = false ->
  pool_inv s -> pool_step l s = Some s' -> pool_inv s'.
Proof.
  intros Hl (Ht & Hok & Hle) Hs. unfold pool_inv, in_flight in *.
  destruct l as [i|i| | |i|i|i| |i|k|d]; simpl in Hs.
  - (* LTake *)
    destruct (p_workers s !! i) as [[|j|]|] eqn:Hi; try discriminate.
    destruct (p_queue s) as [|node rest]; try discriminate.
    inversion Hs; subst; clear Hs. simpl.
    split; [assumption|].
    rewrite Ht, bool_decide_eq_true_2 by reflexivity. simpl. split.
    + apply Forall_insert; [assumption|]. simpl. split; [reflexivity|discriminate].
    + pose proof (sum_workers_insert worker_running _ _ _
                    (WWaiting (mkJob node false true false)) Hi) as H1.
      pose proof (sum_workers_insert worker_occupied _ _ _
                    (WWaiting (mkJob node false true false)) Hi) as H2.
      simpl in H1, H2. lia.
  - (* LQueueClosed *)
    destruct (p_workers s !! i) as [[|j|]|] eqn:Hi; try discriminate.
    destruct (p_queue s); try discriminate.
    destruct (p_closed s); try discriminate.
    inversion Hs; subst; clear Hs. simpl.
    split; [assumption|]. split.
    + apply Forall_insert; [assumption|exact I].
    + pose proof (sum_workers_insert worker_running _ _ _ WExited Hi) as H1.
      pose proof (sum_workers_insert worker_occupied _ _ _ WExited Hi) as H2.
      simpl in H1, H2. lia.
  - inversion Hs; subst; clear Hs. simpl. auto.
  - inversion Hs; subst; clear Hs. simpl. auto.
  - (* LReturn *)
    destruct (p_workers s !! i) as [[|j|]|] eqn:Hi; try discriminate.
    destruct (job_running j) eqn:Hr; try discriminate.
    inversion Hs; subst; clear Hs. simpl.
    destruct (worker_ok_lookup _ _ _ Hok Hi) as [Hd Hc].
    split; [assumption|]. split.
    + apply Forall_insert; [assumption|]. simpl. auto.
    + pose proof (sum_workers_insert worker_running _ _ _
                    (WWaiting (mkJob (job_node j) (job_deadline j) false true)) Hi) as H1.
      pose proof (sum_workers_insert worker_occupied _ _ _
                    (WWaiting (mkJob (job_node j) (job_deadline j) false true)) Hi) as H2.
      simpl in H1, H2. rewrite Hr in H1.
      destruct (job_ctxDone j); [specialize (Hc eq_refl); congruence|]. lia.
  - (* LDeadline *)
    destruct (p_workers s !! i) as [[|j|]|] eqn:Hi; try discriminate.
    destruct (worker_ok_lookup _ _ _ Hok Hi) as [Hd Hc].
    rewrite Hd in Hs. discriminate.
  - (* LNext *)
    destruct (p_workers s !! i) as [[|j|]|] eqn:Hi; try discriminate.
    destruct (job_ctxDone j) eqn:Hdone; try discriminate.
    inversion Hs; subst; clear Hs.
    destruct (worker_ok_lookup _ _ _ Hok Hi) as [Hd Hc].
    specialize (Hc Hdone).
    unfold detach. rewrite Hc. simpl.
    split; [assumption|]. split.
    + apply Forall_insert; [assumption|exact I].
    + pose proof (sum_workers_insert worker_running _ _ _ WIdle Hi) as H1.
      pose proof (sum_workers_insert worker_occupied _ _ _ WIdle Hi) as H2.
      simpl in H1, H2. rewrite Hc in H1. rewrite Hdone in H2. lia.
  - inversion Hs; subst; clear Hs. simpl. auto.
  - (* LWorkerQuit *)
    destruct (p_workers s !! i) as [[|j|]|] eqn:Hi; try discriminate.
    destruct (p_quit s); try discriminate.
    inversion Hs; subst; clear Hs.
    pose proof (sum_workers_insert worker_running _ _ _ WExited Hi) as H1.
    pose proof (sum_workers_insert worker_occupied _ _ _ WExited Hi) as H2.
    simpl in H1, H2.
    unfold detach. destruct (job_running j); simpl.
    + split; [assumption|]. split.
      * apply Forall_insert; [assumption|exact I].
      * rewrite length_app. simpl. destruct (job_ctxDone j); lia.
    + split; [assumption|]. split.
      * apply Forall_insert; [assumption|exact I].
      * destruct (job_ctxDone j); lia.
  - (* LDetachedReturn *)
    destruct (p_detached s !! k) eqn:Hk; try discriminate.
    inversion Hs; subst; clear Hs. simpl.
    split; [assumption|]. split; [assumption|].
    pose proof (lookup_lt_Some _ _ _ Hk) as Hlt.
    rewrite length_app, length_take, length_drop. lia.
  - (* LSetTimeout *)
    inversion Hs; subst; clear Hs. simpl in *.
    rewrite negb_false_iff, bool_decide_eq_true in Hl. auto.
Qed.

Lemma pool_run_inv ls :
  forall s s',
    Forall (fun l => sets_deadline l = false) ls ->
    pool_inv s -> pool_run ls s = Some s' ->
    pool_inv s' /\ length (p_workers s') = length (p_workers s).
Proof.
  induction ls as [|l ls IH]; intros s s' Hls Hinv Hrun; simpl in Hrun.
  - inversion Hrun; subst. auto.
  - destruct (pool_step l s) as [s1|] eqn:Hstep; [|discriminate].
    inversion Hls; subst.
    destruct (IH s1 s' H2 (pool_step_inv l s s1 H1 Hinv Hstep) Hrun) as [Hi Hlen].
    split; [assumption|]. rewrite Hlen.
    clear - Hstep.
    destruct l; simpl in Hstep;
      repeat match type of Hstep with
             | match ?x with _ => _ end = _ => destruct x eqn:?; try discriminate
             | (if ?x then _ else _) = _ => destruct x eqn:?; try discriminate
             end;
      inversion Hstep; subst; unfold detach;
      repeat match goal with
             | |- context [if ?x then _ else _] => destruct x
             end;
      simpl; rewrite ?length_insert; reflexivity.
Qed.

(** C3, for a replication that runs without a per-node deadline.  When the
    timeout is [NoTimeout] at the start and no [SetTimeout] installs a
    deadline, then in every state the pool of [Enact] reaches, the number of
    [updateOne] invocations started and not yet returned is at most
    [active]. *)
Theorem in_flight_bounded_without_deadline
    (r : replication) (ls : list label) (s : pool) :
  1 <= active r ->
  timeout r = NoTimeout ->
  Forall (fun l => sets_deadline l = false) ls ->
  pool_run ls (pool_init r) = Some s ->
  Z.of_nat (in_flight s) <= active r.
Proof.
  intros Ha Ht Hls Hrun.
  destruct (pool_run_inv ls _ _ Hls (pool_inv_init r Ht) Hrun)
    as [(_ & _ & Hle) Hlen].
  pose proof (sum_workers_occupied_le (p_workers s)) as Hocc.
  rewrite Hlen in Hocc. unfold pool_init in Hocc. simpl in Hocc.
  rewrite length_replicate in Hocc. lia.
Qed.

Lemma in_flight_bounded_without_deadline_witness :
  exists s,
    pool_run [LTake 0; LTake 1; LReturn 0; LNext 0; LTake 0; LQuit;
              LWorkerQuit 1]
      (pool_init (replicationOf 2 ["a"; "b"; "c"] NoTimeout None)) = Some s /\
    in_flight s = 2%nat /\
    Z.of_nat (in_flight s) <= 2.
Proof.
  eexists. split; [vm_compute; reflexivity|]. split; [vm_compute; reflexivity|].
  apply (in_flight_bounded_without_deadline
           (replicationOf 2 ["a"; "b"; "c"] NoTimeout None)
           [LTake 0; LTake 1; LReturn 0; LNext 0; LTake 0; LQuit;
            LWorkerQuit 1]).
  - simpl. lia.
  - reflexivity.
  - repeat constructor.
  - vm_compute. reflexivity.
Defined.

(** With a per-node timeout the bound fails: the single worker of a pool
    with [active = 1] stops waiting for its first update when the deadline
    passes and starts a second one while the first has not returned. *)
Lemma in_flight_exceeds_active_counterexample :
  ~ (forall r ls s,
       1 <= active r ->
       pool_run ls (pool_init r) = Some s ->
       Z.of_nat (in_flight s) <= active r).
Proof.
  intros H.
  specialize (H (replicationOf 1 ["a"; "b"] 5000 None)
                [LTake 0; LDeadline 0; LNext 0; LTake 0]).
  vm_compute in H.
  specialize (H _ ltac:(discriminate) eq_refl). apply H. reflexivity.
Qed.

(** ** Reality queries behind the semaphore *)

Lemma nth_mod_In {A} (l : list A) (k : nat) (d : A) :
  l <> [] -> In (nth (k mod length l)%nat l d) l.
Proof.
  intros H. apply nth_In. apply Nat.mod_upper_bound.
  destruct l; [contradiction | discriminate].
Qed.

(** In a [select] of [queryReality] the five-second timer, created together
    with the one-minute timer, is ready before it. *)
Lemma oneMinute_never_first now slotAt :
  ~ In CaseOneMinute (firstReady (select_cases now slotAt)).
Proof.
  unfold firstReady, select_cases, earliest, fiveSeconds, oneMinute.
  destruct slotAt as [t|]; cbn [app map fst fold_right];
    rewrite !filter_cons, filter_nil; cbn [fst];
    repeat case_decide; simpl; intros Hin;
    repeat (destruct Hin as [Hin|Hin]; try discriminate);
    try lia; try contradiction.
Qed.

Lemma firstReady_nonempty now slotAt :
  firstReady (select_cases now slotAt) <> [].
Proof.
  unfold firstReady, select_cases, earliest, fiveSeconds, oneMinute.
  destruct slotAt as [t|]; cbn [app map fst fold_right];
    rewrite !filter_cons, filter_nil; cbn [fst];
    repeat case_decide; simpl; try discriminate; lia.
Qed.

Lemma chosen_not_oneMinute tie now slotAt :
  chosen tie (select_cases now slotAt) <> CaseOneMinute.
Proof.
  intros H.
  apply (oneMinute_never_first now slotAt). rewrite <- H.
  apply nth_mod_In, firstReady_nonempty.
Qed.

(** C8, what the code does.  However long the semaphore stays full,
    [queryReality] never takes its one-minute case: after any number of
    iterations it is still waiting or has returned the answer of the store.
    A query that gets its slot after 61 seconds has logged twelve progress
    lines and returns the store's answer; one that never gets a slot is
    still waiting after any number of iterations. *)
Theorem queryReality_one_minute_case_unreachable
    (tie : nat -> nat) (fuel : nat) (now : Z) (slotAt : option Z)
    (pod : reality_result) :
  (fst (queryReality tie fuel now slotAt pod) = None \/
   fst (queryReality tie fuel now slotAt pod) = Some pod) /\
  queryReality tie 13 0 (Some 61000) pod = (Some pod, 12%nat) /\
  fst (queryReality tie fuel now None pod) = None.
Proof.
  split; [|split].
  - revert now. induction fuel as [|fuel IH]; intros now; simpl; [auto|].
    pose proof (chosen_not_oneMinute (tie fuel) now slotAt) as Hc.
    destruct (chosen (tie fuel) (select_cases now slotAt)); [auto| |congruence].
    specialize (IH (now + fiveSeconds)).
    destruct (queryReality tie fuel (now + fiveSeconds) slotAt pod). exact IH.
  - reflexivity.
  - revert now. induction fuel as [|fuel IH]; intros now; simpl; [reflexivity|].
    pose proof (chosen_not_oneMinute (tie fuel) now None) as Hc.
    assert (Hs : chosen (tie fuel) (select_cases now None) <> CaseSlot).
    { intros H.
      pose proof (nth_mod_In (firstReady (select_cases now None)) (tie fuel)
                    CaseFiveSeconds (firstReady_nonempty now None)) as Hin.
      unfold chosen in H. rewrite H in Hin.
      unfold firstReady, select_cases, earliest in Hin.
      cbn [app map fst fold_right] in Hin.
      rewrite !filter_cons, filter_nil in Hin.
      repeat case_decide; simpl in Hin;
        repeat (destruct Hin as [Hin|Hin]; try discriminate); contradiction. }
    destruct (chosen (tie fuel) (select_cases now None)); try congruence.
    specialize (IH (now + fiveSeconds)).
    destruct (queryReality tie fuel (now + fiveSeconds) None pod). exact IH.
Qed.

(** ** The rollout orderer *)

(** C4, what the code does.  [compareErrors] answers [lessThan] for a node
    whose status lookup fails against a node that has a status, so [Less]
    puts a node without status before an unhealthy node, and the rollout
    order of an unhealthy [nodeA] and a status-less [nodeB] is [nodeB] first
    whatever the input order. *)
Theorem rollout_puts_no_status_before_unhealthy :
  Rollout.compareErrors (Some Rollout.NoStatusGiven) None = Rollout.lessThan /\
  Rollout.Less statusOnlyA nodeB nodeA = Some true /\
  Rollout.Less statusOnlyA nodeA nodeB = Some false /\
  Rollout.getRolloutOrder statusOnlyA [nodeA; nodeB] = Some [nodeB; nodeA] /\
  Rollout.getRolloutOrder statusOnlyA [nodeB; nodeA] = Some [nodeB; nodeA].
Proof.
  repeat split; reflexivity.
Qed.

(** ** The health aggregator *)

Lemma agg_step_not_nil e a a' :
  emits_nil e = false ->
  agg_step e a = Some a' ->
  curHealth (ag_health a) <> None ->
  curHealth (ag_health a') <> None.
Proof.
  intros He Hs Hn.
  destruct e as [[m|]| | | |]; simpl in *; try discriminate.
  - destruct (ag_watcher a); inversion Hs; subst; simpl. discriminate.
  - destruct (ag_watcher a); inversion Hs; subst; simpl.
    unfold unblockAggregateHealth.
    destruct (curHealth (ag_health a)) eqn:E; simpl; congruence.
  - destruct (ag_watcher a); [|discriminate].
    destruct (quit (ag_health a)); inversion Hs; subst; simpl.
    unfold unblockAggregateHealth.
    destruct (curHealth (ag_health a)) eqn:E; simpl; congruence.
  - unfold Stop in Hs. destruct (quit (ag_health a)); inversion Hs; subst.
    simpl. assumption.
  - destruct (ag_ctor a); [|discriminate].
    destruct (curHealth (ag_health a)) eqn:E; inversion Hs; subst; simpl;
      congruence.
Qed.

Lemma agg_run_not_nil es :
  forall a a',
    Forall (fun e => emits_nil e = false) es ->
    agg_run es a = Some a' ->
    curHealth (ag_health a) <> None ->
    curHealth (ag_health a') <> None.
Proof.
  induction es as [|e es IH]; intros a a' Hes Hr Hn; simpl in Hr.
  - inversion Hr; subst. assumption.
  - destruct (agg_step e a) as [a1|] eqn:Hs; [|discriminate].
    inversion Hes; subst.
    eapply IH; eauto using agg_step_not_nil.
Qed.

(** Once the watcher has exited the stored map does not change. *)
Lemma agg_run_after_exit es :
  forall a a',
    ag_watcher a = WatcherExited ->
    agg_run es a = Some a' ->
    ag_watcher a' = WatcherExited /\
    curHealth (ag_health a') = curHealth (ag_health a).
Proof.
  induction es as [|e es IH]; intros a a' Hw Hr; simpl in Hr.
  - inversion Hr; subst. auto.
  - destruct (agg_step e a) as [a1|] eqn:Hs; [|discriminate].
    assert (H1 : ag_watcher a1 = WatcherExited /\
                 curHealth (ag_health a1) = curHealth (ag_health a)).
    { destruct e; simpl in Hs; rewrite ?Hw in Hs; simpl in Hs;
        try discriminate.
      - unfold Stop in Hs. destruct (quit (ag_health a)); inversion Hs; subst.
        simpl. auto.
      - destruct (ag_ctor a); [|discriminate].
        destruct (curHealth (ag_health a)) eqn:E; inversion Hs; subst; simpl;
          auto. }
    destruct H1 as [Hw1 Hc1].
    destruct (IH a1 a' Hw1 Hr) as [Hw' Hc']. split; congruence.
Qed.

Lemma agg_run_unseen es :
  forall a a',
    Forall (fun e => is_emit e = false) es ->
    agg_run es a = Some a' ->
    agg_unseen a -> agg_unseen a'.
Proof.
  induction es as [|e es IH]; intros a a' Hes Hr Hu; simpl in Hr.
  - inversion Hr; subst. assumption.
  - destruct (agg_step e a) as [a1|] eqn:Hs; [|discriminate].
    inversion Hes; subst. apply (IH a1 a' H2 Hr). clear IH Hr H2 Hes.
    unfold agg_unseen in *.
    destruct e; simpl in *; try discriminate.
    + destruct Hu as [[Hw Hc] | [Hw Hc]]; rewrite Hw in Hs; inversion Hs; subst.
      right. simpl. unfold unblockAggregateHealth. rewrite Hc. auto.
    + destruct Hu as [[Hw Hc] | [Hw Hc]]; rewrite Hw in Hs; [|discriminate].
      destruct (quit (ag_health a)); inversion Hs; subst.
      right. simpl. unfold unblockAggregateHealth. rewrite Hc. auto.
    + unfold Stop in Hs. destruct (quit (ag_health a)); inversion Hs; subst.
      simpl. assumption.
    + destruct (ag_ctor a); [|discriminate].
      destruct (curHealth (ag_health a)) eqn:E; inversion Hs; subst; simpl;
        rewrite ?E; assumption.
Qed.

Lemma agg_run_ctor_ok es :
  forall a a',
    Forall (fun e => emits_nil e = false) es ->
    agg_run es a = Some a' ->
    ctor_ok a -> ctor_ok a'.
Proof.
  induction es as [|e es IH]; intros a a' Hes Hr Hu; simpl in Hr.
  - inversion Hr; subst. assumption.
  - destruct (agg_step e a) as [a1|] eqn:Hs; [|discriminate].
    inversion Hes; subst. apply (IH a1 a' H2 Hr). clear IH Hr H2 Hes.
    unfold ctor_ok in *. intros Hret.
    destruct (ag_ctor a) eqn:Hc.
    + destruct e as [[m|]| | | |]; simpl in Hs; try discriminate.
      * destruct (ag_watcher a); inversion Hs; subst. simpl in *. congruence.
      * destruct (ag_watcher a); inversion Hs; subst. simpl in *. congruence.
      * destruct (ag_watcher a); [|discriminate].
        destruct (quit (ag_health a)); inversion Hs; subst. simpl in *.
        congruence.
      * unfold Stop in Hs. destruct (quit (ag_health a)); inversion Hs; subst.
        simpl in *. congruence.
      * rewrite Hc in Hs.
        destruct (curHealth (ag_health a)) eqn:E; inversion Hs; subst;
          simpl in *; congruence.
    + eapply agg_step_not_nil; eauto.
Qed.

Lemma queries_read_curHealth p p' :
  curHealth p = curHealth p' ->
  (forall host, GetHealth p host = GetHealth p' host) /\
  (forall status hosts, numOfHealth p status hosts = numOfHealth p' status hosts).
Proof.
  intros H.
  assert (Hg : forall host, GetHealth p host = GetHealth p' host).
  { intros host. unfold GetHealth. rewrite H. reflexivity. }
  split; [exact Hg|].
  intros status hosts. induction hosts as [|h hosts IH]; simpl; [reflexivity|].
  rewrite Hg, IH. reflexivity.
Qed.

Lemma agg_run_exited_ok es :
  forall a a',
    agg_run es a = Some a' ->
    exited_ok a -> exited_ok a'.
Proof.
  induction es as [|e es IH]; intros a a' Hr Hok; simpl in Hr.
  - inversion Hr; subst. assumption.
  - destruct (agg_step e a) as [a1|] eqn:Hs; [|discriminate].
    apply (IH a1 a' Hr). clear IH Hr.
    unfold exited_ok in *. intros Hw.
    destruct e as [res| | | |]; simpl in Hs.
    + destruct (ag_watcher a); inversion Hs; subst. simpl in Hw.
      discriminate Hw.
    + destruct (ag_watcher a); inversion Hs; subst. simpl.
      unfold unblockAggregateHealth.
      destruct (curHealth (ag_health a)) eqn:E; simpl; congruence.
    + destruct (ag_watcher a); [|discriminate].
      destruct (quit (ag_health a)); inversion Hs; subst. simpl.
      unfold unblockAggregateHealth.
      destruct (curHealth (ag_health a)) eqn:E; simpl; congruence.
    + unfold Stop in Hs. destruct (quit (ag_health a)); inversion Hs; subst.
      simpl in *. auto.
    + destruct (ag_ctor a); [|discriminate].
      destruct (curHealth (ag_health a)) eqn:E; inversion Hs; subst;
        simpl in *; rewrite ?E; auto.
Qed.

(** The counting loop on a stored map. *)
Lemma numOfHealth_reads_map p status hosts :
  numOfHealth p status hosts =
    match curHealth p with
    | Some m => Z.of_nat (length (List.filter (hostHasStatus m status) hosts))
    | None => 0
    end.
Proof.
  induction hosts as [|host rest IH]; simpl.
  - destruct (curHealth p); reflexivity.
  - rewrite IH. unfold GetHealth, hostHasStatus.
    destruct (curHealth p) as [m|]; [|reflexivity].
    destruct (m !! host) as [h|]; simpl; [|reflexivity].
    destruct (bool_decide (res_Status h = status)); simpl length; lia.
Qed.

(** C9, as the watcher is written.  In every state reached from the start
    of [AggregateHealth]: the constructor leaves its loop only on a stored
    map that is not nil, and goes on waiting on a nil one; once the watcher
    has exited, by a closed result channel or by [Stop], a map is stored,
    the empty one if no snapshot was ever received, and the waiting
    constructor returns on its next wake-up.  The watcher stores what it
    receives: as long as it receives no nil map, the map is stored when the
    constructor has returned and never becomes nil again.  [GetHealth] and
    the counts are computed from the stored map, [Stop] leaves it as it is,
    and once the watcher has exited it no longer changes. *)
Theorem AggregateHealth_returns_with_map
    (id : PodID) (es : list agg_event) (a : aggregator) :
  agg_run es (AggregateHealth_init id) = Some a ->
  (forall a',
     ag_ctor a = CtorWaiting ->
     agg_step ACtorWake a = Some a' ->
     (ag_ctor a' = CtorReturned <-> curHealth (ag_health a) <> None) /\
     ag_health a' = ag_health a) /\
  (ag_watcher a = WatcherExited ->
   curHealth (ag_health a) <> None /\
   (Forall (fun e => is_emit e = false) es ->
    curHealth (ag_health a) = Some ∅) /\
   (ag_ctor a = CtorWaiting ->
    exists a', agg_step ACtorWake a = Some a' /\
               ag_ctor a' = CtorReturned /\
               ag_health a' = ag_health a)) /\
  (Forall (fun e => emits_nil e = false) es ->
   ag_ctor a = CtorReturned -> curHealth (ag_health a) <> None) /\
  (forall es' a',
     Forall (fun e => emits_nil e = false) es' ->
     agg_run es' a = Some a' ->
     curHealth (ag_health a) <> None ->
     curHealth (ag_health a') <> None) /\
  (forall host,
     GetHealth (ag_health a) host
     = match curHealth (ag_health a) with
       | Some m =>
           match m !! host with
           | Some h => (h, true)
           | None => (zeroResult, false)
           end
       | None => (zeroResult, false)
       end) /\
  (forall status hosts,
     numOfHealth (ag_health a) status hosts
     = match curHealth (ag_health a) with
       | Some m => Z.of_nat (length (List.filter (hostHasStatus m status) hosts))
       | None => 0
       end) /\
  (forall p' host status hosts,
     Stop (ag_health a) = Some p' ->
     curHealth p' = curHealth (ag_health a) /\
     GetHealth p' host = GetHealth (ag_health a) host /\
     numOfHealth p' status hosts = numOfHealth (ag_health a) status hosts) /\
  (ag_watcher a = WatcherExited ->
   forall es' a',
     agg_run es' a = Some a' ->
     curHealth (ag_health a') = curHealth (ag_health a)).
Proof.
  intros Hr.
  assert (Hexit : exited_ok a).
  { apply (agg_run_exited_ok es _ a Hr). unfold exited_ok. simpl.
    discriminate. }
  split.
  { intros a' Hc Hs. simpl in Hs. rewrite Hc in Hs.
    destruct (curHealth (ag_health a)) eqn:E; inversion Hs; subst; simpl.
    - split; [split; [discriminate | reflexivity] | reflexivity].
    - split; [|reflexivity]. rewrite Hc. split; congruence. }
  split.
  { intros Hw. split; [exact (Hexit Hw)|]. split.
    - intros Hne.
      assert (Hu : agg_unseen a).
      { apply (agg_run_unseen es _ a Hne Hr). left. simpl. auto. }
      destruct Hu as [[Hw' _] | [_ Hc]]; [congruence | exact Hc].
    - intros Hctor. simpl. rewrite Hctor.
      destruct (curHealth (ag_health a)) eqn:E.
      + eexists. split; [reflexivity|]. simpl. auto.
      + exfalso. exact (Hexit Hw E). }
  split.
  { intros Hes.
    apply (agg_run_ctor_ok es _ a Hes Hr). unfold ctor_ok. simpl.
    discriminate. }
  split.
  { intros es' a' Hes' Hr' Hn. exact (agg_run_not_nil es' a a' Hes' Hr' Hn). }
  split.
  { intros host. unfold GetHealth. reflexivity. }
  split.
  { intros status hosts. apply numOfHealth_reads_map. }
  split.
  { intros p' host status hosts Hs.
    assert (Hc : curHealth p' = curHealth (ag_health a)).
    { unfold Stop in Hs. destruct (quit (ag_health a)); inversion Hs; subst.
      reflexivity. }
    destruct (queries_read_curHealth p' (ag_health a) Hc) as [Hg Hn].
    auto. }
  intros Hw es' a' Hr'.
  exact (proj2 (agg_run_after_exit es' a a' Hw Hr')).
Qed.

Lemma AggregateHealth_returns_with_map_witness :
  exists a,
    agg_run [AEmit (Some {[ "a" := mkResult "" "a" "web" Passing ]});
             ACtorWake; AStop; AQuitSeen]
      (AggregateHealth_init "web") = Some a /\
    ag_ctor a = CtorReturned /\
    curHealth (ag_health a) <> None /\
    numOfHealth (ag_health a) Passing ["a"; "b"] = 1.
Proof.
  eexists. split; [reflexivity|]. split; [reflexivity|].
  pose proof (AggregateHealth_returns_with_map "web"
                [AEmit (Some {[ "a" := mkResult "" "a" "web" Passing ]});
                 ACtorWake; AStop; AQuitSeen] _ eq_refl)
    as (_ & H2 & _ & _ & _ & H6 & _).
  split.
  - exact (proj1 (H2 eq_refl)).
  - rewrite H6. vm_compute. reflexivity.
Defined.

(** The claim as worded fails: the watcher stores a nil map it receives, so
    after the constructor has returned the stored map can be nil again, and
    the queries then read the nil map. *)
Lemma AggregateHealth_map_nil_again_counterexample :
  (exists a,
     agg_run [AEmit (Some ∅); ACtorWake; AEmit None]
       (AggregateHealth_init "web") = Some a /\
     ag_ctor a = CtorReturned /\
     curHealth (ag_health a) = None) /\
  ~ (forall id es a,
       agg_run es (AggregateHealth_init id) = Some a ->
       ag_ctor a = CtorReturned ->
       curHealth (ag_health a) <> None).
Proof.
  split.
  - eexists. split; [reflexivity|]. split; reflexivity.
  - intros H.
    exact (H "web" [AEmit (Some ∅); ACtorWake; AEmit None] _
             eq_refl eq_refl eq_refl).
Qed.

(* ================================================================= *)
(** * Further properties of the controller *)

(** ** The waiting loops *)

(** X1. [ensureInReality] returns nil exactly when some tick reports a
    manifest with the target hash and every event before it is a tick on
    which the query failed or reported another hash. *)
Theorem ensureInReality_nil_iff (targetSHA : string)
    (evs : list (wait_event reality_result)) :
  ensureInReality targetSHA evs = Ret None <->
  exists pre m post,
    evs = map EvTick pre ++ EvTick (Some m, None) :: post /\
    Forall (fun q => keepsWaiting targetSHA q = true) pre /\
    man_SHA m = targetSHA.
Proof.
  induction evs as [|e rest IH]; simpl.
  - split; [discriminate|].
    intros (pre & m & post & H & _). destruct pre; discriminate.
  - destruct e as [| | |[man err]].
    1-3: split; [discriminate|];
         intros (pre & m & post & H & _); destruct pre; discriminate.
    destruct err as [e|].
    + rewrite IH. split.
      * intros (pre & m & post & -> & Hp & Hm).
        exists ((man, Some e) :: pre), m, post. simpl.
        split; [reflexivity|]. split; [|assumption].
        constructor; [destruct man; reflexivity | assumption].
      * intros (pre & m & post & H & Hp & Hm).
        destruct pre as [|q pre]; simpl in H; inversion H; subst.
        inversion Hp; subst. exists pre, m, post. auto.
    + destruct man as [m0|].
      * destruct (decide (man_SHA m0 = targetSHA)) as [Heq|Hne].
        -- split; [|reflexivity]. intros _.
           exists [], m0, rest. simpl. auto.
        -- rewrite IH. split.
           ++ intros (pre & m & post & -> & Hp & Hm).
              exists ((Some m0, None) :: pre), m, post. simpl.
              split; [reflexivity|]. split; [|assumption].
              constructor; [|assumption].
              simpl. rewrite bool_decide_eq_false_2 by assumption. reflexivity.
           ++ intros (pre & m & post & H & Hp & Hm).
              destruct pre as [|q pre]; simpl in H; inversion H; subst.
              ** contradiction.
              ** inversion Hp; subst. exists pre, m, post. auto.
      * split; [discriminate|].
        intros (pre & m & post & H & Hp & Hm).
        destruct pre as [|q pre]; simpl in H; inversion H; subst.
        inversion Hp; subst. discriminate.
Qed.

(** X2. The two waiting loops end in error only with one of the sentinels
    [errQuit], [errTimeout], [errCancelled]: a failing reality query, "no
    current manifest" included, is never returned.  [ensureHealthy] does not
    panic, and neither loop returns as long as it only sees ticks that keep
    it waiting. *)
Theorem wait_loops_return_only_sentinels
    (Compare : HealthState -> HealthState -> Z) (targetSHA : string)
    (t : HealthState) (node : NodeName)
    (revs : list (wait_event reality_result))
    (hevs : list (wait_event podHealth)) :
  (forall e, ensureInReality targetSHA revs = Ret (Some e) ->
             isSentinel e = true) /\
  (forall e, ensureHealthy Compare t node hevs = Ret (Some e) ->
             isSentinel e = true) /\
  ensureHealthy Compare t node hevs <> Panic /\
  (forall qs, Forall (fun q => keepsWaiting targetSHA q = true) qs ->
              ensureInReality targetSHA (map EvTick qs) = Blocked) /\
  (forall aggs, Forall (fun a => healthyNow Compare t node a = false) aggs ->
                ensureHealthy Compare t node (map EvTick aggs) = Blocked).
Proof.
  split; [|split; [|split; [|split]]].
  - induction revs as [|ev rest IH]; simpl; intros e H; [discriminate|].
    destruct ev as [| | |[man [err|]]]; try (inversion H; subst; reflexivity);
      try (apply IH; assumption).
    destruct man as [m|]; [|discriminate].
    destruct (decide _); [discriminate | apply IH; assumption].
  - induction hevs as [|ev rest IH]; simpl; intros e H; [discriminate|].
    destruct ev as [| | |a]; try (inversion H; subst; reflexivity).
    destruct (healthyNow Compare t node a); [discriminate | apply IH; assumption].
  - induction hevs as [|ev rest IH]; simpl; [discriminate|].
    destruct ev as [| | |a]; try discriminate.
    destruct (healthyNow Compare t node a); [discriminate | assumption].
  - intros qs Hq. induction Hq as [|[man [err|]] qs Hk _ IH]; simpl;
      [reflexivity | assumption |].
    destruct man as [m|]; [|discriminate]. simpl in Hk.
    apply negb_true_iff, bool_decide_eq_false in Hk.
    rewrite decide_False by assumption. assumption.
  - intros aggs Ha. induction Ha as [|a aggs Hk _ IH]; simpl; [reflexivity|].
    rewrite Hk. assumption.
Qed.

(** ** The per-node updater, continued *)

Lemma updateOne_body_errors Compare r node m env e :
  fst (updateOne_body Compare r node m env) = Ret (Some e) ->
  env_setPod env = Some e \/
  (podLabels r <> [] /\ env_setPod env = None /\ env_setLabels env = Some e) \/
  (e = errTimeout /\ exists ce, env_commit env = CommitErr ce) \/
  (exists errors, env_commit env = CommitConflict errors /\
                  e = conflictError node errors) \/
  (env_commit env = CommitOk /\ isSentinel e = true).
Proof.
  unfold updateOne_body. intros H.
  destruct (env_setPod env) as [e1|]; [inversion H; auto|].
  destruct (podLabels r) as [|l ls] eqn:Hl; simpl in H.
  - destruct (env_commit env) as [|errors|ce] eqn:Hc; cbn [fst] in H.
    + right; right; right; right. split; [reflexivity|].
      destruct (ensureInReality (man_SHA m) (env_inReality env)) as [| |[e2|]] eqn:Hr;
        try discriminate.
      * inversion H; subst.
        eapply (proj1 (wait_loops_return_only_sentinels Compare _ "" node _ [])), Hr.
      * eapply (proj1 (proj2 (wait_loops_return_only_sentinels Compare "" _ node [] _))), H.
    + inversion H; subst. right; right; right; left. eauto.
    + inversion H; subst. right; right; left. eauto.
  - destruct (env_setLabels env) as [e1|]; cbn [fst] in H.
    + inversion H; subst. right; left. split; [discriminate | auto].
    + destruct (env_commit env) as [|errors|ce] eqn:Hc; cbn [fst] in H.
      * right; right; right; right. split; [reflexivity|].
        destruct (ensureInReality (man_SHA m) (env_inReality env)) as [| |[e2|]] eqn:Hr;
          try discriminate.
        -- inversion H; subst.
           eapply (proj1 (wait_loops_return_only_sentinels Compare _ "" node _ [])), Hr.
        -- eapply (proj1 (proj2 (wait_loops_return_only_sentinels Compare "" _ node [] _))), H.
      * inversion H; subst. right; right; right; left. eauto.
      * inversion H; subst. right; right; left. eauto.
Qed.

(** X3. The errors of [updateOne].  An error it returns is the error of
    [SetPodTxn]; or, with pod labels configured, the error of
    [SetLabelsTxn]; or [errTimeout] standing for whatever error the commit
    gave; or the conflict error built for the node; or, after a successful
    commit, one of the three sentinels of the waiting loops.  A skipped node
    never gives an error, and without pod labels the answer of
    [SetLabelsTxn] plays no part. *)
Theorem updateOne_error_taxonomy
    (Compare : HealthState -> HealthState -> Z)
    (r : replication) (node : NodeName) (env : node_env) :
  (forall e r' ws,
     updateOne Compare r node env = (Ret (Some e), r', ws) ->
     shouldScheduleForNode r (env_reality env) = true /\
     (env_setPod env = Some e \/
      (podLabels r <> [] /\ env_setPod env = None /\ env_setLabels env = Some e) \/
      (e = errTimeout /\ exists ce, env_commit env = CommitErr ce) \/
      (exists errors, env_commit env = CommitConflict errors /\
                      e = conflictError node errors) \/
      (env_commit env = CommitOk /\ isSentinel e = true))) /\
  (podLabels r = [] ->
   forall labelsAnswer,
     updateOne Compare r node
       (mkNodeEnv (env_reality env) (env_setPod env) labelsAnswer
          (env_commit env) (env_inReality env) (env_healthy env))
     = updateOne Compare r node env).
Proof.
  split.
  - intros e r' ws H. unfold updateOne in H.
    destruct (shouldScheduleForNode r (env_reality env)); simpl in H;
      [|discriminate].
    split; [reflexivity|].
    destruct (updateOne_body Compare r node (GetManifest r) env)
      as [o ws0] eqn:Hb.
    inversion H as [[Ho Hr Hw]].
    eapply updateOne_body_errors. rewrite Hb. exact Ho.
  - intros Hl labelsAnswer. unfold updateOne, updateOne_body. simpl.
    rewrite Hl. reflexivity.
Qed.

(** ** Locking, continued *)

Lemma count_calls_app f tr1 tr2 :
  count_calls f (tr1 ++ tr2) = (count_calls f tr1 + count_calls f tr2)%nat.
Proof.
  unfold count_calls. rewrite filter_app, length_app. reflexivity.
Qed.

Lemma count_calls_cons f c tr :
  count_calls f (c :: tr) = ((if f c then 1 else 0) + count_calls f tr)%nat.
Proof.
  unfold count_calls. rewrite filter_cons. destruct (f c); reflexivity.
Qed.

Lemma count_calls_nil f : count_calls f [] = 0%nat.
Proof. reflexivity. Qed.

Ltac lock_index :=
  repeat match goal with
         | H : context [count_calls _ (_ ++ [_])] |- _ =>
             rewrite count_calls_snoc in H; cbn [is_CallLock is_CallLockHolder
               is_CallDestroyLockHolder] in H; rewrite ?Nat.add_0_r in H
         end.

Ltac lock_answer :=
  match goal with
  | H : ans_Lock ?env ?a = _ |- ans_Lock ?env ?b = _ =>
      replace b with a by lia; exact H
  | H1 : ans_Lock ?env ?a = LockGranted, H2 : ans_Lock ?env ?b = _ |- _ =>
      replace a with b in H1 by lia; congruence
  end.

Ltac lock_finish :=
  rewrite ?count_calls_cons, ?count_calls_nil; cbn; lock_index; repeat split;
  first
    [ solve [repeat constructor]
    | lia
    | solve [intros; discriminate]
    | solve [intros; split; reflexivity]
    | solve [intros; lock_answer] ].

(** Every run of [lock], by the calls it adds to the record. *)
Lemma lock_trace env path override tr :
  exists res calls,
    lock env path override tr = Some (res, tr ++ calls) /\
    Forall (fun c => isLockCall c = true) calls /\
    (1 <= count_calls is_CallLock calls <= 2)%nat /\
    (count_calls is_CallDestroyLockHolder calls <= 1)%nat /\
    (count_calls is_CallLockHolder calls <= count_calls is_CallLock calls)%nat /\
    (override = false ->
     count_calls is_CallLock calls = 1%nat /\
     count_calls is_CallDestroyLockHolder calls = 0%nat) /\
    (res = None <->
     ans_Lock env (count_calls is_CallLock tr
                   + count_calls is_CallLock calls - 1)%nat = LockGranted).
Proof.
  unfold lock. cbn [lock_rec].
  destruct (ans_Lock env (count_calls is_CallLock tr)) as [| |e1] eqn:E1.
  - exists None, [CallLock path]. split; [reflexivity|]. lock_finish.
  - destruct (ans_LockHolder env _) as [[holder id] [eh|]] eqn:E2.
    + eexists _, [CallLock path; CallLockHolder path].
      split; [rewrite <- app_assoc; reflexivity|]. lock_finish.
    + destruct (decide (holder = "")).
      * eexists _, [CallLock path; CallLockHolder path].
        split; [rewrite <- app_assoc; reflexivity|]. lock_finish.
      * destruct override.
        -- destruct (ans_DestroyLockHolder env _) as [ed|] eqn:E3.
           ++ eexists _, [CallLock path; CallLockHolder path;
                          CallDestroyLockHolder id].
              split; [rewrite <- !app_assoc; reflexivity|]. lock_finish.
           ++ destruct (ans_Lock env (count_calls is_CallLock
                          (((tr ++ [CallLock path]) ++ [CallLockHolder path])
                             ++ [CallDestroyLockHolder id]))) as [| |e2] eqn:E4.
              ** exists None, [CallLock path; CallLockHolder path;
                               CallDestroyLockHolder id; CallLock path].
                 split; [rewrite <- !app_assoc; reflexivity|]. lock_finish.
              ** destruct (ans_LockHolder env
                            (count_calls is_CallLockHolder
                               ((((tr ++ [CallLock path]) ++ [CallLockHolder path])
                                   ++ [CallDestroyLockHolder id])
                                  ++ [CallLock path])))
                   as [[holder2 id2] [eh2|]] eqn:E5;
                   [|destruct (decide (holder2 = ""))];
                   (eexists _, [CallLock path; CallLockHolder path;
                                CallDestroyLockHolder id; CallLock path;
                                CallLockHolder path];
                    split; [rewrite <- !app_assoc; reflexivity|]; lock_finish).
              ** eexists _, [CallLock path; CallLockHolder path;
                             CallDestroyLockHolder id; CallLock path].
                 split; [rewrite <- !app_assoc; reflexivity|]. lock_finish.
        -- eexists _, [CallLock path; CallLockHolder path].
           split; [rewrite <- app_assoc; reflexivity|]. lock_finish.
  - eexists _, [CallLock path].
    split; [reflexivity|]. lock_finish.
Qed.

(** X5. [lock] always returns.  It only adds [Lock], [LockHolder] and
    [DestroyLockHolder] calls to the record: one or two [Lock] calls, at most
    one [DestroyLockHolder], and never more holder lookups than [Lock]
    calls; without override, exactly one [Lock] and no destroy.  It succeeds
    exactly when the last [Lock] it made was granted. *)
Theorem lock_returns_with_bounded_calls (env : lock_env) (path : string)
    (override : bool) (tr : list call) :
  exists res calls,
    lock env path override tr = Some (res, tr ++ calls) /\
    Forall (fun c => isLockCall c = true) calls /\
    (1 <= count_calls is_CallLock calls <= 2)%nat /\
    (count_calls is_CallDestroyLockHolder calls <= 1)%nat /\
    (count_calls is_CallLockHolder calls <= count_calls is_CallLock calls)%nat /\
    (override = false ->
     count_calls is_CallLock calls = 1%nat /\
     count_calls is_CallDestroyLockHolder calls = 0%nat) /\
    (res = None <->
     ans_Lock env (count_calls is_CallLock tr
                   + count_calls is_CallLock calls - 1)%nat = LockGranted).
Proof.
  apply lock_trace.
Qed.

(** X6. Failures that end [lock] at once, with or without override: an
    error of [Lock] other than already-locked is passed on after that one
    call; an error of the holder lookup gives the cannot-determine-holder
    error and no holder is destroyed; and with override, an error of
    [DestroyLockHolder] gives the unable-to-destroy error without a second
    [Lock]. *)
Theorem lock_fails_without_retry (env : lock_env) (path : string)
    (override : bool) (tr : list call) :
  (forall e,
     ans_Lock env (count_calls is_CallLock tr) = LockFailed e ->
     lock env path override tr
     = Some (Some (ErrPassed e), tr ++ [CallLock path])) /\
  (forall holder id e,
     ans_Lock env (count_calls is_CallLock tr) = AlreadyLockedError ->
     ans_LockHolder env (count_calls is_CallLockHolder tr)
     = (holder, id, Some e) ->
     lock env path override tr
     = Some (Some (ErrHolderUnknown path e),
             tr ++ [CallLock path; CallLockHolder path])) /\
  (forall holder id e,
     ans_Lock env (count_calls is_CallLock tr) = AlreadyLockedError ->
     ans_LockHolder env (count_calls is_CallLockHolder tr)
     = (holder, id, None) ->
     holder <> "" -> override = true ->
     ans_DestroyLockHolder env (count_calls is_CallDestroyLockHolder tr)
     = Some e ->
     lock env path override tr
     = Some (Some (ErrDestroyFailed holder path e),
             tr ++ [CallLock path; CallLockHolder path;
                    CallDestroyLockHolder id])).
Proof.
  split; [|split].
  - intros e H. unfold lock. cbn [lock_rec]. rewrite H. reflexivity.
  - intros holder id e Hl Hh. unfold lock. cbn [lock_rec]. rewrite Hl.
    rewrite count_calls_snoc. cbn. rewrite Nat.add_0_r, Hh.
    rewrite <- app_assoc. reflexivity.
  - intros holder id e Hl Hh Hne -> Hd. unfold lock. cbn [lock_rec]. rewrite Hl.
    rewrite !count_calls_snoc. cbn. rewrite !Nat.add_0_r, Hh.
    rewrite decide_False by assumption. rewrite Hd.
    rewrite <- !app_assoc. reflexivity.
Qed.

Lemma lock_fails_without_retry_witness :
  lock lockHolderStays "lock/web" true []
  = Some (Some (ErrDestroyFailed "session-7" "lock/web"
                  (errOther "permission denied")),
          [CallLock "lock/web"; CallLockHolder "lock/web";
           CallDestroyLockHolder "id-7"]).
Proof.
  apply (proj2 (proj2 (lock_fails_without_retry lockHolderStays "lock/web"
                         true [])) "session-7" "id-7").
  - reflexivity.
  - reflexivity.
  - discriminate.
  - reflexivity.
  - reflexivity.
Defined.

(** X7. [lockHosts] always returns.  It creates one session; if that fails
    the error is passed on and nothing else is called.  Otherwise it returns
    what [lock] returns for the replication lock path of the manifest's pod:
    on success the session is left alive, and on error the session is
    destroyed as the last call. *)
Theorem lockHosts_destroys_session_on_error
    (ReplicationLockPath : PodID -> string) (env : lock_env)
    (r : replication) (override : bool) (lockMessage : string)
    (tr : list call) :
  exists res tr',
    lockHosts ReplicationLockPath env r override lockMessage tr
    = Some (res, tr') /\
    count_calls is_CallNewSession tr'
    = S (count_calls is_CallNewSession tr) /\
    (forall e, ans_NewSession env = Some e ->
               res = Some (ErrPassed e) /\
               tr' = tr ++ [CallNewSession lockMessage]) /\
    (ans_NewSession env = None ->
     exists tr0,
       lock env (ReplicationLockPath (man_ID (GetManifest r))) override
         (tr ++ [CallNewSession lockMessage]) = Some (res, tr0) /\
       (res = None ->
        tr' = tr0 /\
        count_calls is_CallSessionDestroy tr'
        = count_calls is_CallSessionDestroy tr) /\
       (res <> None ->
        tr' = tr0 ++ [CallSessionDestroy] /\
        count_calls is_CallSessionDestroy tr'
        = S (count_calls is_CallSessionDestroy tr))).
Proof.
  unfold lockHosts.
  assert (Hnot : forall calls,
            Forall (fun c => isLockCall c = true) calls ->
            count_calls is_CallNewSession calls = 0%nat /\
            count_calls is_CallSessionDestroy calls = 0%nat).
  { intros calls H. induction H as [|c calls Hc _ [IH1 IH2]]; [split; reflexivity|].
    rewrite !count_calls_cons, IH1, IH2.
    destruct c; try discriminate; split; reflexivity. }
  destruct (ans_NewSession env) as [e|].
  - eexists _, _. split; [reflexivity|].
    rewrite count_calls_snoc. cbn. split; [lia|].
    split; [|discriminate]. intros e' He. inversion He; subst. auto.
  - destruct (lock_trace env (ReplicationLockPath (man_ID (GetManifest r)))
                override (tr ++ [CallNewSession lockMessage]))
      as (res & calls & Hl & Hc & _).
    destruct (Hnot calls Hc) as [Hn Hd].
    rewrite Hl. destruct res as [e|].
    + eexists _, _. split; [reflexivity|].
      rewrite !count_calls_app, Hn, Hd, ?count_calls_cons, ?count_calls_nil.
      cbn.
      split; [lia|]. split; [discriminate|]. intros _.
      eexists. split; [reflexivity|]. split; [discriminate|].
      intros _. split; [reflexivity | lia].
    + eexists _, _. split; [reflexivity|].
      rewrite !count_calls_app, Hn, Hd, ?count_calls_cons, ?count_calls_nil.
      cbn.
      split; [lia|]. split; [discriminate|]. intros _.
      eexists. split; [reflexivity|]. split; [|congruence].
      intros _. split; [reflexivity | lia].
Qed.

(** ** Manifest swaps, cancellation and the aggregator's queries *)

(** X8. [SetManifest] touches only the manifest and the counter.  Setting
    the same manifest twice is the same as setting it once.  After two swaps
    the counter is kept only if neither swap changed the hash: going to
    another hash and back to the first leaves the counter at 0.  A swap to a
    manifest with the same hash keeps the counter even when the manifest
    itself differs. *)
Theorem SetManifest_composes (m1 m2 : Manifest) (r : replication) :
  (active (SetManifest m1 r) = active r /\
   nodes (SetManifest m1 r) = nodes r /\
   threshold (SetManifest m1 r) = threshold r /\
   podLabels (SetManifest m1 r) = podLabels r /\
   timeout (SetManifest m1 r) = timeout r /\
   timedOutReplications (SetManifest m1 r) = timedOutReplications r /\
   nodeQueue (SetManifest m1 r) = nodeQueue r /\
   replicationCancelledCh (SetManifest m1 r) = replicationCancelledCh r /\
   quitCh (SetManifest m1 r) = quitCh r /\
   errCh (SetManifest m1 r) = errCh r /\
   log (SetManifest m1 r) = log r) /\
  SetManifest m1 (SetManifest m1 r) = SetManifest m1 r /\
  CompletedCount (SetManifest m2 (SetManifest m1 r))
  = (if decide (man_SHA (GetManifest r) = man_SHA m1 /\ man_SHA m1 = man_SHA m2)
     then CompletedCount r else 0) /\
  (man_SHA m1 <> man_SHA (GetManifest r) ->
   GetManifest (SetManifest (GetManifest r) (SetManifest m1 r)) = GetManifest r /\
   CompletedCount (SetManifest (GetManifest r) (SetManifest m1 r)) = 0) /\
  (man_SHA m1 = man_SHA (GetManifest r) ->
   SetManifest m1 r = set_manifest m1 r).
Proof.
  unfold SetManifest, CompletedCount, GetManifest.
  split; [|split; [|split; [|split]]].
  - destruct (decide _); cbn; repeat split; reflexivity.
  - destruct (decide (man_SHA (manifest r) = man_SHA m1)); cbn;
      rewrite decide_True by reflexivity; reflexivity.
  - destruct (decide (man_SHA (manifest r) = man_SHA m1)) as [E1|E1]; cbn;
      destruct (decide (man_SHA m1 = man_SHA m2)) as [E2|E2]; cbn;
      destruct (decide (_ /\ _)) as [[E3 E4]|E3]; try reflexivity;
      try contradiction.
    exfalso. apply E3. split; assumption.
  - intros Hne. split; [reflexivity|].
    destruct (decide (man_SHA (manifest r) = man_SHA m1)) as [E|E];
      [congruence|]. cbn.
    destruct (decide _); reflexivity.
  - intros He. rewrite decide_True by congruence. reflexivity.
Qed.

(** X9. A [Cancel] that returns leaves the manifest, the counter, the
    timeout and [quitCh] as they were, so [InProgress] and [CompletedCount]
    do not change.  On a replication built without a node queue the
    cancellation channel is closed afterwards and a second [Cancel] panics on
    the closed channel; with a node queue any number of calls change
    nothing. *)
Theorem Cancel_twice (r r' : replication) :
  Cancel r = Some r' ->
  InProgress r' = InProgress r /\
  CompletedCount r' = CompletedCount r /\
  GetManifest r' = GetManifest r /\
  timeout r' = timeout r /\
  nodeQueue r' = nodeQueue r /\
  (nodeQueue r = None ->
   replicationCancelledCh r' = ChClosed /\ Cancel r' = None) /\
  (nodeQueue r <> None -> Cancel r' = Some r').
Proof.
  unfold Cancel. intros H.
  destruct (nodeQueue r) as [q|] eqn:Hq.
  - inversion H; subst. rewrite Hq.
    repeat split; try reflexivity; discriminate.
  - destruct (replicationCancelledCh r) eqn:Hc; inversion H; subst.
    cbn. rewrite Hq. repeat split; try reflexivity; congruence.
Qed.

Lemma Cancel_twice_witness :
  exists r',
    Cancel (replicationOf 2 ["a"; "b"] NoTimeout None) = Some r' /\
    replicationCancelledCh r' = ChClosed /\
    Cancel r' = None.
Proof.
  eexists. split; [reflexivity|].
  apply (Cancel_twice (replicationOf 2 ["a"; "b"] NoTimeout None));
    reflexivity.
Defined.

Lemma numOfHealth_app p s hosts1 hosts2 :
  numOfHealth p s (hosts1 ++ hosts2)
  = numOfHealth p s hosts1 + numOfHealth p s hosts2.
Proof.
  induction hosts1 as [|h hosts1 IH]; simpl; [lia|].
  destruct (GetHealth p h) as [res ok]. rewrite IH. lia.
Qed.

(** X10. The count queries.  A count lies between 0 and the number of hosts
    asked about, a host listed twice being counted twice; it is 0 on an
    aggregator without a map; a count over a concatenation is the sum of the
    counts; counts for two different states never add up to more than the
    number of hosts; and a count equals the number of hosts exactly when
    every host has an entry in that state. *)
Theorem numOfHealth_bounds (p : podHealth) (s s' : HealthState)
    (hosts hosts' : list NodeName) :
  0 <= numOfHealth p s hosts <= Z.of_nat (length hosts) /\
  (curHealth p = None -> numOfHealth p s hosts = 0) /\
  numOfHealth p s (hosts ++ hosts')
  = numOfHealth p s hosts + numOfHealth p s hosts' /\
  numOfHealth p s (hosts ++ hosts) = 2 * numOfHealth p s hosts /\
  (s <> s' ->
   numOfHealth p s hosts + numOfHealth p s' hosts <= Z.of_nat (length hosts)) /\
  (numOfHealth p s hosts = Z.of_nat (length hosts) <->
   Forall (fun h => exists res, GetHealth p h = (res, true) /\
                                res_Status res = s) hosts).
Proof.
  assert (Hb : forall st l, 0 <= numOfHealth p st l <= Z.of_nat (length l)).
  { intros st l. induction l as [|h l IH]; simpl; [lia|].
    destruct (GetHealth p h) as [res ok].
    destruct (ok && bool_decide (res_Status res = st)); lia. }
  split; [apply Hb|]. split; [|split; [|split; [|split]]].
  - intros Hn. induction hosts as [|h hosts IH]; simpl; [reflexivity|].
    unfold GetHealth at 1. rewrite Hn. simpl. assumption.
  - apply numOfHealth_app.
  - rewrite numOfHealth_app. lia.
  - intros Hne. induction hosts as [|h hosts IH]; simpl; [lia|].
    destruct (GetHealth p h) as [res ok].
    destruct ok; simpl; [|lia].
    repeat case_bool_decide; try lia. congruence.
  - induction hosts as [|h hosts IH]; simpl.
    + split; [constructor | reflexivity].
    + pose proof (Hb s hosts) as Hbs.
      destruct (GetHealth p h) as [res ok] eqn:Hg. split.
      * intros H.
        destruct ok; simpl in H; [|lia].
        case_bool_decide; [|lia].
        constructor; [eauto|]. apply IH. lia.
      * intros H. inversion H as [|? ? (res' & Hr & Hs) Hrest].
        rewrite Hg in Hr. injection Hr as <- ->. simpl.
        rewrite bool_decide_eq_true_2 by assumption.
        apply IH in Hrest. lia.
Qed.

(** X11. The four named counts of an aggregator never add up to more than
    the number of hosts; they add up to it when every host has an entry in
    one of the four named states. *)
Theorem health_counts_partition (p : podHealth) (hosts : list NodeName) :
  NumHealthyOf p hosts + NumUnhealthyOf p hosts
  + NumUnknownHealthOf p hosts + NumWarningHealthOf p hosts
  <= Z.of_nat (length hosts) /\
  (Forall (fun h => exists res, GetHealth p h = (res, true) /\
                      (res_Status res = Passing \/ res_Status res = Critical \/
                       res_Status res = Unknown \/ res_Status res = Warning))
     hosts ->
   NumHealthyOf p hosts + NumUnhealthyOf p hosts
   + NumUnknownHealthOf p hosts + NumWarningHealthOf p hosts
   = Z.of_nat (length hosts)).
Proof.
  unfold NumHealthyOf, NumUnhealthyOf, NumUnknownHealthOf, NumWarningHealthOf.
  split.
  - induction hosts as [|h hosts IH]; simpl; [lia|].
    destruct (GetHealth p h) as [res ok]. destruct ok; simpl; [|lia].
    repeat case_bool_decide; try lia;
      match goal with
      | H1 : res_Status res = _, H2 : res_Status res = _ |- _ =>
          rewrite H1 in H2; discriminate
      end.
  - intros H. induction H as [|h hosts (res & Hg & Hs) _ IH]; simpl; [lia|].
    rewrite Hg. simpl.
    destruct Hs as [Hs | [Hs | [Hs | Hs]]]; rewrite Hs;
      repeat case_bool_decide; try discriminate; try congruence; lia.
Qed.

Lemma health_counts_partition_witness :
  NumHealthyOf (healthOf [("a", Passing); ("b", Critical); ("c", Passing)])
    ["a"; "b"; "c"]
  + NumUnhealthyOf (healthOf [("a", Passing); ("b", Critical); ("c", Passing)])
      ["a"; "b"; "c"]
  + NumUnknownHealthOf (healthOf [("a", Passing); ("b", Critical); ("c", Passing)])
      ["a"; "b"; "c"]
  + NumWarningHealthOf (healthOf [("a", Passing); ("b", Critical); ("c", Passing)])
      ["a"; "b"; "c"]
  = 3.
Proof.
  apply (proj2 (health_counts_partition
                  (healthOf [("a", Passing); ("b", Critical); ("c", Passing)])
                  ["a"; "b"; "c"])).
  repeat constructor.
  - exists (mkResult "check" "a" "web" Passing). split; [reflexivity | auto].
  - exists (mkResult "check" "b" "web" Critical). split; [reflexivity | auto].
  - exists (mkResult "check" "c" "web" Passing). split; [reflexivity | auto].
Defined.

(** ** Reality queries, continued *)

Lemma chosen_in_firstReady tie now slotAt :
  In (chosen tie (select_cases now slotAt))
     (firstReady (select_cases now slotAt)).
Proof.
  apply nth_mod_In, firstReady_nonempty.
Qed.

Lemma chosen_slot_time tie now t :
  chosen tie (select_cases now (Some t)) = CaseSlot ->
  Z.max now t <= now + fiveSeconds.
Proof.
  intros H. pose proof (chosen_in_firstReady tie now (Some t)) as Hin.
  rewrite H in Hin. clear H.
  unfold firstReady, select_cases, earliest, fiveSeconds, oneMinute in *.
  cbn [app map fst fold_right] in Hin.
  rewrite !filter_cons, filter_nil in Hin. cbn [fst] in Hin.
  repeat case_decide; simpl in Hin;
    repeat (destruct Hin as [Hin|Hin]; try discriminate);
    try contradiction; lia.
Qed.

Lemma chosen_five_time tie now t :
  chosen tie (select_cases now (Some t)) = CaseFiveSeconds ->
  now + fiveSeconds <= Z.max now t.
Proof.
  intros H. pose proof (chosen_in_firstReady tie now (Some t)) as Hin.
  rewrite H in Hin. clear H.
  unfold firstReady, select_cases, earliest, fiveSeconds, oneMinute in *.
  cbn [app map fst fold_right] in Hin.
  rewrite !filter_cons, filter_nil in Hin. cbn [fst] in Hin.
  repeat case_decide; simpl in Hin;
    repeat (destruct Hin as [Hin|Hin]; try discriminate);
    try contradiction; lia.
Qed.

Lemma queryReality_bound tie pod t fuel :
  forall now,
    Z.max 0 (t - now) < Z.of_nat fuel * fiveSeconds ->
    exists lines,
      queryReality tie fuel now (Some t) pod = (Some pod, lines) /\
      Z.of_nat lines * fiveSeconds <= Z.max 0 (t - now)
      <= (Z.of_nat lines + 1) * fiveSeconds.
Proof.
  induction fuel as [|fuel IH]; intros now Hf.
  - simpl in Hf. lia.
  - cbn [queryReality].
    pose proof (chosen_not_oneMinute (tie fuel) now (Some t)) as Hone.
    destruct (chosen (tie fuel) (select_cases now (Some t))) eqn:Hc;
      [| |congruence].
    + apply chosen_slot_time in Hc. exists 0%nat. split; [reflexivity|].
      unfold fiveSeconds in *. lia.
    + apply chosen_five_time in Hc.
      destruct (IH (now + fiveSeconds)) as (lines & Hq & Hl).
      { unfold fiveSeconds in *. lia. }
      rewrite Hq. exists (S lines). split; [reflexivity|].
      unfold fiveSeconds in *. lia.
Qed.

(** X12. A reality query whose slot on the semaphore becomes free at some
    moment returns, and returns what [store.Pod] answered, unchanged.  It
    gives up none of the answer, logs at most one progress line per full
    five seconds it waited, and misses at most the last of them; in
    particular a slot free within five seconds gives the answer without a
    log line. *)
Theorem queryReality_returns_store_answer
    (tie : nat -> nat) (pod : reality_result) (now t : Z) (fuel : nat) :
  Z.max 0 (t - now) < Z.of_nat fuel * fiveSeconds ->
  exists lines,
    queryReality tie fuel now (Some t) pod = (Some pod, lines) /\
    Z.of_nat lines * fiveSeconds <= Z.max 0 (t - now)
    <= (Z.of_nat lines + 1) * fiveSeconds /\
    (t - now < fiveSeconds -> lines = 0%nat).
Proof.
  intros Hf.
  destruct (queryReality_bound tie pod t fuel now Hf) as (lines & Hq & Hl).
  exists lines. split; [assumption|]. split; [assumption|].
  intros Hlt. unfold fiveSeconds in *. lia.
Qed.

Lemma queryReality_returns_store_answer_witness :
  queryReality (fun _ => 0%nat) 3 0 (Some 12000) (Some manifestV1, None)
  = (Some (Some manifestV1, None), 2%nat).
Proof.
  destruct (queryReality_returns_store_answer (fun _ => 0%nat)
              (Some manifestV1, None) 0 12000 3) as (lines & Hq & Hl & _).
  - vm_compute. reflexivity.
  - rewrite Hq. f_equal. unfold fiveSeconds in Hl. simpl in Hl. lia.
Defined.

(** ** The worker pool, continued *)

Lemma pool_step_workers_length l s s' :
  pool_step l s = Some s' -> length (p_workers s') = length (p_workers s).
Proof.
  intros Hstep.
  destruct l; simpl in Hstep;
    repeat match type of Hstep with
           | match ?x with _ => _ end = _ => destruct x eqn:?; try discriminate
           | (if ?x then _ else _) = _ => destruct x eqn:?; try discriminate
           end;
    inversion Hstep; subst; unfold detach;
    repeat match goal with
           | |- context [if ?x then _ else _] => destruct x
           end;
    simpl; rewrite ?length_insert; reflexivity.
Qed.

(** One step: what is in flight grows by no more than the slots taken, plus
    one when the step is a passing deadline. *)
Lemma pool_step_in_flight l s s' :
  pool_step l s = Some s' ->
  (in_flight s' + sum_workers worker_occupied (p_workers s)
   <= in_flight s + sum_workers worker_occupied (p_workers s')
      + (if is_deadline l then 1 else 0))%nat.
Proof.
  intros Hs. unfold in_flight.
  destruct l as [i|i| | |i|i|i| |i|k|d]; simpl in Hs; cbn [is_deadline].
  - destruct (p_workers s !! i) as [[|j|]|] eqn:Hi; try discriminate.
    destruct (p_queue s) as [|node rest]; try discriminate.
    inversion Hs; subst; clear Hs. simpl.
    pose proof (sum_workers_insert worker_running _ _ _
                  (WWaiting (mkJob node (negb (bool_decide (p_timeout s = NoTimeout)))
                               true false)) Hi) as H1.
    pose proof (sum_workers_insert worker_occupied _ _ _
                  (WWaiting (mkJob node (negb (bool_decide (p_timeout s = NoTimeout)))
                               true false)) Hi) as H2.
    simpl in H1, H2. lia.
  - destruct (p_workers s !! i) as [[|j|]|] eqn:Hi; try discriminate.
    destruct (p_queue s); try discriminate.
    destruct (p_closed s); try discriminate.
    inversion Hs; subst; clear Hs. simpl.
    pose proof (sum_workers_insert worker_running _ _ _ WExited Hi) as H1.
    pose proof (sum_workers_insert worker_occupied _ _ _ WExited Hi) as H2.
    simpl in H1, H2. lia.
  - inversion Hs; subst; clear Hs. simpl. lia.
  - inversion Hs; subst; clear Hs. simpl. lia.
  - destruct (p_workers s !! i) as [[|j|]|] eqn:Hi; try discriminate.
    destruct (job_running j) eqn:Hr; try discriminate.
    inversion Hs; subst; clear Hs. simpl.
    pose proof (sum_workers_insert worker_running _ _ _
                  (WWaiting (mkJob (job_node j) (job_deadline j) false true)) Hi) as H1.
    pose proof (sum_workers_insert worker_occupied _ _ _
                  (WWaiting (mkJob (job_node j) (job_deadline j) false true)) Hi) as H2.
    simpl in H1, H2. rewrite Hr in H1. destruct (job_ctxDone j); lia.
  - destruct (p_workers s !! i) as [[|j|]|] eqn:Hi; try discriminate.
    destruct (job_deadline j && negb (job_ctxDone j)) eqn:Hd; try discriminate.
    inversion Hs; subst; clear Hs. simpl.
    pose proof (sum_workers_insert worker_running _ _ _
                  (WWaiting (mkJob (job_node j) (job_deadline j) (job_running j) true)) Hi) as H1.
    pose proof (sum_workers_insert worker_occupied _ _ _
                  (WWaiting (mkJob (job_node j) (job_deadline j) (job_running j) true)) Hi) as H2.
    simpl in H1, H2. destruct (job_ctxDone j); lia.
  - destruct (p_workers s !! i) as [[|j|]|] eqn:Hi; try discriminate.
    destruct (job_ctxDone j) eqn:Hdone; try discriminate.
    inversion Hs; subst; clear Hs.
    pose proof (sum_workers_insert worker_running _ _ _ WIdle Hi) as H1.
    pose proof (sum_workers_insert worker_occupied _ _ _ WIdle Hi) as H2.
    simpl in H1, H2. rewrite Hdone in H2.
    unfold detach. destruct (job_running j); simpl;
      rewrite ?length_app; simpl; lia.
  - inversion Hs; subst; clear Hs. simpl. lia.
  - destruct (p_workers s !! i) as [[|j|]|] eqn:Hi; try discriminate.
    destruct (p_quit s); try discriminate.
    inversion Hs; subst; clear Hs.
    pose proof (sum_workers_insert worker_running _ _ _ WExited Hi) as H1.
    pose proof (sum_workers_insert worker_occupied _ _ _ WExited Hi) as H2.
    simpl in H1, H2.
    unfold detach. destruct (job_running j); simpl;
      rewrite ?length_app; simpl; destruct (job_ctxDone j); lia.
  - destruct (p_detached s !! k) eqn:Hk; try discriminate.
    inversion Hs; subst; clear Hs. simpl.
    pose proof (lookup_lt_Some _ _ _ Hk) as Hlt.
    rewrite length_app, length_take, length_drop. lia.
  - inversion Hs; subst; clear Hs. simpl. lia.
Qed.

Lemma pool_run_in_flight ls :
  forall s s',
    pool_run ls s = Some s' ->
    length (p_workers s') = length (p_workers s) /\
    (in_flight s' + sum_workers worker_occupied (p_workers s)
     <= in_flight s + sum_workers worker_occupied (p_workers s')
        + deadlinesPassed ls)%nat.
Proof.
  induction ls as [|l ls IH]; intros s s' Hrun; simpl in Hrun.
  - inversion Hrun; subst. unfold deadlinesPassed. simpl. lia.
  - destruct (pool_step l s) as [s1|] eqn:Hstep; [|discriminate].
    destruct (IH s1 s' Hrun) as [Hlen Hle].
    pose proof (pool_step_in_flight l s s1 Hstep) as H1.
    pose proof (pool_step_workers_length l s s1 Hstep) as H2.
    split; [congruence|].
    unfold deadlinesPassed in *. rewrite filter_cons.
    destruct (is_deadline l); simpl in *; lia.
Qed.

(** X13. With or without per-node timeouts, in every state the pool of
    [Enact] reaches, the number of [updateOne] invocations in flight is at
    most [active] plus the number of per-node deadlines that have passed so
    far, and the pool keeps exactly [active] workers. *)
Theorem in_flight_bounded_by_deadlines
    (r : replication) (ls : list label) (s : pool) :
  0 <= active r ->
  pool_run ls (pool_init r) = Some s ->
  Z.of_nat (length (p_workers s)) = active r /\
  Z.of_nat (in_flight s) <= active r + Z.of_nat (deadlinesPassed ls).
Proof.
  intros Ha Hrun.
  destruct (pool_run_in_flight ls _ _ Hrun) as [Hlen Hle].
  pose proof (sum_workers_occupied_le (p_workers s)) as Hocc.
  rewrite Hlen in Hocc |- *.
  unfold pool_init in Hocc, Hle |- *. unfold in_flight at 2 in Hle.
  simpl in Hocc, Hle |- *.
  rewrite !sum_workers_replicate_idle in Hle by reflexivity.
  rewrite length_replicate in Hocc |- *. lia.
Qed.

Lemma in_flight_bounded_by_deadlines_witness :
  exists s,
    pool_run [LTake 0; LDeadline 0; LNext 0; LTake 0; LDeadline 0; LNext 0;
              LTake 0]
      (pool_init (replicationOf 1 ["a"; "b"; "c"] 5000 None)) = Some s /\
    in_flight s = 3%nat /\
    Z.of_nat (in_flight s) <= 1 + 2.
Proof.
  eexists. split; [vm_compute; reflexivity|]. split; [vm_compute; reflexivity|].
  apply (in_flight_bounded_by_deadlines
           (replicationOf 1 ["a"; "b"; "c"] 5000 None)
           [LTake 0; LDeadline 0; LNext 0; LTake 0; LDeadline 0; LNext 0;
            LTake 0]).
  - simpl. lia.
  - vm_compute. reflexivity.
Defined.

Lemma pool_step_queue l s s' :
  pool_step l s = Some s' ->
  match l with
  | LTake _ => exists node, p_queue s = node :: p_queue s'
  | LCancelFeed => p_queue s' = []
  | _ => p_queue s' = p_queue s
  end.
Proof.
  intros Hstep.
  destruct l; simpl in Hstep;
    repeat match type of Hstep with
           | match ?x with _ => _ end = _ => destruct x eqn:?; try discriminate
           | (if ?x then _ else _) = _ => destruct x eqn:?; try discriminate
           end;
    inversion Hstep; subst; unfold detach;
    repeat match goal with
           | |- context [if ?x then _ else _] => destruct x
           end;
    simpl; eauto.
Qed.

Lemma pool_taken_prefix ls :
  forall s s',
    pool_run ls s = Some s' ->
    pool_taken ls s `prefix_of` p_queue s /\
    (Forall (fun l => is_cancelFeed l = false) ls ->
     p_queue s = pool_taken ls s ++ p_queue s').
Proof.
  induction ls as [|l ls IH]; intros s s' Hrun; simpl in Hrun |- *.
  - inversion Hrun; subst. split; [apply prefix_nil | reflexivity].
  - destruct (pool_step l s) as [s1|] eqn:Hstep; [|discriminate].
    destruct (IH s1 s' Hrun) as [Hp Hq].
    pose proof (pool_step_queue l s s1 Hstep) as Hl.
    destruct l; try (rewrite Hl in Hp, Hq; split;
                      [assumption | intros Hc; inversion Hc; subst; auto]).
    + destruct Hl as [node Hn]. rewrite Hn. split.
      * apply prefix_cons. assumption.
      * intros Hc. inversion Hc; subst. simpl. f_equal. auto.
    + split.
      * rewrite Hl in Hp. destruct Hp as [k Hk].
        destruct (pool_taken ls s1); [apply prefix_nil | discriminate].
      * intros Hc. inversion Hc; subst. discriminate.
Qed.

(** X14. Nodes are handed to the workers in queue order, each at most
    once.  The queue is the one [Enact] ranges over: the caller's node queue
    when the replication was built with one, and otherwise [r.nodes] as the
    feeder sends them.  The nodes handed out along a run are a prefix of
    that queue, and unless the queue was cut short the nodes handed out
    followed by the nodes still queued are that queue. *)
Theorem nodes_handed_out_in_order
    (r : replication) (ls : list label) (s : pool) :
  pool_run ls (pool_init r) = Some s ->
  pool_taken ls (pool_init r) `prefix_of` queuedNodes r /\
  (Forall (fun l => is_cancelFeed l = false) ls ->
   queuedNodes r = pool_taken ls (pool_init r) ++ p_queue s) /\
  (nodeQueue r = None ->
   pool_taken ls (pool_init r) `prefix_of` nodes r /\
   (Forall (fun l => is_cancelFeed l = false) ls ->
    nodes r = pool_taken ls (pool_init r) ++ p_queue s)) /\
  (forall q, nodeQueue r = Some q ->
   pool_taken ls (pool_init r) `prefix_of` q /\
   (Forall (fun l => is_cancelFeed l = false) ls ->
    q = pool_taken ls (pool_init r) ++ p_queue s)).
Proof.
  intros Hrun.
  pose proof (pool_taken_prefix ls _ _ Hrun) as H.
  change (p_queue (pool_init r)) with (queuedNodes r) in H.
  split; [exact (proj1 H)|]. split; [exact (proj2 H)|]. split.
  - intros Hq. unfold queuedNodes in H. rewrite Hq in H. exact H.
  - intros q Hq. unfold queuedNodes in H. rewrite Hq in H. exact H.
Qed.

Lemma nodes_handed_out_in_order_witness :
  (exists s,
     pool_run [LTake 1; LTake 0; LReturn 1; LNext 1; LTake 1]
       (pool_init (replicationOf 2 ["a"; "b"; "c"; "d"] NoTimeout None))
     = Some s /\
     pool_taken [LTake 1; LTake 0; LReturn 1; LNext 1; LTake 1]
       (pool_init (replicationOf 2 ["a"; "b"; "c"; "d"] NoTimeout None))
     = ["a"; "b"; "c"] /\
     ["a"; "b"; "c"; "d"] = ["a"; "b"; "c"] ++ p_queue s) /\
  (exists s,
     pool_run [LTake 0; LReturn 0]
       (pool_init (replicationOf 1 ["a"; "b"] NoTimeout (Some ["y"; "x"])))
     = Some s /\
     pool_taken [LTake 0; LReturn 0]
       (pool_init (replicationOf 1 ["a"; "b"] NoTimeout (Some ["y"; "x"])))
     = ["y"] /\
     ["y"; "x"] = ["y"] ++ p_queue s).
Proof.
  split.
  - eexists. split; [vm_compute; reflexivity|].
    split; [vm_compute; reflexivity|].
    pose proof (proj2 (proj1 (proj2 (proj2 (nodes_handed_out_in_order
                         (replicationOf 2 ["a"; "b"; "c"; "d"] NoTimeout None)
                         [LTake 1; LTake 0; LReturn 1; LNext 1; LTake 1] _
                         eq_refl))) eq_refl)) as H.
    apply H. repeat constructor.
  - eexists. split; [vm_compute; reflexivity|].
    split; [vm_compute; reflexivity|].
    pose proof (proj2 (proj2 (proj2 (proj2 (nodes_handed_out_in_order
                         (replicationOf 1 ["a"; "b"] NoTimeout
                            (Some ["y"; "x"]))
                         [LTake 0; LReturn 0] _
                         eq_refl))) ["y"; "x"] eq_refl)) as H.
    apply H. repeat constructor.
Defined.

(** ** The check for managed pods *)

Section CheckForManagedFacts.

Variable pathJoin : string -> string -> string.
Variable RCIDLabel : string.
Variable GetLabels : string -> gmap string string * option error.

Lemma managedNodes_no_failure id ns :
  forall acc,
    Forall (fun n => ~ lookupFails pathJoin GetLabels id n) ns ->
    managedNodes pathJoin RCIDLabel GetLabels id ns acc
    = inr (acc ++ filter (fun n => isManaged pathJoin RCIDLabel GetLabels id n = true) ns).
Proof.
  induction ns as [|n ns IH]; intros acc H; simpl.
  - rewrite app_nil_r. reflexivity.
  - inversion H as [|? ? Hn Hrest]; subst.
    unfold lookupFails in Hn. rewrite filter_cons.
    assert (Hm : isManaged pathJoin RCIDLabel GetLabels id n
                 = Has (fst (GetLabels (pathJoin n id))) RCIDLabel)
      by reflexivity.
    destruct (GetLabels (pathJoin n id)) as [labels [e|]]; cbn [fst snd] in *.
    + exfalso. apply Hn. discriminate.
    + rewrite IH by assumption.
      destruct (Has labels RCIDLabel).
      * rewrite decide_True by assumption. rewrite <- app_assoc. reflexivity.
      * rewrite decide_False by congruence. reflexivity.
Qed.

Lemma managedNodes_first_failure id pre n post e :
  forall acc,
    Forall (fun n => ~ lookupFails pathJoin GetLabels id n) pre ->
    snd (GetLabels (pathJoin n id)) = Some e ->
    managedNodes pathJoin RCIDLabel GetLabels id (pre ++ n :: post) acc = inl e.
Proof.
  induction pre as [|x pre IH]; intros acc H He; simpl.
  - destruct (GetLabels (pathJoin n id)) as [labels err]. simpl in He.
    rewrite He. reflexivity.
  - inversion H as [|? ? Hx Hrest]; subst. unfold lookupFails in Hx.
    destruct (GetLabels (pathJoin x id)) as [labels [ex|]]; simpl in *.
    + exfalso. apply Hx. discriminate.
    + apply IH; assumption.
Qed.

End CheckForManagedFacts.

(** X15. [checkForManaged].  When every label lookup succeeds, the result
    is nil if no node's pod carries the controller label, and otherwise one
    error naming exactly the nodes that carry it, in node order and
    separated by a comma and a space.  The first lookup that fails ends the
    check with its error, whatever was found before it and whatever nodes
    come after it. *)
Theorem checkForManaged_reports_managed_nodes
    (pathJoin : string -> string -> string) (RCIDLabel : string)
    (GetLabels : string -> gmap string string * option error)
    (r : replication) :
  let id := man_ID (GetManifest r) in
  let managed :=
    filter (fun n => isManaged pathJoin RCIDLabel GetLabels id n = true)
      (nodes r) in
  (Forall (fun n => ~ lookupFails pathJoin GetLabels id n) (nodes r) ->
   checkForManaged pathJoin RCIDLabel GetLabels r
   = match managed with
     | [] => None
     | _ :: _ => Some (errOther (managedMessage managed))
     end) /\
  (forall pre n post e,
     nodes r = pre ++ n :: post ->
     Forall (fun n => ~ lookupFails pathJoin GetLabels id n) pre ->
     snd (GetLabels (pathJoin n id)) = Some e ->
     checkForManaged pathJoin RCIDLabel GetLabels r = Some e).
Proof.
  intros id managed. subst id managed. split.
  - intros H. unfold checkForManaged.
    rewrite (managedNodes_no_failure pathJoin RCIDLabel GetLabels _ _ [] H).
    cbn [app].
    destruct (filter _ (nodes r)); reflexivity.
  - intros pre n post e Hn Hpre He. unfold checkForManaged. rewrite Hn.
    pose proof (managedNodes_first_failure pathJoin RCIDLabel GetLabels
                  _ pre n post e [] Hpre He) as Hf.
    unfold NodeName in *. rewrite Hf. reflexivity.
Qed.

Lemma checkForManaged_reports_managed_nodes_witness :
  checkForManaged samplePathJoin "replication_controller_id" labelsBD
    (replicationOf 1 ["a"; "b"; "c"; "d"] NoTimeout None)
  = Some (errOther
            "cannot replicate to nodes already manged by a controller: b, d") /\
  checkForManaged samplePathJoin "replication_controller_id" labelsFailC
    (replicationOf 1 ["a"; "b"; "c"; "d"] NoTimeout None)
  = Some (errOther "labels unavailable").
Proof.
  split.
  - rewrite (proj1 (checkForManaged_reports_managed_nodes samplePathJoin
                      "replication_controller_id" labelsBD
                      (replicationOf 1 ["a"; "b"; "c"; "d"] NoTimeout None))).
    + vm_compute. reflexivity.
    + repeat constructor; vm_compute; intros H; apply H; reflexivity.
  - apply (proj2 (checkForManaged_reports_managed_nodes samplePathJoin
                    "replication_controller_id" labelsFailC
                    (replicationOf 1 ["a"; "b"; "c"; "d"] NoTimeout None))
             ["a"; "b"] "c" ["d"]).
    + reflexivity.
    + repeat constructor; vm_compute; intros H; apply H; reflexivity.
    + vm_compute. reflexivity.
Defined.

(** ** The end of a replication *)

(** X16. [handleReplicationEnd] and the errors of the controller.  However
    the replication ended, the handler, once its send on [errCh] and its
    wait for [Enact] are through, closes [quitCh] and then [errCh],
    each once, after everything else it does except stopping the rate
    limiter and destroying the session, which come last and only when they
    exist.  It sends on [errCh] only when the session was lost: one value,
    sent before [errCh] is closed.  Every value the handler or the failure
    path of [Enact] sends is a [replicationError] for which [IsFatalError]
    holds, while [IsFatalError] is false for any other error.  The handler
    waits for [Enact] only on a cancellation after [Enact] was started. *)
Theorem handleReplicationEnd_closes_channels
    (hasRateLimiter hasSession : bool) (cause : end_cause)
    (err : error) (quitFirst : bool) :
  let effs := handleReplicationEnd hasRateLimiter hasSession cause in
  (exists body,
     effs = body ++ [EffCloseQuit; EffCloseErrCh]
                 ++ (if hasRateLimiter then [EffStopRateLimiter] else [])
                 ++ (if hasSession then [EffDestroySession] else []) /\
     (EffCloseQuit ∉ body) /\ (EffCloseErrCh ∉ body) /\
     sentErrors effs = sentErrors body) /\
  sentErrors effs
  = match cause with
    | EndRenewalErr e => [ReplicationError (mkReplicationError e true)]
    | _ => []
    end /\
  Forall (fun v => IsFatalError v = true) (sentErrors effs) /\
  Forall (fun v => IsFatalError v = true)
    (sentErrors (Enact_healthFailure err quitFirst)) /\
  IsFatalError (PlainError err) = false /\
  ((EffWaitEnacted ∈ effs) <-> cause = EndCancelled true).
Proof.
  intros effs. subst effs. unfold handleReplicationEnd.
  split; [|split; [|split; [|split; [|split]]]].
  - eexists. split; [reflexivity|].
    destruct cause as [|[]|e]; destruct hasRateLimiter, hasSession; cbn;
      repeat split; try reflexivity;
      intros H; repeat (apply elem_of_cons in H as [H|H]; try discriminate);
      inversion H.
  - destruct cause as [|[]|e]; destruct hasRateLimiter, hasSession; reflexivity.
  - destruct cause as [|[]|e]; destruct hasRateLimiter, hasSession; cbn;
      repeat constructor.
  - destruct quitFirst; cbn; repeat constructor.
  - reflexivity.
  - destruct cause as [|[]|e]; destruct hasRateLimiter, hasSession; cbn;
      (split; [intros H; repeat (apply elem_of_cons in H as [H|H]; try discriminate);
               try reflexivity; inversion H
              | intros H; try discriminate; set_solver]).
Qed.

(** ** The rollout orderer, continued *)

(** Go's [<] on strings is a strict total order. *)
Lemma ascii_compare_lt_trans a b c :
  Ascii.compare a b = Lt -> Ascii.compare b c = Lt -> Ascii.compare a c = Lt.
Proof.
  unfold Ascii.compare. rewrite !N.compare_lt_iff. apply N.lt_trans.
Qed.

Lemma string_compare_lt_trans a :
  forall b c,
    String.compare a b = Lt -> String.compare b c = Lt ->
    String.compare a c = Lt.
Proof.
  induction a as [|x a IH]; intros [|y b] [|z c]; simpl; try congruence.
  destruct (Ascii.compare x y) eqn:Exy; try discriminate;
    destruct (Ascii.compare y z) eqn:Eyz; try discriminate; intros H1 H2.
  - apply Ascii.compare_eq_iff in Exy, Eyz. subst.
    assert (Hr : Ascii.compare z z = Eq).
    { pose proof (Ascii.compare_antisym z z) as Ha.
      destruct (Ascii.compare z z); simpl in Ha; congruence. }
    rewrite Hr. eapply IH; eassumption.
  - apply Ascii.compare_eq_iff in Exy. subst. rewrite Eyz. reflexivity.
  - apply Ascii.compare_eq_iff in Eyz. subst. rewrite Exy. reflexivity.
  - rewrite (ascii_compare_lt_trans x y z Exy Eyz). reflexivity.
Qed.

Lemma string_lt_irrefl a : Rollout.string_lt a a = false.
Proof.
  unfold Rollout.string_lt, String.ltb.
  pose proof (String.compare_antisym a a) as H.
  destruct (String.compare a a); simpl in H; congruence.
Qed.

Lemma string_lt_trans a b c :
  Rollout.string_lt a b = true -> Rollout.string_lt b c = true ->
  Rollout.string_lt a c = true.
Proof.
  unfold Rollout.string_lt, String.ltb.
  destruct (String.compare a b) eqn:E1; try discriminate.
  destruct (String.compare b c) eqn:E2; try discriminate.
  rewrite (string_compare_lt_trans a b c E1 E2). reflexivity.
Qed.

Lemma string_lt_asym a b :
  Rollout.string_lt a b = true -> Rollout.string_lt b a = false.
Proof.
  unfold Rollout.string_lt, String.ltb.
  rewrite (String.compare_antisym b a).
  destruct (String.compare a b); simpl; congruence.
Qed.

Lemma string_lt_total a b :
  a <> b -> Rollout.string_lt a b = true \/ Rollout.string_lt b a = true.
Proof.
  unfold Rollout.string_lt, String.ltb. intros Hne.
  rewrite (String.compare_antisym b a).
  destruct (String.compare a b) eqn:E; simpl; auto.
  apply String.compare_eq_iff in E. contradiction.
Qed.

(** When a first string is not below a second and the second not below a
    third, the first is not below the third. *)
Lemma string_lt_neg_trans a b c :
  Rollout.string_lt a b = false -> Rollout.string_lt b c = false ->
  Rollout.string_lt a c = false.
Proof.
  intros H1 H2.
  destruct (Rollout.string_lt a c) eqn:Hac; [|reflexivity].
  destruct (decide (a = b)) as [->|Hab]; [congruence|].
  destruct (string_lt_total a b Hab) as [H|H]; [congruence|].
  rewrite (string_lt_trans b a c H Hac) in H2. discriminate.
Qed.

Section RolloutFacts.

Variable ForNode :
  string -> option Rollout.ServiceNodeStatus * option Rollout.status_error.

Lemma Less_with_status i j :
  hasStatus ForNode i -> hasStatus ForNode j ->
  Rollout.Less ForNode i j = Some (keyLt ForNode i j).
Proof.
  intros [si Hi] [sj Hj].
  unfold Rollout.Less, keyLt, healthyOf. rewrite Hi, Hj. simpl.
  destruct (Rollout.Healthy si), (Rollout.Healthy sj); simpl;
    try reflexivity;
    destruct (Rollout.string_lt (Rollout.Name i) (Rollout.Name j));
    reflexivity.
Qed.

Lemma keyLt_irrefl i : keyLt ForNode i i = false.
Proof.
  unfold keyLt. rewrite string_lt_irrefl.
  destruct (healthyOf ForNode i); reflexivity.
Qed.

Lemma keyLt_asym i j :
  keyLt ForNode i j = true -> keyLt ForNode j i = false.
Proof.
  unfold keyLt.
  destruct (healthyOf ForNode i), (healthyOf ForNode j); simpl;
    try discriminate; try reflexivity; apply string_lt_asym.
Qed.

Lemma keyLt_trans i j k :
  keyLt ForNode i j = true -> keyLt ForNode j k = true ->
  keyLt ForNode i k = true.
Proof.
  unfold keyLt.
  destruct (healthyOf ForNode i), (healthyOf ForNode j),
    (healthyOf ForNode k); simpl; try discriminate; try reflexivity;
    apply string_lt_trans.
Qed.

Lemma keyLt_neg_trans i j k :
  keyLt ForNode i j = false -> keyLt ForNode j k = false ->
  keyLt ForNode i k = false.
Proof.
  unfold keyLt.
  destruct (healthyOf ForNode i), (healthyOf ForNode j),
    (healthyOf ForNode k); simpl; try discriminate; try reflexivity;
    apply string_lt_neg_trans.
Qed.

Lemma keyLt_total i j :
  Rollout.Name i <> Rollout.Name j ->
  keyLt ForNode i j = true \/ keyLt ForNode j i = true.
Proof.
  unfold keyLt. intros Hne.
  destruct (healthyOf ForNode i), (healthyOf ForNode j); simpl; auto;
    apply string_lt_total; assumption.
Qed.

End RolloutFacts.

(** X17. [Less] on nodes whose status lookup succeeds.  It never panics;
    it is true exactly when the first node is unhealthy and the second
    healthy, or both have the same health and the first name is below the
    second; and it is a strict order: never true of a node and itself, never
    true in both directions, transitive, and deciding between any two nodes
    of different names. *)
Theorem Less_is_strict_order_on_statuses
    (ForNode : string -> option Rollout.ServiceNodeStatus * option Rollout.status_error)
    (i j k : Rollout.Node) :
  hasStatus ForNode i -> hasStatus ForNode j -> hasStatus ForNode k ->
  Rollout.Less ForNode i j = Some (keyLt ForNode i j) /\
  Rollout.Less ForNode i i = Some false /\
  (Rollout.Less ForNode i j = Some true ->
   Rollout.Less ForNode j i = Some false) /\
  (Rollout.Less ForNode i j = Some true ->
   Rollout.Less ForNode j k = Some true ->
   Rollout.Less ForNode i k = Some true) /\
  (Rollout.Name i <> Rollout.Name j ->
   Rollout.Less ForNode i j = Some true \/
   Rollout.Less ForNode j i = Some true).
Proof.
  intros Hi Hj Hk.
  rewrite !Less_with_status by assumption.
  split; [reflexivity|]. split; [rewrite keyLt_irrefl; reflexivity|].
  split; [|split].
  - intros H. injection H as H. f_equal. apply keyLt_asym. assumption.
  - intros H1 H2. injection H1 as H1. injection H2 as H2. f_equal.
    eapply keyLt_trans; eassumption.
  - intros Hne. destruct (keyLt_total ForNode i j Hne) as [H|H];
      rewrite H; auto.
Qed.

Lemma Less_is_strict_order_on_statuses_witness :
  Rollout.Less statusAll (Rollout.mkNode "c" false) (Rollout.mkNode "b" true)
  = Some true /\
  Rollout.Less statusAll (Rollout.mkNode "b" true) (Rollout.mkNode "c" false)
  = Some false.
Proof.
  assert (Hs : forall n, hasStatus statusAll n)
    by (intros n; eexists; reflexivity).
  destruct (Less_is_strict_order_on_statuses statusAll
              (Rollout.mkNode "c" false) (Rollout.mkNode "b" true)
              (Rollout.mkNode "b" true) (Hs _) (Hs _) (Hs _))
    as (H1 & _ & H3 & _).
  assert (Ht : Rollout.Less statusAll (Rollout.mkNode "c" false)
                 (Rollout.mkNode "b" true) = Some true)
    by (rewrite H1; vm_compute; reflexivity).
  split; [exact Ht | exact (H3 Ht)].
Defined.

Section SortFacts.

Variable ForNode :
  string -> option Rollout.ServiceNodeStatus * option Rollout.status_error.

Lemma insertLeft_perm x sorted :
  forall l, Rollout.insertLeft ForNode x sorted = Some l ->
            Permutation (x :: sorted) l.
Proof.
  induction sorted as [|y ys IH]; intros l H; simpl in H.
  - inversion H; subst. reflexivity.
  - destruct (Rollout.Less ForNode x y) as [[|]|]; try discriminate.
    + destruct (Rollout.insertLeft ForNode x ys) as [zs|]; [|discriminate].
      inversion H; subst. rewrite perm_swap. constructor. apply IH. reflexivity.
    + inversion H; subst. reflexivity.
Qed.

Lemma insertionSort_perm todo :
  forall sorted l,
    Rollout.insertionSort ForNode sorted todo = Some l ->
    Permutation (sorted ++ todo) l.
Proof.
  induction todo as [|x rest IH]; intros sorted l H; simpl in H.
  - inversion H; subst. rewrite app_nil_r. apply Permutation_rev.
  - destruct (Rollout.insertLeft ForNode x sorted) as [sorted'|] eqn:Hi;
      [|discriminate].
    apply IH in H. apply insertLeft_perm in Hi.
    rewrite <- H, <- Hi. symmetry. apply Permutation_middle.
Qed.

Lemma insertLeft_sorted x sorted :
  hasStatus ForNode x -> Forall (hasStatus ForNode) sorted ->
  StronglySorted (fun a b => keyLt ForNode a b = false) sorted ->
  exists l, Rollout.insertLeft ForNode x sorted = Some l /\
            StronglySorted (fun a b => keyLt ForNode a b = false) l.
Proof.
  intros Hx Hs Hsorted.
  induction sorted as [|y ys IH]; simpl.
  - eexists. split; [reflexivity|]. repeat constructor.
  - inversion Hs as [|? ? Hy Hys]; subst.
    apply StronglySorted_inv in Hsorted as [Hss Hall].
    rewrite (Less_with_status ForNode x y Hx Hy).
    destruct (keyLt ForNode x y) eqn:Hxy.
    + destruct (IH Hys Hss) as (zs & Hz & Hzs). rewrite Hz.
      eexists. split; [reflexivity|]. constructor; [assumption|].
      apply insertLeft_perm in Hz.
      rewrite <- Hz. constructor; [|assumption].
      apply keyLt_asym. assumption.
    + eexists. split; [reflexivity|]. constructor.
      * constructor; assumption.
      * constructor; [assumption|].
        eapply Forall_impl; [exact Hall|]. intros z Hz.
        eapply keyLt_neg_trans; eassumption.
Qed.

Lemma StronglySorted_snoc {A} (R : A -> A -> Prop) l a :
  StronglySorted R l -> Forall (fun x => R x a) l ->
  StronglySorted R (l ++ [a]).
Proof.
  induction 1 as [|x l Hl IH Hx]; intros Ha; simpl.
  - repeat constructor.
  - inversion Ha; subst. constructor; [apply IH; assumption|].
    apply Forall_app. split; [assumption|]. repeat constructor. assumption.
Qed.

Lemma StronglySorted_rev {A} (R : A -> A -> Prop) l :
  StronglySorted R l -> StronglySorted (fun x y => R y x) (rev l).
Proof.
  induction 1 as [|x l Hl IH Hx]; simpl.
  - constructor.
  - apply StronglySorted_snoc; [assumption|].
    apply Forall_rev. assumption.
Qed.

Lemma insertionSort_sorted todo :
  forall sorted,
    Forall (hasStatus ForNode) sorted -> Forall (hasStatus ForNode) todo ->
    StronglySorted (fun a b => keyLt ForNode a b = false) sorted ->
    exists l, Rollout.insertionSort ForNode sorted todo = Some l /\
              StronglySorted (fun x y => keyLt ForNode y x = false) l.
Proof.
  induction todo as [|x rest IH]; intros sorted Hs Ht Hsorted; simpl.
  - eexists. split; [reflexivity|]. apply StronglySorted_rev. assumption.
  - inversion Ht as [|? ? Hx Hrest]; subst.
    destruct (insertLeft_sorted x sorted Hx Hs Hsorted) as (s' & Hi & Hs').
    rewrite Hi. apply IH; [|assumption|assumption].
    apply insertLeft_perm in Hi. rewrite <- Hi. constructor; assumption.
Qed.

(** The order of the result, on nodes that all have a status. *)
Lemma getRolloutOrder_sorted_key ns :
  Forall (hasStatus ForNode) ns ->
  exists l, Rollout.getRolloutOrder ForNode ns = Some l /\
            Permutation ns l /\
            Forall (hasStatus ForNode) l /\
            StronglySorted (fun x y => keyLt ForNode y x = false) l.
Proof.
  intros Hs. unfold Rollout.getRolloutOrder.
  destruct (insertionSort_sorted ns [] ltac:(constructor) Hs ltac:(constructor))
    as (l & Hl & Hsorted).
  exists l. split; [assumption|].
  pose proof (insertionSort_perm ns [] l Hl) as Hp. simpl in Hp.
  split; [assumption|]. split; [rewrite <- Hp; assumption | assumption].
Qed.

End SortFacts.

(** X18. On nodes that all have a status [getRolloutOrder] returns, and
    the order it returns holds the same nodes as the input; in it no node
    has to come before an earlier one by [Less], no healthy node precedes an
    unhealthy one, and among nodes of the same health the names never
    descend. *)
Theorem getRolloutOrder_sorts_nodes_with_status
    (ForNode : string -> option Rollout.ServiceNodeStatus * option Rollout.status_error)
    (ns : list Rollout.Node) :
  Forall (hasStatus ForNode) ns ->
  exists l,
    Rollout.getRolloutOrder ForNode ns = Some l /\
    Permutation ns l /\
    inRolloutOrder ForNode l /\
    StronglySorted
      (fun x y =>
         (healthyOf ForNode x = true -> healthyOf ForNode y = true) /\
         (healthyOf ForNode x = healthyOf ForNode y ->
          Rollout.string_lt (Rollout.Name y) (Rollout.Name x) = false)) l.
Proof.
  intros Hs.
  destruct (getRolloutOrder_sorted_key ForNode ns Hs) as (l & Hl & Hp & Hst & Hsorted).
  exists l. split; [assumption|]. split; [assumption|].
  clear Hl Hp Hs. unfold inRolloutOrder.
  induction Hsorted as [|x l Hsorted IH Hall]; [split; constructor|].
  inversion Hst as [|? ? Hx Hrest]; subst.
  destruct (IH Hrest) as [IH1 IH2].
  split; constructor; try assumption.
  - rewrite Forall_forall in Hall, Hrest |- *. intros y Hy.
    rewrite (Less_with_status ForNode y x (Hrest y Hy) Hx).
    f_equal. apply Hall. assumption.
  - eapply Forall_impl; [exact Hall|]. intros y Hy. unfold keyLt in Hy.
    destruct (healthyOf ForNode x), (healthyOf ForNode y); simpl in Hy;
      split; intros; try congruence.
Qed.

Lemma getRolloutOrder_sorts_nodes_with_status_witness :
  Rollout.getRolloutOrder statusAll
    [Rollout.mkNode "d" false; Rollout.mkNode "c" false;
     Rollout.mkNode "b" true; Rollout.mkNode "a" false]
  = Some [Rollout.mkNode "a" false; Rollout.mkNode "c" false;
          Rollout.mkNode "b" true; Rollout.mkNode "d" false] /\
  inRolloutOrder statusAll
    [Rollout.mkNode "a" false; Rollout.mkNode "c" false;
     Rollout.mkNode "b" true; Rollout.mkNode "d" false].
Proof.
  destruct (getRolloutOrder_sorts_nodes_with_status statusAll
              [Rollout.mkNode "d" false; Rollout.mkNode "c" false;
               Rollout.mkNode "b" true; Rollout.mkNode "a" false])
    as (l & Hl & _ & Hs & _).
  - repeat constructor; eexists; reflexivity.
  - assert (He : Rollout.getRolloutOrder statusAll
                   [Rollout.mkNode "d" false; Rollout.mkNode "c" false;
                    Rollout.mkNode "b" true; Rollout.mkNode "a" false]
                 = Some [Rollout.mkNode "a" false; Rollout.mkNode "c" false;
                         Rollout.mkNode "b" true; Rollout.mkNode "d" false])
      by (vm_compute; reflexivity).
    split; [exact He|].
    rewrite He in Hl. injection Hl as <-. exact Hs.
Defined.

(** X19. When the snapshot reports every node healthy, the rollout order
    is the input ordered by node name: the same nodes, with names that never
    descend. *)
Theorem all_healthy_gives_name_order
    (ForNode : string -> option Rollout.ServiceNodeStatus * option Rollout.status_error)
    (ns : list Rollout.Node) :
  Forall (fun n => exists st, ForNode (Rollout.Name n) = (Some st, None) /\
                              Rollout.Healthy st = true) ns ->
  exists l,
    Rollout.getRolloutOrder ForNode ns = Some l /\
    Permutation ns l /\
    StronglySorted (fun a b => Rollout.string_lt b a = false)
      (map Rollout.Name l).
Proof.
  intros Hh.
  assert (Hs : Forall (hasStatus ForNode) ns).
  { eapply Forall_impl; [exact Hh|]. intros n (st & Hst & _). exists st. exact Hst. }
  assert (Hall : Forall (fun n => healthyOf ForNode n = true) ns).
  { eapply Forall_impl; [exact Hh|]. intros n (st & Hst & Hy).
    unfold healthyOf. rewrite Hst. exact Hy. }
  destruct (getRolloutOrder_sorted_key ForNode ns Hs) as (l & Hl & Hp & _ & Hsorted).
  exists l. split; [assumption|]. split; [assumption|].
  rewrite Hp in Hall. clear Hl Hp Hs Hh.
  induction Hsorted as [|x l Hsorted IH Hx]; simpl; [constructor|].
  inversion Hall as [|? ? Hhx Hrest]; subst.
  constructor; [apply IH; assumption|].
  apply Forall_map. rewrite Forall_forall in Hx, Hrest |- *.
  intros y Hy. specialize (Hx y Hy). specialize (Hrest y Hy).
  unfold keyLt in Hx. rewrite Hhx, Hrest in Hx. simpl in Hx. exact Hx.
Qed.

Lemma all_healthy_gives_name_order_witness :
  Rollout.getRolloutOrder statusAllHealthy
    [Rollout.mkNode "host3.domain" false; Rollout.mkNode "host1.domain" false;
     Rollout.mkNode "host2.domain" false]
  = Some [Rollout.mkNode "host1.domain" false; Rollout.mkNode "host2.domain" false;
          Rollout.mkNode "host3.domain" false].
Proof.
  destruct (all_healthy_gives_name_order statusAllHealthy
              [Rollout.mkNode "host3.domain" false;
               Rollout.mkNode "host1.domain" false;
               Rollout.mkNode "host2.domain" false])
    as (l & Hl & _ & _).
  - repeat constructor; eexists; split; reflexivity.
  - rewrite Hl. vm_compute in Hl. injection Hl as <-. reflexivity.
Defined.

(** X20. Whatever the status lookup answers, an order that
    [getRolloutOrder] returns holds exactly the nodes of the input, each as
    often as the input does. *)
Theorem getRolloutOrder_permutes
    (ForNode : string -> option Rollout.ServiceNodeStatus * option Rollout.status_error)
    (ns l : list Rollout.Node) :
  Rollout.getRolloutOrder ForNode ns = Some l ->
  Permutation ns l /\ length l = length ns.
Proof.
  intros H. unfold Rollout.getRolloutOrder in H.
  apply insertionSort_perm in H. simpl in H.
  split; [assumption|]. symmetry. apply Permutation_length. assumption.
Qed.

Lemma getRolloutOrder_permutes_witness :
  Rollout.getRolloutOrder statusOnlyA [nodeA; nodeB] = Some [nodeB; nodeA] /\
  Permutation [nodeA; nodeB] [nodeB; nodeA].
Proof.
  split; [reflexivity|].
  apply (getRolloutOrder_permutes statusOnlyA [nodeA; nodeB] [nodeB; nodeA]).
  reflexivity.
Defined.

Section NoStatusFacts.

Variable ForNode :
  string -> option Rollout.ServiceNodeStatus * option Rollout.status_error.

Lemma Less_noStatus_status i y :
  noStatus ForNode i -> hasStatus ForNode y ->
  Rollout.Less ForNode i y = Some true /\
  Rollout.Less ForNode y i = Some false.
Proof.
  intros Hi [st Hy]. unfold noStatus in Hi.
  unfold Rollout.Less. rewrite Hi, Hy. split; reflexivity.
Qed.

Lemma Less_noStatus_both i j :
  noStatus ForNode i -> noStatus ForNode j ->
  Rollout.Less ForNode j i = None.
Proof.
  intros Hi Hj. unfold noStatus in *.
  unfold Rollout.Less. rewrite Hi, Hj. reflexivity.
Qed.

Lemma insertLeft_status_total x ss :
  hasStatus ForNode x -> Forall (hasStatus ForNode) ss ->
  exists l, Rollout.insertLeft ForNode x ss = Some l /\
            Forall (hasStatus ForNode) l.
Proof.
  intros Hx Hs. induction Hs as [|y ys Hy Hys IH]; simpl.
  - eexists. split; [reflexivity|]. repeat constructor. assumption.
  - rewrite (Less_with_status ForNode x y Hx Hy).
    destruct (keyLt ForNode x y).
    + destruct IH as (l & Hl & Hall). rewrite Hl.
      eexists. split; [reflexivity|]. constructor; assumption.
    + eexists. split; [reflexivity|]. repeat constructor; assumption.
Qed.

Lemma insertLeft_noStatus_last i ss :
  noStatus ForNode i -> Forall (hasStatus ForNode) ss ->
  Rollout.insertLeft ForNode i ss = Some (ss ++ [i]).
Proof.
  intros Hi Hs. induction Hs as [|y ys Hy Hys IH]; simpl; [reflexivity|].
  rewrite (proj1 (Less_noStatus_status i y Hi Hy)), IH. reflexivity.
Qed.

Lemma insertLeft_status_keeps_last i y ss :
  noStatus ForNode i -> hasStatus ForNode y ->
  Forall (hasStatus ForNode) ss ->
  exists ss', Rollout.insertLeft ForNode y (ss ++ [i]) = Some (ss' ++ [i]) /\
              Forall (hasStatus ForNode) ss'.
Proof.
  intros Hi Hy Hs. induction Hs as [|z zs Hz Hzs IH]; simpl.
  - rewrite (proj2 (Less_noStatus_status i y Hi Hy)).
    exists [y]. split; [reflexivity|]. repeat constructor. assumption.
  - rewrite (Less_with_status ForNode y z Hy Hz).
    destruct (keyLt ForNode y z).
    + destruct IH as (ss' & Hl & Hall). rewrite Hl.
      exists (z :: ss'). split; [reflexivity|]. constructor; assumption.
    + exists (y :: z :: zs). split; [reflexivity|].
      repeat constructor; assumption.
Qed.

Lemma insertLeft_second_noStatus i j ss :
  noStatus ForNode i -> noStatus ForNode j ->
  Forall (hasStatus ForNode) ss ->
  Rollout.insertLeft ForNode j (ss ++ [i]) = None.
Proof.
  intros Hi Hj Hs. induction Hs as [|z zs Hz Hzs IH]; simpl.
  - rewrite (Less_noStatus_both i j Hi Hj). reflexivity.
  - rewrite (proj1 (Less_noStatus_status j z Hj Hz)), IH. reflexivity.
Qed.

Lemma insertionSort_status_prefix pre :
  forall ss rest,
    Forall (hasStatus ForNode) ss -> Forall (hasStatus ForNode) pre ->
    exists ss',
      Rollout.insertionSort ForNode ss (pre ++ rest)
      = Rollout.insertionSort ForNode ss' rest /\
      Forall (hasStatus ForNode) ss'.
Proof.
  induction pre as [|x pre IH]; intros ss rest Hs Hp; simpl.
  - exists ss. auto.
  - inversion Hp as [|? ? Hx Hrest]; subst.
    destruct (insertLeft_status_total x ss Hx Hs) as (l & Hl & Hall).
    rewrite Hl. apply IH; assumption.
Qed.

Lemma insertionSort_second_noStatus i j mid :
  forall ss post,
    noStatus ForNode i -> noStatus ForNode j ->
    Forall (hasStatus ForNode) ss -> Forall (hasStatus ForNode) mid ->
    Rollout.insertionSort ForNode (ss ++ [i]) (mid ++ j :: post) = None.
Proof.
  induction mid as [|y mid IH]; intros ss post Hi Hj Hs Hm; simpl.
  - rewrite (insertLeft_second_noStatus i j ss Hi Hj Hs). reflexivity.
  - inversion Hm as [|? ? Hy Hrest]; subst.
    destruct (insertLeft_status_keeps_last i y ss Hi Hy Hs) as (ss' & Hl & Hall).
    rewrite Hl. apply IH; assumption.
Qed.

End NoStatusFacts.

(** X21. When the status lookup answers [NoStatusGiven] with a nil status
    for two of the nodes, and the nodes before the second of them otherwise
    have a status, the sort panics: [Less] compares the two, finds their
    errors equal and dereferences the nil status pointers. *)
Theorem two_nodes_without_status_panic
    (ForNode : string -> option Rollout.ServiceNodeStatus * option Rollout.status_error)
    (pre mid post : list Rollout.Node) (i j : Rollout.Node) :
  Forall (hasStatus ForNode) pre -> Forall (hasStatus ForNode) mid ->
  noStatus ForNode i -> noStatus ForNode j ->
  Rollout.Less ForNode j i = None /\
  Rollout.getRolloutOrder ForNode (pre ++ i :: mid ++ j :: post) = None.
Proof.
  intros Hp Hm Hi Hj. split; [apply Less_noStatus_both; assumption|].
  unfold Rollout.getRolloutOrder.
  destruct (insertionSort_status_prefix ForNode pre [] (i :: mid ++ j :: post)
              ltac:(constructor) Hp) as (ss & He & Hs).
  rewrite He. cbn [Rollout.insertionSort].
  rewrite (insertLeft_noStatus_last ForNode i ss Hi Hs).
  apply insertionSort_second_noStatus; assumption.
Qed.

Lemma two_nodes_without_status_panic_witness :
  Rollout.getRolloutOrder statusButXY
    [Rollout.mkNode "a" false; Rollout.mkNode "x" false;
     Rollout.mkNode "b" false; Rollout.mkNode "y" false;
     Rollout.mkNode "c" false] = None.
Proof.
  apply (two_nodes_without_status_panic statusButXY
           [Rollout.mkNode "a" false] [Rollout.mkNode "b" false]
           [Rollout.mkNode "c" false]
           (Rollout.mkNode "x" false) (Rollout.mkNode "y" false)).
  - repeat constructor. eexists; reflexivity.
  - repeat constructor. eexists; reflexivity.
  - reflexivity.
  - reflexivity.
Defined.

(** X22. The comparisons behind [Less].  [compareErrors] is antisymmetric:
    swapping its arguments negates the answer, which is one of the three
    named values.  [compareHealth] never answers [equal], not even for a
    node and itself, so the closing [return false] of [Less] is never
    reached through it. *)
Theorem compare_functions_antisymmetric
    (iErr jErr : option Rollout.status_error) (iNode jNode : Rollout.Node)
    (iHealth jHealth : Rollout.ServiceNodeStatus) :
  Rollout.compareErrors jErr iErr = - Rollout.compareErrors iErr jErr /\
  (Rollout.compareErrors iErr jErr = Rollout.lessThan \/
   Rollout.compareErrors iErr jErr = Rollout.equal \/
   Rollout.compareErrors iErr jErr = Rollout.greaterThan) /\
  Rollout.compareHealth iNode jNode (Some iHealth) (Some jHealth)
  <> Some Rollout.equal /\
  Rollout.compareHealth iNode iNode (Some iHealth) (Some iHealth)
  = Some Rollout.greaterThan.
Proof.
  split; [|split; [|split]].
  - destruct iErr as [[|mi]|], jErr as [[|mj]|]; try reflexivity.
    unfold Rollout.compareErrors.
    destruct (decide (Rollout.OtherStatusError mi = Rollout.OtherStatusError mj)) as [E|E].
    + rewrite E. repeat case_bool_decide; simpl; try reflexivity; congruence.
    + repeat case_bool_decide; simpl; try reflexivity; congruence.
  - destruct iErr as [[|mi]|], jErr as [[|mj]|]; cbn; auto.
    repeat case_bool_decide; simpl; auto.
  - unfold Rollout.compareHealth.
    destruct (Rollout.Healthy iHealth), (Rollout.Healthy jHealth); simpl;
      try discriminate;
      destruct (Rollout.string_lt _ _); discriminate.
  - unfold Rollout.compareHealth. rewrite string_lt_irrefl.
    destruct (Rollout.Healthy iHealth); reflexivity.
Qed.

(** ** The authorization policies *)

Lemma userSetOf_lookup_acc userList :
  forall (acc : gmap string bool) (u : string),
    foldl (fun userSet user => <[user := true]> userSet) acc userList !! u
    = if decide (u ∈ userList) then Some true else acc !! u.
Proof.
  induction userList as [|x l IH]; intros acc u; simpl.
  - destruct (decide (u ∈ [])) as [H|_]; [inversion H | reflexivity].
  - rewrite IH.
    destruct (decide (u ∈ l)) as [Hin|Hnin];
      destruct (decide (u ∈ x :: l)) as [Hin'|Hnin']; try reflexivity.
    + exfalso. apply Hnin'. right. assumption.
    + apply elem_of_cons in Hin' as [->|Hin']; [|contradiction].
      apply lookup_insert_eq.
    + apply lookup_insert_ne. intros ->. apply Hnin'. left.
Qed.

Lemma inGroup_raw rawDp group email :
  Auth.inGroup (Auth.deployPolOfRaw rawDp) group email = true <->
  exists userList, Auth.raw_Groups rawDp !! group = Some userList /\
                   email ∈ userList.
Proof.
  unfold Auth.inGroup, Auth.deployPolOfRaw. simpl. rewrite lookup_fmap.
  destruct (Auth.raw_Groups rawDp !! group) as [userList|]; simpl.
  - unfold Auth.userSetOf. rewrite userSetOf_lookup_acc.
    destruct (decide (email ∈ userList)); simpl.
    + split; [eauto | reflexivity].
    + rewrite lookup_empty. simpl. split; [discriminate|].
      intros (l & Hl & Hin). inversion Hl; subst. contradiction.
  - split; [discriminate|]. intros (l & Hl & _). discriminate.
Qed.

(** X23. [DeployPol.Authorized] fails closed.  It is true exactly when one
    of the groups listed for the app user holds the address with the value
    true; an app user without an entry, a listed group that does not exist
    and an address that is not in a group all give false. *)
Theorem Authorized_iff (dp : Auth.DeployPol) (appUser email : string) :
  (Auth.Authorized dp appUser email = true <->
   exists groups group userSet,
     Auth.Apps dp !! appUser = Some groups /\ group ∈ groups /\
     Auth.Groups dp !! group = Some userSet /\
     userSet !! email = Some true) /\
  (Auth.Apps dp !! appUser = None -> Auth.Authorized dp appUser email = false).
Proof.
  unfold Auth.Authorized. split.
  - rewrite existsb_exists. split.
    + intros (group & Hin & Hg). unfold Auth.inGroup in Hg.
      destruct (Auth.Apps dp !! appUser) as [groups|]; simpl in Hin;
        [|contradiction].
      destruct (Auth.Groups dp !! group) as [userSet|] eqn:Hgr; [|discriminate].
      exists groups, group, userSet.
      split; [reflexivity|]. split; [apply list_elem_of_In; assumption|].
      split; [assumption|].
      destruct (userSet !! email) as [[|]|]; simpl in Hg; congruence.
    + intros (groups & group & userSet & Ha & Hin & Hg & Hu).
      exists group. rewrite Ha. simpl.
      split; [apply list_elem_of_In; assumption|].
      unfold Auth.inGroup. rewrite Hg, Hu. reflexivity.
  - intros H. rewrite H. reflexivity.
Qed.

(** X24. A policy loaded from a file authorizes an address for an app user
    exactly when the file lists, for that app user, a group whose list of
    users contains the address. *)
Theorem loaded_policy_authorizes_listed_members
    (rawDp : Auth.RawDeployPol) (appUser email : string) :
  Auth.Authorized (Auth.deployPolOfRaw rawDp) appUser email = true <->
  exists groups group userList,
    Auth.raw_Apps rawDp !! appUser = Some groups /\ group ∈ groups /\
    Auth.raw_Groups rawDp !! group = Some userList /\
    email ∈ userList.
Proof.
  unfold Auth.Authorized. rewrite existsb_exists. simpl. split.
  - intros (group & Hin & Hg).
    destruct (Auth.raw_Apps rawDp !! appUser) as [groups|]; simpl in Hin;
      [|contradiction].
    apply inGroup_raw in Hg as (userList & Hl & Hu).
    exists groups, group, userList.
    split; [reflexivity|]. split; [apply list_elem_of_In; assumption|]. auto.
  - intros (groups & group & userList & Ha & Hin & Hg & Hu).
    exists group. rewrite Ha. simpl.
    split; [apply list_elem_of_In; assumption|].
    apply inGroup_raw. eauto.
Qed.

Section PolicyFacts.

Variable Keyring : Type.
Variable CheckDetachedSignature :
  Keyring -> list Byte.byte -> list Byte.byte -> Auth.pgp_result.
Variable packetRead : list Byte.byte -> Auth.packet + string.

Lemma checkDetachedSignature_inl keyring signed sig signer :
  Auth.checkDetachedSignature Keyring CheckDetachedSignature packetRead
    keyring signed sig = inl signer <->
  CheckDetachedSignature keyring signed sig = Auth.PgpOk signer.
Proof.
  unfold Auth.checkDetachedSignature.
  destruct (CheckDetachedSignature keyring signed sig) as [s| |msg].
  - split; intros H; inversion H; reflexivity.
  - destruct (Auth.signerKeyId packetRead sig) as [keyId [c|]];
      split; discriminate.
  - split; discriminate.
Qed.

Lemma authorizeIdentities_nil_iff dpol podUser ids :
  forall lastIdName,
    Auth.authorizeIdentities dpol podUser ids lastIdName = None <->
    exists name email, (name, email) ∈ ids /\
                       Auth.Authorized dpol podUser email = true.
Proof.
  induction ids as [|[name email] rest IH]; intros lastIdName; simpl.
  - split; [discriminate|]. intros (n & e & Hin & _). inversion Hin.
  - destruct (Auth.Authorized dpol podUser email) eqn:Ha.
    + split; [|reflexivity]. intros _. exists name, email. split; [left|assumption].
    + rewrite IH. split.
      * intros (n & e & Hin & He). exists n, e. split; [right; assumption|assumption].
      * intros (n & e & Hin & He).
        apply elem_of_cons in Hin as [Heq|Hin]; [|eauto].
        inversion Heq; subst. congruence.
Qed.

End PolicyFacts.

(** X25. [checkDetachedSignature] returns the signer exactly when the pgp
    check accepts the signature, and never both a signer and an error.  For
    an unknown issuer the error names the issuer key id found in the
    signature packet, or tells why none can be read; any other failure is
    reported as a validation error carrying its message. *)
Theorem checkDetachedSignature_standardizes_errors
    (Keyring : Type)
    (CheckDetachedSignature :
       Keyring -> list Byte.byte -> list Byte.byte -> Auth.pgp_result)
    (packetRead : list Byte.byte -> Auth.packet + string)
    (keyring : Keyring) (signed sig : list Byte.byte) :
  Auth.checkDetachedSignature Keyring CheckDetachedSignature packetRead
    keyring signed sig
  = match CheckDetachedSignature keyring signed sig with
    | Auth.PgpOk signer => inl signer
    | Auth.PgpError msg => inr (Auth.ErrValidating (Auth.CausePgp msg))
    | Auth.PgpUnknownIssuer =>
        match packetRead sig with
        | inl (Auth.PktSignature (Some keyId)) => inr (Auth.ErrUnknownSigner keyId)
        | inl (Auth.PktSignatureV3 keyId) => inr (Auth.ErrUnknownSigner keyId)
        | inl (Auth.PktSignature None) =>
            inr (Auth.ErrValidating Auth.CauseNoIssuer)
        | inl Auth.PktOther => inr (Auth.ErrValidating Auth.CauseNonSignature)
        | inr err => inr (Auth.ErrValidating (Auth.CauseRead err))
        end
    end /\
  (forall signer,
     Auth.checkDetachedSignature Keyring CheckDetachedSignature packetRead
       keyring signed sig = inl signer <->
     CheckDetachedSignature keyring signed sig = Auth.PgpOk signer).
Proof.
  split; [|intros signer; apply checkDetachedSignature_inl].
  unfold Auth.checkDetachedSignature, Auth.signerKeyId.
  destruct (CheckDetachedSignature keyring signed sig); try reflexivity.
  destruct (packetRead sig) as [[[k|]|k|]|err]; reflexivity.
Qed.

(** X26. [FixedKeyringPolicy.AuthorizeApp] authorizes a manifest exactly
    when it carries a signature that the pgp check accepts and either no
    deployers are listed for the pod or the signer's fingerprint, in
    upper-case hexadecimal, is one of them.  An unsigned manifest is always
    refused, and [AuthorizeHook] decides as [AuthorizeApp] does. *)
Theorem FixedKeyring_AuthorizeApp_iff
    (Keyring : Type)
    (CheckDetachedSignature :
       Keyring -> list Byte.byte -> list Byte.byte -> Auth.pgp_result)
    (packetRead : list Byte.byte -> Auth.packet + string)
    (p : Auth.FixedKeyringPolicy Keyring) (m : Auth.Manifest) :
  (Auth.FixedKeyring_AuthorizeApp Keyring CheckDetachedSignature packetRead p m
   = None <->
   exists sig signer,
     Auth.signature m = Some sig /\
     CheckDetachedSignature (Auth.fk_Keyring Keyring p) (Auth.plaintext m) sig
     = Auth.PgpOk signer /\
     (Auth.deployersOf Keyring p (Auth.ID m) = [] \/
      Auth.formatX (Auth.Fingerprint signer)
      ∈ Auth.deployersOf Keyring p (Auth.ID m))) /\
  (Auth.signature m = None ->
   Auth.FixedKeyring_AuthorizeApp Keyring CheckDetachedSignature packetRead p m
   = Some Auth.ErrUnsignedExpected) /\
  Auth.FixedKeyring_AuthorizeHook Keyring CheckDetachedSignature packetRead p m
  = Auth.FixedKeyring_AuthorizeApp Keyring CheckDetachedSignature packetRead p m.
Proof.
  split; [|split; [|reflexivity]].
  - unfold Auth.FixedKeyring_AuthorizeApp, Auth.SignatureData.
    destruct (Auth.signature m) as [sig|].
    + destruct (Auth.checkDetachedSignature Keyring CheckDetachedSignature
                  packetRead (Auth.fk_Keyring Keyring p) (Auth.plaintext m) sig)
        as [signer|err] eqn:Hc.
      * apply (checkDetachedSignature_inl Keyring CheckDetachedSignature packetRead) in Hc.
        destruct (Auth.deployersOf Keyring p (Auth.ID m)) as [|d ds] eqn:Hd.
        -- simpl. split; [|reflexivity]. intros _.
           exists sig, signer. auto.
        -- cbn [length Z.of_nat Z.ltb Z.compare].
           destruct (existsb _ (d :: ds)) eqn:He.
           ++ split; [|reflexivity]. intros _. exists sig, signer.
              split; [reflexivity|]. split; [assumption|]. right.
              apply existsb_exists in He as (x & Hin & Hx).
              apply bool_decide_eq_true in Hx. subst x.
              apply list_elem_of_In. assumption.
           ++ split; [discriminate|].
              intros (sig' & signer' & Hs & Hc' & Hor).
              inversion Hs; subst sig'. rewrite Hc in Hc'.
              inversion Hc'; subst signer'.
              destruct Hor as [Hnil|Hin]; [discriminate|].
              assert (Ht : existsb
                             (fun deployerId =>
                                bool_decide (deployerId
                                             = Auth.formatX (Auth.Fingerprint signer)))
                             (d :: ds) = true).
              { apply existsb_exists. eexists. split.
                - apply list_elem_of_In. exact Hin.
                - apply bool_decide_eq_true. reflexivity. }
              congruence.
      * split; [discriminate|].
        intros (sig' & signer' & Hs & Hc' & _).
        inversion Hs; subst sig'.
        apply (checkDetachedSignature_inl Keyring CheckDetachedSignature packetRead) in Hc'. congruence.
    + split; [discriminate|]. intros (sig & signer & Hs & _). discriminate.
  - intros Hs. unfold Auth.FixedKeyring_AuthorizeApp, Auth.SignatureData.
    rewrite Hs. reflexivity.
Qed.

(** X27. [CheckDigest] accepts a digest without a signature, and a signed
    digest exactly when the pgp check accepts its signature; the deployer
    lists play no part, so the check of a [UserPolicy] and that of a fixed
    keyring policy over the same keyring agree. *)
Theorem CheckDigest_accepts_unsigned
    (Keyring : Type)
    (CheckDetachedSignature :
       Keyring -> list Byte.byte -> list Byte.byte -> Auth.pgp_result)
    (packetRead : list Byte.byte -> Auth.packet + string)
    (p : Auth.FixedKeyringPolicy Keyring) (u : Auth.UserPolicy Keyring)
    (plaintext sig : list Byte.byte) :
  Auth.FixedKeyring_CheckDigest Keyring CheckDetachedSignature packetRead p
    plaintext None = None /\
  (Auth.FixedKeyring_CheckDigest Keyring CheckDetachedSignature packetRead p
     plaintext (Some sig) = None <->
   exists signer,
     CheckDetachedSignature (Auth.fk_Keyring Keyring p) plaintext sig
     = Auth.PgpOk signer) /\
  (Auth.up_keyring Keyring u = Auth.fk_Keyring Keyring p ->
   forall signature,
     Auth.User_CheckDigest Keyring CheckDetachedSignature packetRead u
       plaintext signature
     = Auth.FixedKeyring_CheckDigest Keyring CheckDetachedSignature packetRead
         p plaintext signature).
Proof.
  split; [reflexivity|]. split.
  - unfold Auth.FixedKeyring_CheckDigest.
    destruct (Auth.checkDetachedSignature Keyring CheckDetachedSignature
                packetRead (Auth.fk_Keyring Keyring p) plaintext sig)
      as [signer|err] eqn:Hc.
    + apply (checkDetachedSignature_inl Keyring CheckDetachedSignature packetRead) in Hc. split; [eauto | reflexivity].
    + split; [discriminate|]. intros (signer & Hs).
      apply (checkDetachedSignature_inl Keyring CheckDetachedSignature packetRead) in Hs. congruence.
  - intros Hk signature. unfold Auth.User_CheckDigest, Auth.FixedKeyring_CheckDigest.
    simpl. rewrite Hk. reflexivity.
Qed.

(** X28. [UserPolicy].  [AuthorizePod] authorizes exactly when the data is
    signed, the pgp check accepts the signature, and one of the signer's
    identities has an address the deploy policy authorizes for the pod
    user; a signer without identities is refused with the name
    "(unknown)".  [AuthorizeApp] checks the manifest's run-as user, except
    for the preparer's own pod, which is checked against the preparer user
    as every hook is. *)
Theorem UserPolicy_authorizes_by_identity
    (Keyring : Type)
    (CheckDetachedSignature :
       Keyring -> list Byte.byte -> list Byte.byte -> Auth.pgp_result)
    (packetRead : list Byte.byte -> Auth.packet + string)
    (p : Auth.UserPolicy Keyring) (podUser : string) (m : Auth.Manifest) :
  (Auth.AuthorizePod Keyring CheckDetachedSignature packetRead p podUser
     (Auth.plaintext m) (Auth.signature m) = None <->
   exists sig signer name email,
     Auth.signature m = Some sig /\
     CheckDetachedSignature (Auth.up_keyring Keyring p) (Auth.plaintext m) sig
     = Auth.PgpOk signer /\
     (name, email) ∈ Auth.Identities signer /\
     Auth.Authorized (Auth.up_dpol Keyring p) podUser email = true) /\
  (forall sig signer,
     Auth.signature m = Some sig ->
     CheckDetachedSignature (Auth.up_keyring Keyring p) (Auth.plaintext m) sig
     = Auth.PgpOk signer ->
     Auth.Identities signer = [] ->
     Auth.AuthorizePod Keyring CheckDetachedSignature packetRead p podUser
       (Auth.plaintext m) (Auth.signature m)
     = Some (Auth.ErrUserNotAuthorized "(unknown)")) /\
  (Auth.ID m = Auth.preparerApp Keyring p ->
   Auth.User_AuthorizeApp Keyring CheckDetachedSignature packetRead p m
   = Auth.User_AuthorizeHook Keyring CheckDetachedSignature packetRead p m) /\
  (Auth.ID m <> Auth.preparerApp Keyring p ->
   Auth.User_AuthorizeApp Keyring CheckDetachedSignature packetRead p m
   = Auth.AuthorizePod Keyring CheckDetachedSignature packetRead p
       (Auth.RunAsUser m) (Auth.plaintext m) (Auth.signature m)).
Proof.
  split; [|split; [|split]].
  - unfold Auth.AuthorizePod.
    destruct (Auth.signature m) as [sig|].
    + destruct (Auth.checkDetachedSignature Keyring CheckDetachedSignature
                  packetRead (Auth.up_keyring Keyring p) (Auth.plaintext m) sig)
        as [signer|err] eqn:Hc.
      * apply (checkDetachedSignature_inl Keyring CheckDetachedSignature packetRead) in Hc.
        rewrite authorizeIdentities_nil_iff. split.
        -- intros (name & email & Hin & Ha). exists sig, signer, name, email. auto.
        -- intros (sig' & signer' & name & email & Hs & Hc' & Hin & Ha).
           inversion Hs; subst sig'. rewrite Hc in Hc'.
           inversion Hc'; subst signer'. eauto.
      * split; [discriminate|].
        intros (sig' & signer' & name & email & Hs & Hc' & _).
        inversion Hs; subst sig'.
        apply (checkDetachedSignature_inl Keyring CheckDetachedSignature packetRead) in Hc'. congruence.
    + split; [discriminate|].
      intros (sig & signer & name & email & Hs & _). discriminate.
  - intros sig signer Hs Hc Hi. unfold Auth.AuthorizePod. rewrite Hs.
    apply (checkDetachedSignature_inl Keyring CheckDetachedSignature packetRead) in Hc. rewrite Hc, Hi. reflexivity.
  - intros He. unfold Auth.User_AuthorizeApp, Auth.User_AuthorizeHook.
    rewrite decide_True by assumption. reflexivity.
  - intros Hne. unfold Auth.User_AuthorizeApp.
    rewrite decide_False by assumption. reflexivity.
Qed.

(** The example of the source's comment: Alice may deploy as ["web"] and
    not as ["db"]. *)
Lemma loaded_policy_authorizes_listed_members_witness :
  Auth.Authorized (Auth.deployPolOfRaw Auth.examplePolicy) "web" "alice@my.org"
  = true /\
  Auth.Authorized (Auth.deployPolOfRaw Auth.examplePolicy) "db" "alice@my.org"
  = false.
Proof.
  split.
  - apply (proj2 (loaded_policy_authorizes_listed_members Auth.examplePolicy
                    "web" "alice@my.org")).
    exists ["teamA"; "admins"], "teamA", ["alice@my.org"; "bob@my.org"].
    split; [vm_compute; reflexivity|]. split; [left|].
    split; [vm_compute; reflexivity | left].
  - destruct (Auth.Authorized (Auth.deployPolOfRaw Auth.examplePolicy) "db"
                "alice@my.org") eqn:E; [|reflexivity].
    apply (proj1 (loaded_policy_authorizes_listed_members Auth.examplePolicy
                    "db" "alice@my.org")) in E.
    destruct E as (groups & group & userList & Ha & Hin & Hg & Hu).
    vm_compute in Ha. inversion Ha; subst groups.
    apply list_elem_of_singleton in Hin. subst group.
    vm_compute in Hg. inversion Hg; subst userList.
    apply list_elem_of_singleton in Hu. discriminate.
Defined.

Lemma FixedKeyring_AuthorizeApp_iff_witness :
  Auth.formatX (Auth.Fingerprint Auth.alice) = "DEADBEEF" /\
  Auth.FixedKeyring_AuthorizeApp unit Auth.knowsAlice Auth.readNothing
    (Auth.mkFixedKeyringPolicy unit tt {["web" := ["DEADBEEF"]]})
    (Auth.mkManifest "web" "nobody" [] (Some [Byte.x41])) = None.
Proof.
  split; [vm_compute; reflexivity|].
  apply (proj2 (proj1 (FixedKeyring_AuthorizeApp_iff unit Auth.knowsAlice
                         Auth.readNothing
                         (Auth.mkFixedKeyringPolicy unit tt {["web" := ["DEADBEEF"]]})
                         (Auth.mkManifest "web" "nobody" [] (Some [Byte.x41]))))).
  exists [Byte.x41], Auth.alice. split; [reflexivity|]. split.
  - reflexivity.
  - right. vm_compute. left.
Defined.

Lemma UserPolicy_authorizes_by_identity_witness :
  Auth.User_AuthorizeApp unit Auth.knowsAlice Auth.readNothing
    (Auth.mkUserPolicy unit tt (Auth.deployPolOfRaw Auth.examplePolicy)
       "p2-preparer" "root")
    (Auth.mkManifest "api" "web" [] (Some [Byte.x41])) = None.
Proof.
  destruct (UserPolicy_authorizes_by_identity unit Auth.knowsAlice
              Auth.readNothing
              (Auth.mkUserPolicy unit tt (Auth.deployPolOfRaw Auth.examplePolicy)
                 "p2-preparer" "root")
              "web"
              (Auth.mkManifest "api" "web" [] (Some [Byte.x41])))
    as (H1 & _ & _ & H4).
  rewrite H4 by discriminate. apply H1.
  exists [Byte.x41], Auth.alice, "Alice", "alice@my.org".
  split; [reflexivity|]. split.
  - reflexivity.
  - split; [left|]. vm_compute. reflexivity.
Defined.

(** ** Timeout changes *)

Lemma pool_step_keeps_waiting i l s s' :
  releases i l = false ->
  pool_step l s = Some s' ->
  waitsWithoutDeadline i s -> waitsWithoutDeadline i s'.
Proof.
  intros Hrel Hstep (j & Hi & Hd). unfold waitsWithoutDeadline.
  destruct l as [k|k| | |k|k|k| |k|k|d]; simpl in Hstep, Hrel;
    try (inversion Hstep; subst; simpl; eauto; fail).
  - destruct (decide (k = i)) as [->|Hne].
    + rewrite Hi in Hstep. discriminate.
    + destruct (p_workers s !! k) as [[| |]|]; try discriminate.
      destruct (p_queue s); try discriminate.
      inversion Hstep; subst. simpl.
      rewrite list_lookup_insert_ne by assumption. eauto.
  - destruct (decide (k = i)) as [->|Hne].
    + rewrite Hi in Hstep. discriminate.
    + destruct (p_workers s !! k) as [[| |]|]; try discriminate.
      destruct (p_queue s); try discriminate.
      destruct (p_closed s); try discriminate.
      inversion Hstep; subst. simpl.
      rewrite list_lookup_insert_ne by assumption. eauto.
  - destruct (decide (k = i)) as [->|Hne].
    + rewrite Hi in Hstep. destruct (job_running j); [|discriminate].
      inversion Hstep; subst. simpl.
      rewrite list_lookup_insert_eq by (eapply lookup_lt_Some; eassumption).
      eexists. split; [reflexivity|]. assumption.
    + destruct (p_workers s !! k) as [[|j'|]|]; try discriminate.
      destruct (job_running j'); [|discriminate].
      inversion Hstep; subst. simpl.
      rewrite list_lookup_insert_ne by assumption. eauto.
  - destruct (decide (k = i)) as [->|Hne].
    + rewrite Hi, Hd in Hstep. discriminate.
    + destruct (p_workers s !! k) as [[|j'|]|]; try discriminate.
      destruct (job_deadline j' && negb (job_ctxDone j')); [|discriminate].
      inversion Hstep; subst. simpl.
      rewrite list_lookup_insert_ne by assumption. eauto.
  - apply bool_decide_eq_false in Hrel.
    destruct (p_workers s !! k) as [[|j'|]|]; try discriminate.
    destruct (job_ctxDone j'); [|discriminate].
    inversion Hstep; subst. unfold detach.
    destruct (job_running j'); simpl;
      rewrite list_lookup_insert_ne by assumption; eauto.
  - apply bool_decide_eq_false in Hrel.
    destruct (p_workers s !! k) as [[|j'|]|]; try discriminate.
    destruct (p_quit s); [|discriminate].
    inversion Hstep; subst. unfold detach.
    destruct (job_running j'); simpl;
      rewrite list_lookup_insert_ne by assumption; eauto.
  - destruct (p_detached s !! k); [|discriminate].
    inversion Hstep; subst. simpl. eauto.
Qed.

Lemma pool_run_keeps_waiting i ls :
  forall s s',
    Forall (fun l => releases i l = false) ls ->
    pool_run ls s = Some s' ->
    waitsWithoutDeadline i s -> waitsWithoutDeadline i s'.
Proof.
  induction ls as [|l ls IH]; intros s s' Hls Hrun Hw; simpl in Hrun.
  - inversion Hrun; subst. assumption.
  - destruct (pool_step l s) as [s1|] eqn:Hstep; [|discriminate].
    inversion Hls; subst.
    eapply IH; eauto using pool_step_keeps_waiting.
Qed.

(** X29. A timeout change reaches only the nodes started after it.
    [SetTimeout] on a replication not yet enacted is the pool's timeout
    step.  An update a worker started while the timeout was [NoTimeout] has
    no deadline: as long as the worker waits for it, no deadline can pass
    for it, whatever timeouts are set meanwhile. *)
Theorem SetTimeout_reaches_later_nodes_only
    (r : replication) (d : Duration) (s s1 s2 : pool) (i : nat)
    (ls : list label) :
  pool_step (LSetTimeout d) (pool_init r) = Some (pool_init (SetTimeout d r)) /\
  (p_timeout s = NoTimeout ->
   pool_step (LTake i) s = Some s1 ->
   Forall (fun l => releases i l = false) ls ->
   pool_run ls s1 = Some s2 ->
   waitsWithoutDeadline i s2 /\ pool_step (LDeadline i) s2 = None).
Proof.
  split; [reflexivity|].
  intros Ht Htake Hls Hrun.
  assert (Hw : waitsWithoutDeadline i s1).
  { simpl in Htake.
    destruct (p_workers s !! i) as [[| |]|] eqn:Hi; try discriminate.
    destruct (p_queue s); try discriminate.
    inversion Htake; subst. unfold waitsWithoutDeadline. simpl.
    rewrite list_lookup_insert_eq by (eapply lookup_lt_Some; eassumption).
    eexists. split; [reflexivity|]. simpl.
    rewrite Ht, bool_decide_eq_true_2 by reflexivity. reflexivity. }
  pose proof (pool_run_keeps_waiting i ls s1 s2 Hls Hrun Hw) as Hw2.
  split; [assumption|].
  destruct Hw2 as (j & Hj & Hd). simpl. rewrite Hj, Hd. reflexivity.
Qed.

Lemma SetTimeout_reaches_later_nodes_only_witness :
  exists s1 s2,
    pool_step (LTake 0) (pool_init (replicationOf 2 ["a"; "b"] NoTimeout None))
    = Some s1 /\
    pool_run [LSetTimeout 5000; LTake 1; LDeadline 1] s1 = Some s2 /\
    pool_step (LDeadline 0) s2 = None.
Proof.
  eexists _, _. split; [reflexivity|]. split; [vm_compute; reflexivity|].
  match goal with
  | |- pool_step _ ?s2 = None =>
      destruct (proj2 (SetTimeout_reaches_later_nodes_only
                         (replicationOf 2 ["a"; "b"] NoTimeout None) 5000
                         (pool_init (replicationOf 2 ["a"; "b"] NoTimeout None))
                         _ s2 0 [LSetTimeout 5000; LTake 1; LDeadline 1])
                  eq_refl eq_refl ltac:(repeat constructor) eq_refl)
        as [_ H]; exact H
  end.
Defined.
